(** * geocontext: the k-nearest-neighbour context of a set of points

    A shallow embedding of the function [geocontext] of the notebook
    [geocontext.ipynb], and the properties of its radius search, its
    selections and its statistics.

    Conventions of the embedding.
    - A pandas cell is an exact rational ([Q]): the sums and quotients of
      the model are exact, where the code rounds to float64 or wraps at
      int64.  The two agree on a column of whole numbers whose total is
      below 2^53 ([whole]); the properties that depend on an exact sum are
      stated for such columns.
    - Coordinates, distances and k-values are integers ([Z]).  The distance
      of [geocontext] is the exact one ([euclid], the integer square root);
      [np_distance] is the expression of lines 133-135 in the arithmetic of
      numpy (int64 with wrap-around, float64 square root, truncation), and
      the two agree when the squared distance is below 2^52
      ([np_distance_exact]); from the distance 2^26 + 1 on they can differ.
    - [math.sqrt] of a rational is kept as the symbol [VSqrt].
    - The reference table is a list of rows; its columns ['North'], ['East']
      and ['Distance'] are fields, every other column is read by name through
      [cells].  A column name that the table does not have is not modelled.
    - The points table is the list of the points in row order, each with
      the columns the call adds for it; the four column-name arguments for
      the coordinates are taken at their meaning, the fields [North] and
      [East].
    - [popLocations] is the caller's object, changed in place: [geocontext]
      returns the table it leaves behind beside its outcome.  The in-place
      sort of the caller's [kValues] list is not part of that state.
    - Python exceptions are values of [exn]; a computation that may raise
      returns a [result]. *)

From Stdlib Require Import ZArith QArith List Ascii String Bool Lia Lqa.
From Stdlib Require Import Permutation Sorted DecimalString.
From Stdlib Require SpecFloat.
Import ListNotations.

Open Scope string_scope.
Open Scope Z_scope.

(** ** A small Python prelude *)

Module Py.

Inductive exn : Type :=
| TypeError (msg : string)
| IndexError (msg : string)
| KeyError (key : string)
| ZeroDivisionError (msg : string)
| ValueError (msg : string).

Inductive result (A : Type) : Type :=
| Ok (a : A)
| Raise (e : exn).
Arguments Ok {A} a.
Arguments Raise {A} e.

Definition bind {A B : Type} (c : result A) (k : A -> result B) : result B :=
  match c with
  | Ok a => k a
  | Raise e => Raise e
  end.

(** An argument of a dynamically typed call: a list, a string, or an
    object of some other type. *)
Inductive object (A : Type) : Type :=
| PyList (l : list A)
| PyStr (s : string)
| PyOther.
Arguments PyList {A} l.
Arguments PyStr {A} s.
Arguments PyOther {A}.

(** [l[i]] on a Python list, for an index that is never negative. *)
Definition getitem {A : Type} (l : list A) (i : nat) : result A :=
  match nth_error l i with
  | Some x => Ok x
  | None => Raise (IndexError "list index out of range")
  end.

(** What pandas raises for a position outside a series. *)
Definition out_of_bounds : exn :=
  IndexError "single positional indexer is out-of-bounds".

(** [series.iloc[i]]: a negative position counts from the end. *)
Definition iloc {A : Type} (l : list A) (i : Z) : result A :=
  let j := if i <? 0 then i + Z.of_nat (List.length l) else i in
  if j <? 0 then Raise out_of_bounds
  else match nth_error l (Z.to_nat j) with
       | Some x => Ok x
       | None => Raise out_of_bounds
       end.

(** [str(k)] of an integer, as an f-string prints it. *)
Definition str (k : Z) : string := NilZero.string_of_int (Z.to_int k).

(** [list.sort()] on integers. *)
Fixpoint insert_int (k : Z) (l : list Z) : list Z :=
  match l with
  | [] => [k]
  | x :: l' => if k <=? x then k :: l else x :: insert_int k l'
  end.

Definition sort (l : list Z) : list Z := fold_right insert_int [] l.

End Py.
Import Py.

Notation "x <- c ;; k" := (bind c (fun x => k))
  (at level 61, c at next level, right associativity).
Notation "' p <- c ;; k" := (bind c (fun x => let 'p := x in k))
  (at level 61, p pattern, c at next level, right associativity).

(** ** Values and rows *)

(** What a cell of the output table holds. *)
Inductive value : Type :=
| VInt (z : Z)
| VNum (q : Q)
| VSqrt (q : Q)        (* math.sqrt q, for 0 <= q *)
| VNaN
| VInf
| VNegInf.

(** A Python [dict] with string keys, in insertion order. *)
Definition dict : Type := list (string * value).

Fixpoint dict_get (key : string) (d : dict) : option value :=
  match d with
  | [] => None
  | (k, v) :: d' => if String.eqb k key then Some v else dict_get key d'
  end.

Fixpoint dict_set (key : string) (v : value) (d : dict) : dict :=
  match d with
  | [] => [(key, v)]
  | (k, w) :: d' =>
      if String.eqb k key then (k, v) :: d' else (k, w) :: dict_set key v d'
  end.

Record point : Type := { pNorth : Z; pEast : Z }.

Record location : Type := { North : Z; East : Z; cells : string -> Q }.

(** A row of [popLocations] once the ['Distance'] column exists. *)
Definition row : Type := (Z * location)%type.
Definition Distance (r : row) : Z := fst r.

(** The caller's reference table: without or with a ['Distance'] column. *)
Inductive frame : Type :=
| Plain (rows : list location)
| WithDistance (rows : list row).

Definition locations (f : frame) : list location :=
  match f with
  | Plain rows => rows
  | WithDistance rows => map snd rows
  end.

(** [popLocations[c]] *)
Definition column (c : string) (rows : list row) : list Q :=
  map (fun r => cells (snd r) c) rows.

Definition Qsum (l : list Q) : Q := fold_right Qplus 0%Q l.

Definition Qltb (x y : Q) : bool := negb (Qle_bool y x).

(** ** DistanceIndex: lines 125 and 133-138 *)

(** [popLocations['Distance'] = 0] *)
Definition assign_zero (f : frame) : list row :=
  map (fun l => (0, l)) (locations f).

(** [np.sqrt(np.power(dN, 2) + np.power(dE, 2)).astype('int')], in exact
    arithmetic. *)
Definition euclid (p : point) (l : location) : Z :=
  Z.sqrt ((pNorth p - North l) ^ 2 + (pEast p - East l) ^ 2).

(** The same expression in the arithmetic of numpy.  An int64 operation
    wraps around; [np.sqrt] converts its int64 argument to float64 and takes
    the correctly rounded square root (IEEE 754 binary64, as [SpecFloat] of
    the standard library specifies it); [astype('int')] truncates toward
    zero and raises on NaN and the infinities. *)
Module Np.

Definition int64 (z : Z) : Z := (z + 2 ^ 63) mod 2 ^ 64 - 2 ^ 63.

Definition float64 : Type := SpecFloat.spec_float.

(** int64 to float64, rounding to nearest even. *)
Definition of_int64 (z : Z) : float64 :=
  SpecFloat.binary_normalize 53 1024 z 0 false.

Definition sqrt (x : float64) : float64 := SpecFloat.SFsqrt 53 1024 x.

(** [series.astype('int')] on a float64 cell.  A value outside int64
    converts to the smallest int64. *)
Definition astype_int (x : float64) : result Z :=
  match x with
  | SpecFloat.S754_zero _ => Ok 0
  | SpecFloat.S754_finite s m e =>
      let z := SpecFloat.cond_Zopp s
                 (if e <? 0 then Z.shiftr (Zpos m) (- e)
                  else Z.shiftl (Zpos m) e) in
      Ok (if (- 2 ^ 63 <=? z) && (z <? 2 ^ 63) then z else - 2 ^ 63)
  | _ => Raise (ValueError
                  "Cannot convert non-finite values (NA or inf) to integer")
  end.

End Np.

(** The square of the distance from a point to a location. *)
Definition squared_distance (p : point) (l : location) : Z :=
  (pNorth p - North l) ^ 2 + (pEast p - East l) ^ 2.

(** Lines 133-135 for one location, on int64 coordinates. *)
Definition np_distance (p : point) (l : location) : result Z :=
  let dN := Np.int64 (pNorth p - North l) in
  let dE := Np.int64 (pEast p - East l) in
  Np.astype_int
    (Np.sqrt (Np.of_int64 (Np.int64 (Np.int64 (dN * dN) + Np.int64 (dE * dE))))).

Definition assign_distance (p : point) (rows : list row) : list row :=
  map (fun r => (euclid p (snd r), snd r)) rows.

(** [popLocations.sort_values('Distance', inplace=True)].  numpy's default
    sort falls back to insertion sort on short arrays; the model is an
    insertion sort that keeps rows of equal distance in their current
    order. *)
Fixpoint insert_row (r : row) (l : list row) : list row :=
  match l with
  | [] => [r]
  | x :: l' =>
      if Distance r <=? Distance x then r :: l else x :: insert_row r l'
  end.

Definition sort_values (rows : list row) : list row :=
  fold_right insert_row [] rows.

(** The rows are in ascending order of distance. *)
Definition ascending (rows : list row) : Prop :=
  StronglySorted (fun a b => Distance a <= Distance b) rows.

(** ** RadiusSolver: lines 145-165 *)

(** The [while] loop of line 153.  [unread] is the part of the population
    column from position [index] on: [iloc[index]] is its head, and reading
    past its end is the out-of-bounds error of [iloc]. *)
Fixpoint while_population (unread : list Q) (kValue : Z) (population : Q)
  (index : Z) : result (Q * Z * list Q) :=
  if Qltb population (inject_Z kValue) then
    match unread with
    | [] => Raise out_of_bounds
    | p :: unread' =>
        while_population unread' kValue (population + p)%Q (index + 1)
    end
  else Ok (population, index, unread).

(** The same loop on an int64 column: the accumulator wraps around. *)
Fixpoint while_population_int64 (unread : list Z) (kValue : Z)
  (population : Z) (index : Z) : result (Z * Z * list Z) :=
  if population <? kValue then
    match unread with
    | [] => Raise out_of_bounds
    | p :: unread' =>
        while_population_int64 unread' kValue (Np.int64 (population + p))
          (index + 1)
    end
  else Ok (population, index, unread).

(** ** Aggregator: lines 172-219 *)

(** [np.average(a, weights=wgt)] *)
Definition np_average (a wgt : list Q) : result Q :=
  let scl := Qsum wgt in
  if Qeq_bool scl 0 then
    Raise (ZeroDivisionError "Weights sum to zero, can't be normalized")
  else Ok (Qsum (map (fun aw => fst aw * snd aw)%Q (combine a wgt)) / scl)%Q.

(** [math.sqrt(variance)] *)
Definition math_sqrt (x : Q) : result value :=
  if Qltb x 0 then Raise (ValueError "math domain error") else Ok (VSqrt x).

(** The [else] branches of lines 181-192 and 199-209. *)
Definition weighted (selection : list row) (group pop_Column : string)
  : result (Q * value) :=
  average <- np_average (column group selection) (column pop_Column selection) ;;
  variance <- np_average
                (map (fun x => (x - average) ^ 2)%Q (column group selection))
                (column pop_Column selection) ;;
  std <- math_sqrt variance ;;
  Ok (average, std).

(** The statistic of one group over a selection, written twice in the
    source: lines 177-192 (one population column per group) and 195-209
    (one population column for all groups). *)
Definition statistic (flag : bool) (selection : list row)
  (group pop_Column : string) (kValue : Z) (res : dict) : result dict :=
  if flag then
    Ok (dict_set ("group_" ++ group ++ "_k" ++ str kValue)
          (VNum (Qsum (column group selection))) res)
  else
    '(average, std) <- weighted selection group pop_Column ;;
    Ok (dict_set ("std_" ++ group ++ "_k" ++ str kValue) std
          (dict_set ("mean_" ++ group ++ "_k" ++ str kValue)
             (VNum average) res)).

Section Measure.

(** The locals of [geocontext] that the loops over one point read. *)
Variable multi : bool.
Variable groups : list string.
Variable proportions : list bool.
Variable kValues : list Z.
Variable popLocations : list row.

Definition radius_key (groupIndex : nat) (kValue : Z) : result string :=
  if multi then
    g <- getitem groups groupIndex ;;
    Ok ("radius_" ++ g ++ "_k" ++ str kValue)
  else Ok ("radius_k" ++ str kValue).

(** The loop of line 150, from the k-value [ks] on. *)
Fixpoint for_kValue (pop_Column : string) (groupIndex : nat) (ks : list Z)
  (population : Q) (index : Z) (unread : list Q)
  (radius_List : list Z) (res : dict) : result (list Z * dict) :=
  match ks with
  | [] => Ok (radius_List, res)
  | kValue :: ks' =>
      '(population, index, unread) <-
          while_population unread kValue population index ;;
      radius <- iloc (map Distance popLocations) (index - 1) ;;
      key <- radius_key groupIndex kValue ;;
      for_kValue pop_Column groupIndex ks' population index unread
        (radius_List ++ [radius])%list (dict_set key (VInt radius) res)
  end.

(** The loop of line 194 (single-population mode). *)
Fixpoint for_group (selection : list row) (pop_Column : string)
  (groupIndex : nat) (kValue : Z) (gs : list string) (res : dict)
  : result dict :=
  match gs with
  | [] => Ok res
  | group :: gs' =>
      flag <- getitem proportions groupIndex ;;
      res <- statistic flag selection group pop_Column kValue res ;;
      for_group selection pop_Column groupIndex kValue gs' res
  end.

(** Line 172. *)
Definition select (radius : Z) : list row :=
  filter (fun r => Distance r <=? radius) popLocations.

(** The loop of line 169, over the indices [idxs]. *)
Fixpoint for_k_Index (pop_Column : string) (groupIndex : nat)
  (radius_List : list Z) (idxs : list nat) (res : dict) : result dict :=
  match idxs with
  | [] => Ok res
  | k_Index :: idxs' =>
      radius <- getitem radius_List k_Index ;;
      let selection := select radius in
      kValue <- getitem kValues k_Index ;;
      res <-
        (if multi then
           flag <- getitem proportions groupIndex ;;
           group <- getitem groups groupIndex ;;
           statistic flag selection group pop_Column kValue res
         else for_group selection pop_Column groupIndex kValue groups res) ;;
      total_key <-
        (if multi then
           group <- getitem groups groupIndex ;;
           Ok ("total_" ++ group ++ "_k" ++ str kValue)
         else Ok ("total_k" ++ str kValue)) ;;
      for_k_Index pop_Column groupIndex radius_List idxs'
        (dict_set total_key (VNum (Qsum (column pop_Column selection))) res)
  end.

(** The loop of line 142, from the population column [pops] on. *)
Fixpoint for_pop_Column (pops : list string) (groupIndex : nat)
  (res : dict) : result dict :=
  match pops with
  | [] => Ok res
  | pop_Column :: pops' =>
      '(radius_List, res) <-
          for_kValue pop_Column groupIndex kValues 0%Q 0
            (column pop_Column popLocations) [] res ;;
      res <- for_k_Index pop_Column groupIndex radius_List
               (seq 0 (List.length kValues)) res ;;
      for_pop_Column pops' (S groupIndex) res
  end.

End Measure.

(** ** ContextTableBuilder: lines 121-129, 222-243 *)

(** The output table: the points, each with its added columns. *)
Definition table : Type := list (point * dict).

(** [points[key]] on the added columns: the column exists when some row of
    [results] had the key; a row without it holds NaN. *)
Definition table_column (key : string) (t : table) : result (list value) :=
  if existsb (fun r => match dict_get key (snd r) with
                       | Some _ => true
                       | None => false
                       end) t
  then Ok (map (fun r => match dict_get key (snd r) with
                         | Some v => v
                         | None => VNaN
                         end) t)
  else Raise (KeyError key).

(** [points[key] = values] *)
Definition table_assign (key : string) (values : list value) (t : table)
  : table :=
  map (fun rv => (fst (fst rv), dict_set key (snd rv) (snd (fst rv))))
      (combine t values).

Definition as_Q (v : value) : option Q :=
  match v with
  | VInt z => Some (inject_Z z)
  | VNum q => Some q
  | _ => None
  end.

(** Element-wise [/] of two columns: a zero divisor gives an infinity or
    NaN, never an exception.  A quotient with a symbolic square root or a
    non-finite operand is outside the rational model and is read as NaN. *)
Definition divide (a b : value) : value :=
  match as_Q a, as_Q b with
  | Some x, Some y =>
      if Qeq_bool y 0 then
        if Qeq_bool x 0 then VNaN
        else if Qltb 0 x then VInf else VNegInf
      else VNum (x / y)
  | _, _ => VNaN
  end.

(** The loop of line 231. *)
Fixpoint finish_group (multi : bool) (proportions : list bool) (kValue : Z)
  (gs : list string) (groupIndex : nat) (points : table) : result table :=
  match gs with
  | [] => Ok points
  | group :: gs' =>
      flag <- getitem proportions groupIndex ;;
      points <-
        (if flag : bool then
           num <- table_column ("group_" ++ group ++ "_k" ++ str kValue) points ;;
           den <- table_column
                    (if multi then "total_" ++ group ++ "_k" ++ str kValue
                     else "total_k" ++ str kValue) points ;;
           Ok (table_assign ("mean_" ++ group ++ "_k" ++ str kValue)
                 (map (fun nd => divide (fst nd) (snd nd)) (combine num den))
                 points)
         else Ok points) ;;
      finish_group multi proportions kValue gs' (S groupIndex) points
  end.

(** The loop of line 229. *)
Fixpoint finish (multi : bool) (groups : list string)
  (proportions : list bool) (ks : list Z) (points : table) : result table :=
  match ks with
  | [] => Ok points
  | kValue :: ks' =>
      points <- finish_group multi proportions kValue groups 0%nat points ;;
      finish multi groups proportions ks' points
  end.

(** The loop of line 128: the rows of [popLocations] are re-annotated and
    re-sorted in place for every point, so the table is threaded through. *)
Fixpoint for_point (multi : bool) (groups populations : list string)
  (proportions : list bool) (kValues : list Z) (points : list point)
  (popLocations : list row) (results : list dict)
  : list row * result (list dict) :=
  match points with
  | [] => (popLocations, Ok results)
  | point :: points' =>
      let popLocations := sort_values (assign_distance point popLocations) in
      match for_pop_Column multi groups proportions kValues popLocations
              populations 0%nat [] with
      | Raise e => (popLocations, Raise e)
      | Ok res =>
          for_point multi groups populations proportions kValues points'
            popLocations (results ++ [res])%list
      end
  end.

(** Lines 98-113. *)
Definition check_format (groups populations : object string)
  (kValues : object Z) : result (bool * list string * list string * list Z) :=
  match groups with
  | PyList groups =>
      match populations with
      | PyList populations =>
          multi <-
            (if (List.length populations =? 1)%nat then Ok false
             else if negb (List.length groups =? List.length populations)%nat
                  then Raise (IndexError
                         "populations need to have the same length as groups")
                  else Ok true) ;;
          match kValues with
          | PyList kValues => Ok (multi, groups, populations, kValues)
          | _ => Raise (TypeError "kValues need to be a list with k-values")
          end
      | _ => Raise (TypeError
               "populations need to be a column name or a list with column names")
      end
  | _ => Raise (TypeError "groups need to be a list with column names")
  end.

(** [geocontext]: what the call leaves in the caller's [popLocations], and
    what it returns or raises.  [pd.DataFrame(results).set_index] raises on
    an empty [results], which has no ['pointIndex'] column. *)
Definition geocontext (points : list point) (popLocations : frame)
  (groups populations : object string) (proportions : list bool)
  (kValues : object Z) : frame * result table :=
  match check_format groups populations kValues with
  | Raise e => (popLocations, Raise e)
  | Ok (multi, groups, populations, kValues) =>
      let kValues := sort kValues in
      let '(popLocations, results) :=
        for_point multi groups populations proportions kValues points
          (assign_zero popLocations) [] in
      (WithDistance popLocations,
       results <- results ;;
       match results with
       | [] => Raise (KeyError "None of ['pointIndex'] are in the columns")
       | _ => finish multi groups proportions kValues (combine points results)
       end)
  end.

(** ** The configuration errors as the specification words them *)

Definition is_list {A : Type} (o : object A) : bool :=
  match o with
  | PyList _ => true
  | _ => false
  end.

(** Section 7 of the specification: the group list is not a list; the
    population specification is neither a single name nor a list; more than
    one population column is given and their number differs from the number
    of groups; the k-values are not a list. *)
Definition spec_invalid_configuration (groups populations : object string)
  (kValues : object Z) : Prop :=
  is_list groups = false
  \/ populations = PyOther
  \/ (exists gs ps, groups = PyList gs /\ populations = PyList ps
                    /\ (1 < List.length ps)%nat
                    /\ List.length ps <> List.length gs)
  \/ is_list kValues = false.

(** What lines 98-113 test, for a population specification that is not a
    bare string. *)
Definition invalid_configuration (groups populations : object string)
  (kValues : object Z) : Prop :=
  is_list groups = false
  \/ populations = PyOther
  \/ (exists gs ps, groups = PyList gs /\ populations = PyList ps
                    /\ List.length ps <> 1%nat
                    /\ List.length ps <> List.length gs)
  \/ is_list kValues = false.

(** The four exceptions of lines 98-113. *)
Definition configuration_error (e : exn) : Prop :=
  e = TypeError "groups need to be a list with column names"
  \/ e = TypeError
           "populations need to be a column name or a list with column names"
  \/ e = IndexError "populations need to have the same length as groups"
  \/ e = TypeError "kValues need to be a list with k-values".

(** Section 4.1 of the specification: the ordering of the reference
    locations for a point, ascending in distance, locations of equal
    distance in the order of the reference dataset.  ([sort_values] keeps
    rows of equal distance in the order of its argument.) *)
Definition spec_ordering (reference : list location) (p : point) : list row :=
  sort_values (assign_distance p (assign_zero (Plain reference))).

(** The exceptions that the computation after the format check can raise:
    from [iloc], from indexing a list, from [np.average], from [math.sqrt]
    and from a column lookup. *)
Definition runtime_error (e : exn) : Prop :=
  e = out_of_bounds
  \/ e = IndexError "list index out of range"
  \/ (exists msg, e = ZeroDivisionError msg)
  \/ (exists msg, e = ValueError msg)
  \/ (exists key, e = KeyError key).

(** The radius as the introduction of the notebook defines it (lines
    14-18): the population within distance [radius] is at least [k], and
    [radius] is the smallest distance for which that holds. *)
Definition within (popLocations : list row) (pop_Column : string)
  (radius : Z) : Q :=
  Qsum (column pop_Column (select popLocations radius)).

Definition smallest_radius (popLocations : list row) (pop_Column : string)
  (k radius : Z) : Prop :=
  (inject_Z k <= within popLocations pop_Column radius)%Q
  /\ forall d, d < radius ->
       (within popLocations pop_Column d < inject_Z k)%Q.

(** Populations are counts: no row has a negative one. *)
Definition counts (pop_Column : string) (popLocations : list row) : Prop :=
  Forall (fun r => 0 <= cells (snd r) pop_Column)%Q popLocations.

(** The populations are whole numbers, none negative, and their total is
    below 2^53: the sums that the code takes over the column, in int64 or
    in float64, are exact. *)
Definition whole (pop_Column : string) (popLocations : list row) : Prop :=
  Forall (fun r => exists n : Z,
            0 <= n /\ (cells (snd r) pop_Column == inject_Z n)%Q)
    popLocations
  /\ (Qsum (column pop_Column popLocations) < inject_Z (2 ^ 53))%Q.

(** The names of the added columns, as the f-strings of lines 163-238
    build them. *)
Definition group_name (group : string) (kValue : Z) : string :=
  "group_" ++ group ++ "_k" ++ str kValue.
Definition mean_name (group : string) (kValue : Z) : string :=
  "mean_" ++ group ++ "_k" ++ str kValue.
Definition std_name (group : string) (kValue : Z) : string :=
  "std_" ++ group ++ "_k" ++ str kValue.
Definition total_name (multi : bool) (group : string) (kValue : Z) : string :=
  if multi then "total_" ++ group ++ "_k" ++ str kValue
  else "total_k" ++ str kValue.

(** The cell of a row of the output table in an added column; a row that
    lacks the column holds NaN. *)
Definition cell (key : string) (r : point * dict) : value :=
  match dict_get key (snd r) with
  | Some v => v
  | None => VNaN
  end.

(** The dictionary has the key. *)
Definition has (key : string) (d : dict) : Prop := dict_get key d <> None.

(** What the pass over a point stores for the measure at [groupIndex] and
    the k-value [k]: the total, and the sums when the flag at [groupIndex]
    is true (of the group of the measure with one population column per
    group, of every group with one population column for all). *)
Definition measure_stored (multi : bool) (groups : list string)
  (proportions : list bool) (groupIndex : nat) (k : Z) (d : dict) : Prop :=
  if multi then
    forall g, nth_error groups groupIndex = Some g ->
      has (total_name true g k) d
      /\ (nth_error proportions groupIndex = Some true ->
          has (group_name g k) d)
  else
    has ("total_k" ++ str k) d
    /\ (nth_error proportions groupIndex = Some true ->
        forall g, In g groups -> has (group_name g k) d).

(** The columns that the finishing pass reads: for every group whose flag
    is true and every k-value, the sum of the group and its total. *)
Definition stored (multi : bool) (groups : list string)
  (proportions : list bool) (ks : list Z) (d : dict) : Prop :=
  forall i group k,
    nth_error groups i = Some group ->
    nth_error proportions i = Some true ->
    In k ks ->
    has (group_name group k) d /\ has (total_name multi group k) d.

(** The dictionary holds no sum of a group. *)
Definition no_sums (d : dict) : Prop :=
  forall g k, dict_get (group_name g k) d = None.

(** The string has no underscore. *)
Definition no_underscore (s : string) : Prop :=
  forall x y : string, s <> x ++ String "_" y.

(** The proportion of a group in a row of the output table: the sum of the
    group divided by its total (line 234 or 237). *)
Definition quotient (multi : bool) (group : string) (kValue : Z)
  (r : point * dict) : value :=
  divide (cell (group_name group kValue) r)
         (cell (total_name multi group kValue) r).

(** A change of a row that writes nothing but proportions under [mean_]
    names. *)
Definition writes_means (multi : bool) (F : point * dict -> point * dict)
  : Prop :=
  forall r,
    fst (F r) = fst r
    /\ forall key,
        dict_get key (snd (F r)) = dict_get key (snd r)
        \/ exists g k,
            key = mean_name g k
            /\ dict_get key (snd (F r)) = Some (quotient multi g k r).

(** After the change the key holds a proportion written under it. *)
Definition holds_mean (multi : bool) (F : point * dict -> point * dict)
  (key : string) : Prop :=
  forall r,
    exists g k,
      key = mean_name g k
      /\ dict_get key (snd (F r)) = Some (quotient multi g k r).

(** ** Example data *)

Module Examples.

(** A location with a population column ['Pop'] and two group columns
    ['G'] and ['H']. *)
Definition place (north east : Z) (pop g h : Q) : location :=
  {| North := north; East := east;
     cells := fun c => if String.eqb c "Pop" then pop
                       else if String.eqb c "G" then g
                       else if String.eqb c "H" then h
                       else 0%Q |}.

Definition origin : point := {| pNorth := 0; pEast := 0 |}.

(** Distances 0, 5, 10 from [origin]; populations 2, 3, 5. *)
Definition near : location := place 0 0 2 1 (1 # 2).
Definition mid : location := place 3 4 3 1 (1 # 4).
Definition far : location := place 0 10 5 2 (3 # 4).
Definition three : list location := [near; mid; far].

(** Distances 0, 5, 5 from [origin]: two locations tied at the boundary. *)
Definition tied : list location := [near; mid; place 5 0 5 2 (3 # 4)].

(** Two locations at equal distance from [halfway], at distances 10 and 0
    from [origin]. *)
Definition halfway : point := {| pNorth := 0; pEast := 5 |}.
Definition pair_far_near : list location := [far; near].

(** The reference table as the point [origin] sees it. *)
Definition three_from_origin : list row :=
  sort_values (assign_distance origin (assign_zero (Plain three))).
Definition tied_from_origin : list row :=
  sort_values (assign_distance origin (assign_zero (Plain tied))).

End Examples.

(** * Properties *)

(** ** Arithmetic and list facts *)

Lemma Qltb_lt (x y : Q) : Qltb x y = true <-> (x < y)%Q.
Proof.
  unfold Qltb. rewrite negb_true_iff, <- not_true_iff_false, Qle_bool_iff.
  split; [apply Qnot_le_lt | apply Qlt_not_le].
Qed.

Lemma Qltb_ge (x y : Q) : Qltb x y = false <-> (y <= x)%Q.
Proof.
  unfold Qltb. rewrite negb_false_iff. apply Qle_bool_iff.
Qed.

Lemma Qsum_app (l1 l2 : list Q) : (Qsum (l1 ++ l2) == Qsum l1 + Qsum l2)%Q.
Proof.
  induction l1 as [|x l1 IH].
  - simpl. ring.
  - change (x + Qsum (l1 ++ l2) == x + Qsum l1 + Qsum l2)%Q. rewrite IH. ring.
Qed.

Lemma Qsum_nonneg (l : list Q) :
  Forall (fun x => 0 <= x)%Q l -> (0 <= Qsum l)%Q.
Proof.
  induction 1 as [|x l Hx _ IH]; simpl.
  - apply Qle_refl.
  - change (0 <= x + Qsum l)%Q. cbv beta in Hx. lra.
Qed.

Lemma Qsum_perm (l1 l2 : list Q) :
  Permutation l1 l2 -> (Qsum l1 == Qsum l2)%Q.
Proof.
  induction 1 as [|x l1 l2 _ IH|x y l|l1 l2 l3 _ IH1 _ IH2].
  - reflexivity.
  - change (x + Qsum l1 == x + Qsum l2)%Q. rewrite IH. reflexivity.
  - change (y + (x + Qsum l) == x + (y + Qsum l))%Q. ring.
  - rewrite IH1. exact IH2.
Qed.

(** ** Sorting *)

Lemma insert_row_perm (r : row) (l : list row) :
  Permutation (insert_row r l) (r :: l).
Proof.
  induction l as [|x l IH]; simpl.
  - apply Permutation_refl.
  - destruct (Distance r <=? Distance x).
    + apply Permutation_refl.
    + apply perm_trans with (x :: r :: l).
      * apply perm_skip. exact IH.
      * apply perm_swap.
Qed.

Lemma sort_values_perm (rows : list row) :
  Permutation (sort_values rows) rows.
Proof.
  induction rows as [|r rows IH]; simpl.
  - apply perm_nil.
  - apply perm_trans with (r :: sort_values rows).
    + apply insert_row_perm.
    + apply perm_skip. exact IH.
Qed.

Lemma insert_row_ascending (r : row) (l : list row) :
  ascending l -> ascending (insert_row r l).
Proof.
  unfold ascending. induction 1 as [|x l Hl IH Hx]; simpl.
  - constructor; [constructor | constructor].
  - destruct (Distance r <=? Distance x) eqn:E.
    + apply Z.leb_le in E. constructor.
      * constructor; assumption.
      * constructor; [exact E|].
        eapply Forall_impl; [|exact Hx]. simpl. intros; lia.
    + apply Z.leb_gt in E. constructor; [exact IH|].
      eapply Permutation_Forall.
      * apply Permutation_sym, insert_row_perm.
      * constructor; [lia | exact Hx].
Qed.

Lemma sort_values_ascending (rows : list row) : ascending (sort_values rows).
Proof.
  induction rows as [|r rows IH]; simpl.
  - constructor.
  - apply insert_row_ascending. exact IH.
Qed.

Lemma assign_distance_locations (p : point) (rows : list row) :
  map snd (assign_distance p rows) = map snd rows.
Proof.
  unfold assign_distance. rewrite map_map. reflexivity.
Qed.

Lemma index_locations (p : point) (rows : list row) :
  Permutation (map snd (sort_values (assign_distance p rows))) (map snd rows).
Proof.
  rewrite <- (assign_distance_locations p rows).
  apply Permutation_map, sort_values_perm.
Qed.

Lemma insert_int_perm (k : Z) (l : list Z) :
  Permutation (insert_int k l) (k :: l).
Proof.
  induction l as [|x l IH]; simpl.
  - apply Permutation_refl.
  - destruct (k <=? x).
    + apply Permutation_refl.
    + apply perm_trans with (x :: k :: l);
        [apply perm_skip; exact IH | apply perm_swap].
Qed.

Lemma sort_perm (l : list Z) : Permutation (sort l) l.
Proof.
  induction l as [|k l IH]; simpl.
  - apply perm_nil.
  - apply perm_trans with (k :: sort l);
      [apply insert_int_perm | apply perm_skip; exact IH].
Qed.

Lemma insert_int_sorted (k : Z) (l : list Z) :
  StronglySorted Z.le l -> StronglySorted Z.le (insert_int k l).
Proof.
  induction 1 as [|x l Hl IH Hx]; simpl.
  - constructor; [constructor | constructor].
  - destruct (k <=? x) eqn:E.
    + apply Z.leb_le in E. constructor.
      * constructor; assumption.
      * constructor; [exact E|].
        eapply Forall_impl; [|exact Hx]. simpl. intros; lia.
    + apply Z.leb_gt in E. constructor; [exact IH|].
      eapply Permutation_Forall.
      * apply Permutation_sym, insert_int_perm.
      * constructor; [lia | exact Hx].
Qed.

(** Line 117 leaves the k-values in ascending order. *)
Lemma sort_sorted (l : list Z) : StronglySorted Z.le (sort l).
Proof.
  induction l as [|k l IH]; simpl.
  - constructor.
  - apply insert_int_sorted. exact IH.
Qed.

(** ** The threshold walk *)

Lemma while_population_eq (unread : list Q) (kValue : Z) (population : Q)
  (index : Z) :
  while_population unread kValue population index =
  if Qltb population (inject_Z kValue) then
    match unread with
    | [] => Raise out_of_bounds
    | p :: unread' =>
        while_population unread' kValue (population + p)%Q (index + 1)
    end
  else Ok (population, index, unread).
Proof.
  destruct unread; reflexivity.
Qed.

(** What one run of the [while] loop does: it reads a prefix [consumed] of
    the unread column, adding it to the accumulator, and stops at the first
    position where the accumulator is no longer below [kValue]. *)
Lemma while_population_spec (unread : list Q) (kValue : Z) :
  forall (population : Q) (index : Z) population' index' unread',
    while_population unread kValue population index
    = Ok (population', index', unread') ->
    exists consumed,
      unread = (consumed ++ unread')%list
      /\ index' = index + Z.of_nat (List.length consumed)
      /\ population' = fold_left Qplus consumed population
      /\ (inject_Z kValue <= population')%Q
      /\ forall n, (n < List.length consumed)%nat ->
           (fold_left Qplus (firstn n consumed) population
            < inject_Z kValue)%Q.
Proof.
  induction unread as [|p unread IH]; intros population index population'
    index' unread' H; rewrite while_population_eq in H;
    destruct (Qltb population (inject_Z kValue)) eqn:E;
    try discriminate.
  - injection H as <- <- <-. exists []. simpl.
    split; [reflexivity|]. split; [lia|]. split; [reflexivity|].
    split; [apply Qltb_ge; exact E|]. intros n Hn. lia.
  - apply IH in H. destruct H as (consumed & -> & -> & -> & Hk & Hlt).
    exists (p :: consumed). simpl.
    split; [reflexivity|]. split; [lia|]. split; [reflexivity|].
    split; [exact Hk|].
    intros [|n] Hn; simpl.
    + apply Qltb_lt. exact E.
    + apply Hlt. lia.
  - injection H as <- <- <-. exists []. simpl.
    split; [reflexivity|]. split; [lia|]. split; [reflexivity|].
    split; [apply Qltb_ge; exact E|]. intros n Hn. lia.
Qed.

Lemma column_split (c : string) (rows : list row) (l1 l2 : list Q) :
  column c rows = (l1 ++ l2)%list ->
  exists r1 r2, rows = (r1 ++ r2)%list /\ l1 = column c r1 /\ l2 = column c r2.
Proof.
  revert l1. induction rows as [|r rows IH]; intros [|x l1] H; simpl in H.
  - exists [], []. subst. repeat split.
  - discriminate.
  - exists [], (r :: rows). subst. repeat split.
  - injection H as Hx H. apply IH in H. destruct H as (r1 & r2 & -> & -> & ->).
    exists (r :: r1), r2. subst. repeat split.
Qed.

Lemma iloc_nonneg {A : Type} (l : list A) (i : nat) :
  iloc l (Z.of_nat i) =
  match nth_error l i with
  | Some x => Ok x
  | None => Raise out_of_bounds
  end.
Proof.
  unfold iloc.
  destruct (Z.of_nat i <? 0) eqn:E; [apply Z.ltb_lt in E; lia|].
  rewrite E, Nat2Z.id. reflexivity.
Qed.

(** The head of the unread part of a column is what [iloc[index]] reads
    when [index] rows have been read, and [iloc[index]] raises when nothing
    is left: the match on [unread] in [while_population] is line 155. *)
Lemma unread_is_iloc {A : Type} (done unread : list A) :
  iloc (done ++ unread) (Z.of_nat (List.length done)) =
  match unread with
  | [] => Raise out_of_bounds
  | p :: _ => Ok p
  end.
Proof.
  rewrite iloc_nonneg, nth_error_app2 by lia.
  rewrite Nat.sub_diag. destruct unread; reflexivity.
Qed.

(** Position [length l] of [l ++ x :: l'] holds [x]. *)
Lemma iloc_middle {A : Type} (l l' : list A) (x : A) :
  iloc (l ++ x :: l') (Z.of_nat (List.length (l ++ [x])) - 1) = Ok x.
Proof.
  rewrite length_app. simpl.
  replace (Z.of_nat (List.length l + 1) - 1) with (Z.of_nat (List.length l))
    by lia.
  rewrite iloc_nonneg, nth_error_app2 by lia.
  rewrite Nat.sub_diag. reflexivity.
Qed.

(** Position [-1] is the last position. *)
Lemma iloc_minus_one {A : Type} (l : list A) (x : A) :
  iloc (l ++ [x]) (0 - 1) = Ok x.
Proof.
  unfold iloc. change (0 - 1 <? 0) with true. cbv iota.
  rewrite length_app. simpl List.length.
  replace (0 - 1 + Z.of_nat (List.length l + 1))
    with (Z.of_nat (List.length l)) by lia.
  destruct (Z.of_nat (List.length l) <? 0) eqn:E;
    [apply Z.ltb_lt in E; lia|].
  rewrite Nat2Z.id, nth_error_app2 by lia.
  rewrite Nat.sub_diag. reflexivity.
Qed.

Lemma iloc_In {A : Type} (l : list A) (i : Z) (x : A) :
  iloc l i = Ok x -> In x l.
Proof.
  unfold iloc.
  destruct ((if i <? 0 then i + Z.of_nat (List.length l) else i) <? 0);
    [discriminate|].
  destruct (nth_error l _) eqn:E; [|discriminate].
  intros [= <-]. eapply nth_error_In. exact E.
Qed.

Lemma bind_Ok {A B : Type} (c : result A) (k : A -> result B) (b : B) :
  bind c k = Ok b -> exists a, c = Ok a /\ k a = Ok b.
Proof.
  destruct c as [a|e]; simpl; [|discriminate].
  intros H. exists a. split; [reflexivity | exact H].
Qed.

(** Inversion of one iteration of the loop over the k-values. *)
Lemma for_kValue_cons multi groups popLocations pop_Column groupIndex
  kValue ks population index unread radius_List res out :
  for_kValue multi groups popLocations pop_Column groupIndex (kValue :: ks)
    population index unread radius_List res = Ok out ->
  exists population' index' unread' radius key,
    while_population unread kValue population index
    = Ok (population', index', unread')
    /\ iloc (map Distance popLocations) (index' - 1) = Ok radius
    /\ radius_key multi groups groupIndex kValue = Ok key
    /\ for_kValue multi groups popLocations pop_Column groupIndex ks
         population' index' unread' (radius_List ++ [radius])%list
         (dict_set key (VInt radius) res) = Ok out.
Proof.
  simpl. intros H.
  apply bind_Ok in H. destruct H as ([[population' index'] unread'] & Hw & H).
  apply bind_Ok in H. destruct H as (radius & Hr & H).
  apply bind_Ok in H. destruct H as (key & Hk & H).
  exists population', index', unread', radius, key. tauto.
Qed.

(** The run of the [while] loop in terms of the rows of the table: entered
    with the pointer after [done], it reads the rows [consumed]. *)
Lemma while_population_rows pop_Column (done todo : list row) kValue
  population population' index' unread' :
  while_population (column pop_Column todo) kValue population
    (Z.of_nat (List.length done)) = Ok (population', index', unread') ->
  exists consumed todo',
    todo = (consumed ++ todo')%list
    /\ unread' = column pop_Column todo'
    /\ index' = Z.of_nat (List.length (done ++ consumed))
    /\ population' = fold_left Qplus (column pop_Column consumed) population
    /\ (inject_Z kValue <= population')%Q
    /\ (forall n, (n < List.length consumed)%nat ->
          (fold_left Qplus (firstn n (column pop_Column consumed))
             population < inject_Z kValue)%Q)
    /\ (forall before r, (done ++ consumed = before ++ [r])%list ->
          iloc (map Distance (done ++ todo)) (index' - 1) = Ok (Distance r)).
Proof.
  intros H.
  apply while_population_spec in H.
  destruct H as (consumed & Hsplit & Hindex & Hpop & Hk & Hlt).
  apply column_split in Hsplit.
  destruct Hsplit as (rows1 & todo' & -> & -> & ->).
  exists rows1, todo'.
  assert (Hlen : List.length (column pop_Column rows1) = List.length rows1)
    by apply length_map.
  split; [reflexivity|]. split; [reflexivity|].
  split; [rewrite length_app; lia|].
  split; [exact Hpop|]. split; [exact Hk|].
  split; [intros n Hn; apply Hlt; lia|].
  intros before r Hlast.
  rewrite app_assoc, Hlast, <- app_assoc, map_app. simpl.
  replace (index' - 1)
    with (Z.of_nat (List.length (map Distance before ++ [Distance r])) - 1).
  - apply iloc_middle.
  - rewrite Hindex, Hlen, length_app, length_map. simpl.
    apply (f_equal (@List.length row)) in Hlast.
    rewrite !length_app in Hlast. simpl in Hlast. lia.
Qed.

(** C2: the radius search is the threshold walk.  One run of the [while]
    loop, entered with the pointer after the rows [done], reads the rows
    [consumed] in table order, adds their populations to the accumulator
    while it is below k, and the radius read at [index - 1] is the distance
    of the row consumed last; the loop over the k-values passes accumulator
    and pointer on from one k to the next, and starts them at 0.  For
    distances 0, 5, 10 with populations 2, 3, 5 and k = 4 the radius is 5,
    the selection is the first two rows and the total is 5. *)
Theorem C2_radius_solver_walk :
  (forall pop_Column (done todo : list row) kValue population population'
          index' unread',
      while_population (column pop_Column todo) kValue population
        (Z.of_nat (List.length done)) = Ok (population', index', unread') ->
      exists consumed todo',
        todo = (consumed ++ todo')%list
        /\ unread' = column pop_Column todo'
        /\ index' = Z.of_nat (List.length (done ++ consumed))
        /\ population'
           = fold_left Qplus (column pop_Column consumed) population
        /\ (inject_Z kValue <= population')%Q
        /\ (forall n, (n < List.length consumed)%nat ->
              (fold_left Qplus (firstn n (column pop_Column consumed))
                 population < inject_Z kValue)%Q)
        /\ (forall before r, (done ++ consumed = before ++ [r])%list ->
              iloc (map Distance (done ++ todo)) (index' - 1)
              = Ok (Distance r)))
  /\ (forall multi groups popLocations pop_Column groupIndex kValue ks
             population index unread radius_List res out,
      for_kValue multi groups popLocations pop_Column groupIndex
        (kValue :: ks) population index unread radius_List res = Ok out ->
      exists population' index' unread' radius key,
        while_population unread kValue population index
        = Ok (population', index', unread')
        /\ iloc (map Distance popLocations) (index' - 1) = Ok radius
        /\ radius_key multi groups groupIndex kValue = Ok key
        /\ for_kValue multi groups popLocations pop_Column groupIndex ks
             population' index' unread' (radius_List ++ [radius])%list
             (dict_set key (VInt radius) res) = Ok out)
  /\ (forall multi groups proportions kValues popLocations pop_Column pops
             groupIndex res out,
      for_pop_Column multi groups proportions kValues popLocations
        (pop_Column :: pops) groupIndex res = Ok out ->
      exists radius_List res',
        for_kValue multi groups popLocations pop_Column groupIndex kValues
          0%Q 0 (column pop_Column popLocations) [] res
        = Ok (radius_List, res'))
  /\ (map Distance Examples.three_from_origin = [0; 5; 10]
      /\ column "Pop" Examples.three_from_origin = [2; 3; 5]%Q
      /\ for_kValue false ["G"] Examples.three_from_origin "Pop" 0 [4]
           0%Q 0 (column "Pop" Examples.three_from_origin) [] []
         = Ok ([5], [("radius_k4", VInt 5)])
      /\ select Examples.three_from_origin 5
         = firstn 2 Examples.three_from_origin
      /\ snd (geocontext [Examples.origin] (Plain Examples.three)
                (PyList ["G"]) (PyList ["Pop"]) [true] (PyList [4]))
         = Ok [(Examples.origin,
                [("radius_k4", VInt 5); ("group_G_k4", VNum 2);
                 ("total_k4", VNum 5); ("mean_G_k4", VNum (2 # 5))])]).
Proof.
  split; [|split; [|split]].
  - intros. eapply while_population_rows. eassumption.
  - intros. eapply for_kValue_cons. eassumption.
  - intros multi groups proportions kValues popLocations pop_Column pops
      groupIndex res out H.
    simpl in H. apply bind_Ok in H.
    destruct H as ([radius_List res'] & H & _).
    exists radius_List, res'. exact H.
  - repeat split; vm_compute; reflexivity.
Qed.

(** The first part of C2 at the example table, for k = 4 from the start. *)
Lemma C2_radius_solver_walk_witness :
  exists consumed todo',
    Examples.three_from_origin = (consumed ++ todo')%list
    /\ [5%Q] = column "Pop" todo'
    /\ 2 = Z.of_nat (List.length ([] ++ consumed))
    /\ (0 + 2 + 3)%Q = fold_left Qplus (column "Pop" consumed) 0%Q
    /\ (inject_Z 4 <= 0 + 2 + 3)%Q
    /\ (forall n, (n < List.length consumed)%nat ->
          (fold_left Qplus (firstn n (column "Pop" consumed)) 0
           < inject_Z 4)%Q)
    /\ (forall before r, ([] ++ consumed = before ++ [r])%list ->
          iloc (map Distance ([] ++ Examples.three_from_origin)) (2 - 1)
          = Ok (Distance r)).
Proof.
  exact (proj1 C2_radius_solver_walk "Pop" [] Examples.three_from_origin
           4 0%Q (0 + 2 + 3)%Q 2 [5%Q] eq_refl).
Defined.

(** ** The radii of one measure *)

Lemma ascending_after (before todo : list row) (d : row) :
  ascending (before ++ d :: todo) ->
  Forall (fun x => Distance d <= Distance x) todo.
Proof.
  unfold ascending. induction before as [|b before IH]; simpl; intros H.
  - inversion H; subst. assumption.
  - inversion H; subst. apply IH. assumption.
Qed.

(** The rows read so far, when at least the row [d] was read before the
    rows [consumed]: they end in a row at least as far as [d]. *)
Lemma read_rows_last (before todo' consumed : list row) (d : row) :
  ascending (before ++ d :: consumed ++ todo') ->
  exists before' d',
    ((before ++ [d]) ++ consumed = before' ++ [d'])%list
    /\ (before ++ d :: consumed ++ todo' = before' ++ d' :: todo')%list
    /\ Distance d <= Distance d'.
Proof.
  intros Hasc.
  destruct (exists_last (l := d :: consumed)) as (l' & d' & Hl');
    [discriminate|].
  exists (before ++ l')%list, d'.
  split; [|split].
  - rewrite <- !app_assoc. simpl. rewrite Hl'. reflexivity.
  - change (d :: consumed ++ todo')%list
      with ((d :: consumed) ++ todo')%list.
    rewrite Hl', <- !app_assoc. reflexivity.
  - destruct l' as [|x l'].
    + injection Hl' as -> _. lia.
    + injection Hl' as <- Hc.
      apply ascending_after in Hasc.
      rewrite Forall_forall in Hasc. apply Hasc.
      rewrite Hc. apply in_or_app. left. apply in_or_app. right.
      left. reflexivity.
Qed.

(** Once a row has been read, the radii recorded from then on are
    ascending and not below the distance of that row. *)
Lemma for_kValue_monotone multi groups pop_Column groupIndex (ks : list Z) :
  forall (before todo : list row) (d : row) population radius_List res rl res',
    ascending (before ++ d :: todo) ->
    for_kValue multi groups (before ++ d :: todo) pop_Column groupIndex ks
      population (Z.of_nat (List.length (before ++ [d])))
      (column pop_Column todo) radius_List res = Ok (rl, res') ->
    exists radii,
      rl = (radius_List ++ radii)%list
      /\ StronglySorted Z.le radii
      /\ Forall (fun r => Distance d <= r) radii.
Proof.
  induction ks as [|kValue ks IH];
    intros before todo d population radius_List res rl res' Hasc H.
  - simpl in H. injection H as <- <-. exists [].
    rewrite app_nil_r. repeat constructor.
  - apply for_kValue_cons in H.
    destruct H as (population' & index' & unread' & radius & key
                   & Hw & Hr & _ & H).
    apply while_population_rows in Hw.
    destruct Hw as (consumed & todo' & -> & -> & -> & _ & _ & _ & Hlast).
    destruct (read_rows_last before todo' consumed d Hasc)
      as (before' & d' & Hread & Htable & Hle).
    specialize (Hlast before' d' Hread).
    replace ((before ++ [d]) ++ consumed ++ todo')%list
      with (before ++ d :: consumed ++ todo')%list in Hlast
      by (rewrite <- app_assoc; reflexivity).
    rewrite Hlast in Hr. injection Hr as <-.
    rewrite Hread, Htable in H. rewrite Htable in Hasc.
    apply IH in H; [|exact Hasc].
    destruct H as (radii & -> & Hsorted & Hlow).
    exists (Distance d' :: radii). split; [|split].
    + rewrite <- app_assoc. reflexivity.
    + constructor; assumption.
    + constructor; [exact Hle|].
      eapply Forall_impl; [|exact Hlow]. simpl. intros; lia.
Qed.

(** X3: when the first k-value of the walk is positive and the table is in
    ascending order of distance, the radii recorded for a measure are
    ascending in k. *)
Lemma radius_List_ascending multi groups popLocations pop_Column groupIndex
  (kValue : Z) (ks : list Z) res rl res' :
  ascending popLocations ->
  0 < kValue ->
  for_kValue multi groups popLocations pop_Column groupIndex (kValue :: ks)
    0%Q 0 (column pop_Column popLocations) [] res = Ok (rl, res') ->
  StronglySorted Z.le rl.
Proof.
  intros Hasc Hpos H.
  apply for_kValue_cons in H.
  destruct H as (population' & index' & unread' & radius & key
                 & Hw & Hr & _ & H).
  apply (while_population_rows pop_Column []) in Hw.
  destruct Hw as (consumed & todo' & -> & -> & -> & Hpop & Hk & _ & Hlast).
  destruct consumed as [|c consumed].
  - simpl in Hpop. subst population'.
    exfalso. apply (Qle_not_lt _ _ Hk).
    change 0%Q with (inject_Z 0). rewrite <- Zlt_Qlt. exact Hpos.
  - destruct (exists_last (l := c :: consumed)) as (before & d & Hl);
      [discriminate|].
    simpl app in *. rewrite (Hlast before d Hl) in Hr. injection Hr as <-.
    change (c :: consumed ++ todo')%list
      with ((c :: consumed) ++ todo')%list in *.
    rewrite Hl in *. rewrite <- app_assoc in *. simpl app in *.
    apply for_kValue_monotone in H; [|exact Hasc].
    destruct H as (radii & -> & Hsorted & Hlow).
    simpl. constructor; assumption.
Qed.

(** C3: the radii of a measure are not ascending in k when a k-value is
    not positive.  With the k-values 1 and 0 (sorted to 0, 1) and
    locations at distances 0, 5 and 10, the loop reads no row for k = 0,
    [iloc[-1]] gives the last distance 10, and k = 1 then gives 0. *)
Theorem C3_radius_not_monotone_for_k_zero :
  exists added,
    snd (geocontext [Examples.origin] (Plain Examples.three)
           (PyList ["G"]) (PyList ["Pop"]) [true] (PyList [1; 0]))
    = Ok [(Examples.origin, added)]
    /\ dict_get "radius_k0" added = Some (VInt 10)
    /\ dict_get "radius_k1" added = Some (VInt 0).
Proof.
  eexists. split; [vm_compute; reflexivity|].
  split; reflexivity.
Qed.

(** ** Selections *)

Lemma select_In (popLocations : list row) (radius : Z) (r : row) :
  In r (select popLocations radius)
  <-> In r popLocations /\ Distance r <= radius.
Proof.
  unfold select. rewrite filter_In, Z.leb_le. reflexivity.
Qed.

(** Inversion of one iteration of the loop of line 169. *)
Lemma for_k_Index_cons multi groups proportions kValues popLocations
  pop_Column groupIndex radius_List k_Index idxs res out :
  for_k_Index multi groups proportions kValues popLocations pop_Column
    groupIndex radius_List (k_Index :: idxs) res = Ok out ->
  exists radius kValue res' total_key,
    getitem radius_List k_Index = Ok radius
    /\ getitem kValues k_Index = Ok kValue
    /\ (if multi then
          flag <- getitem proportions groupIndex ;;
          group <- getitem groups groupIndex ;;
          statistic flag (select popLocations radius) group pop_Column
            kValue res
        else for_group proportions (select popLocations radius) pop_Column
               groupIndex kValue groups res) = Ok res'
    /\ for_k_Index multi groups proportions kValues popLocations pop_Column
         groupIndex radius_List idxs
         (dict_set total_key
            (VNum (Qsum (column pop_Column (select popLocations radius))))
            res') = Ok out.
Proof.
  simpl. intros H.
  apply bind_Ok in H. destruct H as (radius & Hr & H).
  apply bind_Ok in H. destruct H as (kValue & Hk & H).
  apply bind_Ok in H. destruct H as (res' & Hs & H).
  apply bind_Ok in H. destruct H as (total_key & _ & H).
  exists radius, kValue, res', total_key. tauto.
Qed.

(** C4: the selection of a k-value is the set of rows whose distance is at
    most the radius found for it: every iteration of the aggregation loop
    computes the statistics and the total over [select popLocations radius],
    whose members are exactly the rows at distance [<= radius], so every row
    tied at the boundary is in it.  With distances 0, 5, 5, populations
    2, 3, 5 and k = 4 the walk stops after two rows (population 5) and the
    selection has all three (total 10). *)
Theorem C4_selection_by_distance :
  (forall (popLocations : list row) (radius : Z) (r : row),
      In r (select popLocations radius)
      <-> In r popLocations /\ Distance r <= radius)
  /\ (forall (popLocations : list row) (radius : Z) (r tie : row),
        In r (select popLocations radius) -> In tie popLocations ->
        Distance tie = Distance r -> In tie (select popLocations radius))
  /\ (forall multi groups proportions kValues popLocations pop_Column
             groupIndex radius_List k_Index idxs res out,
        for_k_Index multi groups proportions kValues popLocations pop_Column
          groupIndex radius_List (k_Index :: idxs) res = Ok out ->
        exists radius kValue res' total_key,
          getitem radius_List k_Index = Ok radius
          /\ getitem kValues k_Index = Ok kValue
          /\ (if multi then
                flag <- getitem proportions groupIndex ;;
                group <- getitem groups groupIndex ;;
                statistic flag (select popLocations radius) group pop_Column
                  kValue res
              else for_group proportions (select popLocations radius)
                     pop_Column groupIndex kValue groups res) = Ok res'
          /\ for_k_Index multi groups proportions kValues popLocations
               pop_Column groupIndex radius_List idxs
               (dict_set total_key
                  (VNum (Qsum (column pop_Column
                                 (select popLocations radius))))
                  res') = Ok out)
  /\ (map Distance Examples.tied_from_origin = [0; 5; 5]
      /\ while_population (column "Pop" Examples.tied_from_origin) 4 0%Q 0
         = Ok (5%Q, 2, [5%Q])
      /\ for_kValue false ["G"] Examples.tied_from_origin "Pop" 0 [4]
           0%Q 0 (column "Pop" Examples.tied_from_origin) [] []
         = Ok ([5], [("radius_k4", VInt 5)])
      /\ select Examples.tied_from_origin 5 = Examples.tied_from_origin
      /\ snd (geocontext [Examples.origin] (Plain Examples.tied)
                (PyList ["G"]) (PyList ["Pop"]) [true] (PyList [4]))
         = Ok [(Examples.origin,
                [("radius_k4", VInt 5); ("group_G_k4", VNum 4);
                 ("total_k4", VNum 10); ("mean_G_k4", VNum (4 # 10))])]).
Proof.
  split; [|split; [|split]].
  - apply select_In.
  - intros popLocations radius r tie Hr Htie Heq.
    apply select_In in Hr. apply select_In. split; [exact Htie | lia].
  - intros. eapply for_k_Index_cons. eassumption.
  - repeat split; vm_compute; reflexivity.
Qed.

(** The tie clause of C4 at the example: the third row, tied with the
    second at distance 5, is selected. *)
Lemma C4_selection_by_distance_witness :
  In (5, Examples.place 5 0 5 2 (3 # 4))
     (select Examples.tied_from_origin 5).
Proof.
  apply (proj1 (proj2 C4_selection_by_distance) Examples.tied_from_origin 5
           (5, Examples.mid) (5, Examples.place 5 0 5 2 (3 # 4))).
  - right. left. reflexivity.
  - right. right. left. reflexivity.
  - reflexivity.
Defined.

(** ** The distance in the arithmetic of numpy *)

(** The number of binary digits of a mantissa. *)
Lemma digits2_size (p : positive) : SpecFloat.digits2_pos p = Pos.size p.
Proof. induction p; simpl; congruence. Qed.

Lemma digits2_bounds (p : positive) :
  2 ^ (Zpos (SpecFloat.digits2_pos p) - 1) <= Zpos p
  < 2 ^ Zpos (SpecFloat.digits2_pos p).
Proof.
  rewrite digits2_size. split.
  - pose proof (Pos.size_le p) as H.
    apply Pos2Z.pos_le_pos in H. rewrite Pos2Z.inj_pow in H.
    change (Zpos p~0) with (2 * Zpos p) in H.
    replace (Zpos (Pos.size p)) with (Z.succ (Zpos (Pos.size p) - 1)) in H by lia.
    rewrite Z.pow_succ_r in H by lia. lia.
  - pose proof (Pos.size_gt p) as H.
    apply Pos2Z.pos_lt_pos in H. rewrite Pos2Z.inj_pow in H. exact H.
Qed.

Lemma Zdigits2_unique (x k : Z) :
  2 ^ (k - 1) <= x < 2 ^ k -> 0 < k -> SpecFloat.Zdigits2 x = k.
Proof.
  intros [Hl Hu] Hk.
  assert (0 < x) by (pose proof (Z.pow_pos_nonneg 2 (k - 1)); lia).
  destruct x as [|p|p]; try lia. simpl.
  pose proof (digits2_bounds p) as [Hl' Hu'].
  set (d := Zpos (SpecFloat.digits2_pos p)) in *.
  assert (0 < d) by (unfold d; lia).
  destruct (Z.lt_trichotomy d k) as [Hlt|[Heq|Hgt]]; [|exact Heq|].
  - assert (2 ^ d <= 2 ^ (k - 1)) by (apply Z.pow_le_mono_r; lia). lia.
  - assert (2 ^ k <= 2 ^ (d - 1)) by (apply Z.pow_le_mono_r; lia). lia.
Qed.

(** Rounding a mantissa of 53 digits: nothing is shifted out. *)
Lemma round_53 (q e : Z) (l : SpecFloat.location) :
  2 ^ 52 <= q -> SpecFloat.round_nearest_even q l < 2 ^ 53 ->
  q <= SpecFloat.round_nearest_even q l ->
  -1074 <= e <= 971 ->
  SpecFloat.binary_round_aux 53 1024 false q e l
  = SpecFloat.S754_finite false
      (Z.to_pos (SpecFloat.round_nearest_even q l)) e.
Proof.
  intros Hq Hr Hqr He.
  unfold SpecFloat.binary_round_aux, SpecFloat.shr_fexp.
  rewrite (Zdigits2_unique q 53) by lia.
  replace (SpecFloat.fexp 53 1024 (53 + e) - e) with 0
    by (unfold SpecFloat.fexp, SpecFloat.emin; lia).
  cbv beta iota delta [SpecFloat.shr].
  assert (Hm : SpecFloat.shr_m (SpecFloat.shr_record_of_loc q l) = q)
    by (destruct l as [|[]]; reflexivity).
  assert (Hl : SpecFloat.loc_of_shr_record (SpecFloat.shr_record_of_loc q l) = l)
    by (destruct l as [|[]]; reflexivity).
  rewrite Hm, Hl.
  set (q' := SpecFloat.round_nearest_even q l) in *.
  rewrite (Zdigits2_unique q' 53) by lia.
  replace (SpecFloat.fexp 53 1024 (53 + e) - e) with 0
    by (unfold SpecFloat.fexp, SpecFloat.emin; lia).
  cbv beta iota.
  change (SpecFloat.shr_m (SpecFloat.shr_record_of_loc q' SpecFloat.loc_Exact))
    with q'.
  destruct q' as [|p|p]; try lia.
  replace (e <=? 1024 - 53) with true by (symmetry; apply Z.leb_le; lia).
  reflexivity.
Qed.

Lemma iter_xO (m n : positive) : Zpos (Pos.iter xO m n) = Zpos m * 2 ^ Zpos n.
Proof.
  induction n as [|n IH] using Pos.peano_ind.
  - simpl. lia.
  - rewrite Pos.iter_succ, Pos2Z.inj_succ, Z.pow_succ_r by lia.
    change (Zpos (Pos.iter xO m n)~0) with (2 * Zpos (Pos.iter xO m n)).
    rewrite IH. ring.
Qed.

(** An integer below 2^53 converts to float64 exactly. *)
Lemma of_int64_finite (m : positive) :
  let d := Zpos (SpecFloat.digits2_pos m) in
  d < 53 ->
  Np.of_int64 (Zpos m)
  = SpecFloat.S754_finite false (Z.to_pos (Zpos m * 2 ^ (53 - d))) (d - 53).
Proof.
  intros d Hd. pose proof (digits2_bounds m) as [Hl Hu]. fold d in Hl, Hu.
  assert (0 < d) by (unfold d; lia).
  unfold Np.of_int64, SpecFloat.binary_normalize, SpecFloat.binary_round,
    SpecFloat.shl_align.
  fold d.
  replace (SpecFloat.fexp 53 1024 (d + 0)) with (d - 53)
    by (unfold SpecFloat.fexp, SpecFloat.emin; lia).
  destruct (d - 53 - 0) as [|k|k] eqn:Ek; try lia.
  assert (Hk : Zpos k = 53 - d) by lia.
  assert (Hpow : 2 ^ (53 - d) * 2 ^ (d - 1) = 2 ^ 52)
    by (rewrite <- Z.pow_add_r by lia; f_equal; lia).
  assert (Hpow' : 2 ^ (53 - d) * 2 ^ d = 2 ^ 53)
    by (rewrite <- Z.pow_add_r by lia; f_equal; lia).
  assert (0 < 2 ^ (53 - d)) by (apply Z.pow_pos_nonneg; lia).
  rewrite round_53.
  - simpl SpecFloat.round_nearest_even. rewrite iter_xO, Hk. reflexivity.
  - rewrite iter_xO, Hk. nia.
  - simpl SpecFloat.round_nearest_even. rewrite iter_xO, Hk. nia.
  - simpl SpecFloat.round_nearest_even. lia.
  - lia.
Qed.

(** The integer square root [q] of [s] scaled by [T * T], rounded to
    nearest on its remainder [r], stays below the next multiple of [T]
    when [T] exceeds the root of [s]. *)
Lemma sqrt_scaled (s T n q r : Z) :
  0 <= n -> n * n <= s < (n + 1) * (n + 1) ->
  n + 1 < T ->
  0 <= q -> s * (T * T) = q * q + r -> 0 <= r <= 2 * q ->
  n * T <= q /\ (if r <=? q then q else q + 1) < (n + 1) * T.
Proof.
  intros Hn [Hl Hu] HT Hq Hs Hr.
  assert (HTT : 0 < T * T) by nia.
  assert (Hlo : n * T <= q).
  { destruct (Z.le_gt_cases (n * T) q) as [H|H]; [exact H|exfalso].
    assert ((q + 1) * (q + 1) <= n * T * (n * T))
      by (apply Z.mul_le_mono_nonneg; lia).
    assert (n * n * (T * T) <= s * (T * T))
      by (apply Z.mul_le_mono_nonneg_r; lia).
    nia. }
  assert (Hhi : q < (n + 1) * T).
  { destruct (Z.lt_ge_cases q ((n + 1) * T)) as [H|H]; [exact H|exfalso].
    assert ((n + 1) * T * ((n + 1) * T) <= q * q)
      by (apply Z.mul_le_mono_nonneg; nia).
    assert (s * (T * T) < (n + 1) * (n + 1) * (T * T))
      by (apply Z.mul_lt_mono_pos_r; lia).
    nia. }
  split; [exact Hlo|].
  destruct (r <=? q) eqn:E; [exact Hhi|].
  apply Z.leb_gt in E.
  assert (q + 1 <> (n + 1) * T); [|lia].
  intros Heq.
  assert ((s + 1) * (T * T) <= (n + 1) * (n + 1) * (T * T))
    by (apply Z.mul_le_mono_nonneg_r; lia).
  assert (q = (n + 1) * T - 1) by lia. subst q.
  assert (T * T < (n + 1) * T); [|nia].
  nia.
Qed.

(** Below 2^52 the float64 square root of an integer, truncated, is the
    integer square root: the root has 53 significant bits of which at least
    27 are fractional, and rounding to nearest cannot carry it to the next
    integer. *)
Lemma sqrt_astype_int (m : positive) :
  Zpos m < 2 ^ 52 ->
  Np.astype_int (Np.sqrt (Np.of_int64 (Zpos m))) = Ok (Z.sqrt (Zpos m)).
Proof.
  intros Hm.
  pose proof (digits2_bounds m) as [Hl Hu].
  set (d := Zpos (SpecFloat.digits2_pos m)) in *.
  assert (Hd0 : 0 < d) by (unfold d; lia).
  assert (Hd : d <= 52).
  { destruct (Z.le_gt_cases d 52) as [H|H]; [exact H|exfalso].
    assert (2 ^ 52 <= 2 ^ (d - 1)) by (apply Z.pow_le_mono_r; lia). lia. }
  rewrite of_int64_finite by (fold d; lia). fold d.
  set (h := (d + 1) / 2).
  set (t := 53 - h).
  assert (Ht : 27 <= t <= 53) by (unfold t, h; Z.div_mod_to_equations; lia).
  assert (Hpow : 2 ^ (53 - d) * 2 ^ (d - 1) = 2 ^ 52)
    by (rewrite <- Z.pow_add_r by lia; f_equal; lia).
  assert (Hpow' : 2 ^ (53 - d) * 2 ^ d = 2 ^ 53)
    by (rewrite <- Z.pow_add_r by lia; f_equal; lia).
  assert (Hp : 0 < 2 ^ (53 - d)) by (apply Z.pow_pos_nonneg; lia).
  set (M := Zpos m * 2 ^ (53 - d)).
  assert (HM : 2 ^ 52 <= M < 2 ^ 53) by (unfold M; nia).
  unfold Np.sqrt, SpecFloat.SFsqrt, SpecFloat.SFsqrt_core_binary.
  rewrite Z2Pos.id by lia.
  rewrite (Zdigits2_unique M 53) by lia.
  rewrite !Z.div2_div.
  replace (Z.min (SpecFloat.fexp 53 1024 ((53 + (d - 53) + 1) / 2))
             ((d - 53) / 2)) with (- t)
    by (unfold SpecFloat.fexp, SpecFloat.emin, t, h;
        replace (53 + (d - 53) + 1) with (d + 1) by lia;
        Z.div_mod_to_equations; lia).
  destruct (d - 53 - 2 * - t) as [|k|k] eqn:Ek; try (unfold t, h in Ek; Z.div_mod_to_equations; lia).
  rewrite <- Ek. rewrite Z.shiftl_mul_pow2 by lia.
  assert (Hscale : M * 2 ^ (d - 53 - 2 * - t) = Zpos m * (2 ^ t * 2 ^ t)).
  { unfold M. rewrite <- Z.mul_assoc, <- !Z.pow_add_r by lia.
    f_equal. f_equal. lia. }
  rewrite Hscale.
  set (T := 2 ^ t).
  pose proof (Z.sqrtrem_spec (Zpos m * (T * T))) as Hspec.
  destruct (Z.sqrtrem (Zpos m * (T * T))) as [q r].
  assert (0 < T) by (apply Z.pow_pos_nonneg; lia).
  assert (HTT : 0 < T * T) by (apply Z.mul_pos_pos; lia).
  specialize (Hspec ltac:(apply Z.mul_nonneg_nonneg; lia)). destruct Hspec as [Hqr Hr].
  pose proof (Z.sqrt_spec (Zpos m) ltac:(lia)) as Hn. cbv zeta in Hn.
  set (n := Z.sqrt (Zpos m)) in *.
  assert (Hn0 : 0 <= n) by apply Z.sqrt_nonneg.
  assert (Hn26 : n < 67108864).
  { destruct (Z.lt_ge_cases n 67108864) as [H'|H']; [exact H'|exfalso].
    assert (67108864 * 67108864 <= n * n)
      by (apply Z.mul_le_mono_nonneg; lia).
    change (2 ^ 52) with 4503599627370496 in Hm. lia. }
  assert (HT : 2 ^ 27 <= T) by (apply Z.pow_le_mono_r; lia).
  change (2 ^ 27) with 134217728 in HT.
  assert (Hq0 : 0 <= q) by lia.
  assert (HTn : n + 1 < T) by lia.
  destruct (sqrt_scaled (Zpos m) T n q r Hn0 ltac:(lia) HTn Hq0
              ltac:(lia) Hr) as [Hlo Hhi].
  assert (Hh : 1 <= h <= 26 /\ d <= 2 * h <= d + 1)
    by (unfold h; Z.div_mod_to_equations; lia).
  assert (HhT : 2 ^ h * T = 2 ^ 53)
    by (unfold T; rewrite <- Z.pow_add_r by lia; f_equal; unfold t; lia).
  assert (Hh0 : 0 < 2 ^ h) by (apply Z.pow_pos_nonneg; lia).
  (* the square root has 53 digits *)
  assert (Hq52 : 2 ^ 52 <= q).
  { assert (Hbig : 2 ^ 52 * 2 ^ 52 <= Zpos m * (T * T)).
    { apply Z.le_trans with (2 ^ (d - 1) * (T * T)).
      - unfold T. rewrite <- !Z.pow_add_r by lia.
        apply Z.pow_le_mono_r; unfold t; lia.
      - apply Z.mul_le_mono_nonneg_r; lia. }
    destruct (Z.le_gt_cases (2 ^ 52) q) as [H'|H']; [exact H'|exfalso].
    assert ((q + 1) * (q + 1) <= 2 ^ 52 * 2 ^ 52)
      by (apply Z.mul_le_mono_nonneg; lia).
    lia. }
  assert (Hnh : n + 1 <= 2 ^ h).
  { destruct (Z.lt_ge_cases n (2 ^ h)) as [H'|H']; [lia|exfalso].
    assert (2 ^ h * 2 ^ h <= n * n) by (apply Z.mul_le_mono_nonneg; lia).
    assert (2 ^ d <= 2 ^ h * 2 ^ h)
      by (rewrite <- Z.pow_add_r by lia; apply Z.pow_le_mono_r; lia).
    lia. }
  assert (Htop : (n + 1) * T <= 2 ^ 53)
    by (rewrite <- HhT; apply Z.mul_le_mono_nonneg_r; lia).
  set (l := if r =? 0 then SpecFloat.loc_Exact
            else SpecFloat.loc_Inexact (if r <=? q then Lt else Gt)).
  assert (Hround : SpecFloat.round_nearest_even q l
                   = if r <=? q then q else q + 1).
  { unfold l. destruct (r =? 0) eqn:E0.
    - apply Z.eqb_eq in E0. subst r.
      replace (0 <=? q) with true by (symmetry; apply Z.leb_le; lia).
      reflexivity.
    - destruct (r <=? q); reflexivity. }
  rewrite round_53; rewrite ?Hround; try lia;
    try (destruct (r <=? q); lia).
  unfold Np.astype_int. cbv zeta.
  replace (- t <? 0) with true by (symmetry; apply Z.ltb_lt; lia).
  rewrite Z2Pos.id by (destruct (r <=? q); lia).
  unfold SpecFloat.cond_Zopp. rewrite Z.opp_involutive.
  rewrite Z.shiftr_div_pow2 by lia. fold T.
  assert (Hdiv : (if r <=? q then q else q + 1) / T = n).
  { symmetry.
    apply Z.div_unique with ((if r <=? q then q else q + 1) - n * T).
    - left. destruct (r <=? q); lia.
    - ring. }
  rewrite Hdiv.
  change (2 ^ 63) with 9223372036854775808.
  replace (- 9223372036854775808 <=? n) with true
    by (symmetry; apply Z.leb_le; lia).
  replace (n <? 9223372036854775808) with true
    by (symmetry; apply Z.ltb_lt; lia).
  reflexivity.
Qed.

Lemma int64_small (z : Z) : - 2 ^ 63 <= z < 2 ^ 63 -> Np.int64 z = z.
Proof.
  intros H. unfold Np.int64. rewrite Z.mod_small; lia.
Qed.

Lemma square_below (d : Z) : d ^ 2 < 2 ^ 52 -> - 2 ^ 26 < d < 2 ^ 26.
Proof.
  change (2 ^ 52) with 4503599627370496.
  change (2 ^ 26) with 67108864.
  rewrite Z.pow_2_r. intros H. nia.
Qed.

(** Lines 133-135 compute the exact truncated distance when the squared
    distance is below 2^52. *)
Lemma np_distance_exact (p : point) (l : location) :
  squared_distance p l < 2 ^ 52 -> np_distance p l = Ok (euclid p l).
Proof.
  unfold squared_distance, np_distance, euclid. cbv zeta. intros H.
  set (dN := pNorth p - North l) in *.
  set (dE := pEast p - East l) in *.
  assert (HN : 0 <= dN ^ 2) by (rewrite Z.pow_2_r; apply Z.square_nonneg).
  assert (HE : 0 <= dE ^ 2) by (rewrite Z.pow_2_r; apply Z.square_nonneg).
  assert (HdN : - 2 ^ 26 < dN < 2 ^ 26) by (apply square_below; lia).
  assert (HdE : - 2 ^ 26 < dE < 2 ^ 26) by (apply square_below; lia).
  rewrite <- !Z.pow_2_r.
  change (2 ^ 52) with 4503599627370496 in H.
  change (2 ^ 26) with 67108864 in HdN, HdE.
  rewrite (int64_small dN), (int64_small dE)
    by (change (2 ^ 63) with 9223372036854775808; lia).
  rewrite (int64_small (dN ^ 2)), (int64_small (dE ^ 2)), int64_small
    by (change (2 ^ 63) with 9223372036854775808; lia).
  destruct (dN ^ 2 + dE ^ 2) as [|m|m] eqn:Es; try lia.
  - reflexivity.
  - apply sqrt_astype_int. exact H.
Qed.

(** From the distance 2^26 + 1 on the float64 square root can round up to
    the next integer: the code stores 67117699 where the truncated distance
    is 67117698. *)
Lemma np_distance_rounds_up :
  let p := {| pNorth := 67117698; pEast := 11586 |} in
  let l := {| North := 0; East := 0; cells := fun _ => 0%Q |} in
  np_distance p l = Ok 67117699 /\ euclid p l = 67117698.
Proof.
  split; vm_compute; reflexivity.
Qed.

(** A squared difference that wraps around to a negative int64 makes
    [np.sqrt] return NaN and [astype('int')] raise. *)
Lemma np_distance_overflow :
  np_distance {| pNorth := 4000000000; pEast := 0 |}
    {| North := 0; East := 0; cells := fun _ => 0%Q |}
  = Raise (ValueError
             "Cannot convert non-finite values (NA or inf) to integer").
Proof.
  vm_compute. reflexivity.
Qed.

(** ** The distance index *)

Lemma euclid_truncates (p : point) (l : location) :
  0 <= euclid p l
  /\ euclid p l ^ 2
     <= (pNorth p - North l) ^ 2 + (pEast p - East l) ^ 2
     < (euclid p l + 1) ^ 2.
Proof.
  unfold euclid.
  set (s := (pNorth p - North l) ^ 2 + (pEast p - East l) ^ 2).
  assert (Hs : 0 <= s) by (unfold s; nia).
  pose proof (Z.sqrt_spec s Hs) as H. cbv zeta in H.
  split; [apply Z.sqrt_nonneg|].
  rewrite !Z.pow_2_r. unfold Z.succ in H. exact H.
Qed.

Lemma sort_values_Forall (P : row -> Prop) (rows : list row) :
  Forall P rows -> Forall P (sort_values rows).
Proof.
  intros H. eapply Permutation_Forall.
  - apply Permutation_sym, sort_values_perm.
  - exact H.
Qed.

(** [sort_values] is stable: the rows at any one distance keep the order
    they had in its argument. *)
Lemma insert_row_stable (d : Z) (r : row) (l : list row) :
  filter (fun x => Distance x =? d) (insert_row r l)
  = filter (fun x => Distance x =? d) (r :: l).
Proof.
  induction l as [|x l IH]; [reflexivity|].
  simpl insert_row. destruct (Distance r <=? Distance x) eqn:E;
    [reflexivity|].
  apply Z.leb_gt in E. simpl in *.
  destruct (Distance r =? d) eqn:Er, (Distance x =? d) eqn:Ex;
    rewrite IH; try reflexivity.
  apply Z.eqb_eq in Er. apply Z.eqb_eq in Ex. lia.
Qed.

Lemma sort_values_stable (d : Z) (rows : list row) :
  filter (fun x => Distance x =? d) (sort_values rows)
  = filter (fun x => Distance x =? d) rows.
Proof.
  induction rows as [|r rows IH]; [reflexivity|].
  simpl sort_values. rewrite insert_row_stable. simpl.
  rewrite IH. reflexivity.
Qed.

(** C5, as the code has it: for every point the table is sorted into
    ascending order of the distance stored for the point, and the sorted
    table holds the same locations as before.  When the squared distance of
    every location to the point is below 2^52, the stored distance of a
    location is the value that lines 133-135 compute in int64 and float64
    arithmetic, and it is the Euclidean distance truncated to an integer.
    The table sorted is the one the previous point left, so nothing is said
    of the order among equal distances. *)
Theorem C5_distance_index (p : point) (popLocations : list row) :
  let indexed := sort_values (assign_distance p popLocations) in
  Permutation (map snd indexed) (map snd popLocations)
  /\ ascending indexed
  /\ (Forall (fun r => squared_distance p (snd r) < 2 ^ 52) popLocations ->
      Forall (fun r =>
                np_distance p (snd r) = Ok (Distance r)
                /\ 0 <= Distance r
                /\ Distance r ^ 2 <= squared_distance p (snd r)
                   < (Distance r + 1) ^ 2) indexed)
  /\ (forall multi groups populations proportions kValues points results,
        for_point multi groups populations proportions kValues (p :: points)
          popLocations results
        = match for_pop_Column multi groups proportions kValues indexed
                  populations 0%nat [] with
          | Raise e => (indexed, Raise e)
          | Ok res =>
              for_point multi groups populations proportions kValues points
                indexed (results ++ [res])%list
          end).
Proof.
  cbv zeta. split; [|split; [|split]].
  - apply index_locations.
  - apply sort_values_ascending.
  - intros Hrange. apply sort_values_Forall.
    unfold assign_distance. rewrite Forall_map.
    eapply Forall_impl; [|exact Hrange].
    intros r Hr. cbv beta in Hr. simpl snd. unfold Distance. simpl fst.
    split; [apply np_distance_exact; exact Hr|].
    apply euclid_truncates.
  - reflexivity.
Qed.

(** C5 at the example table, seen from [origin]: the locations get the
    distances 0, 5 and 10. *)
Lemma C5_distance_index_witness :
  Forall (fun r =>
            np_distance Examples.origin (snd r) = Ok (Distance r)
            /\ 0 <= Distance r
            /\ Distance r ^ 2 <= squared_distance Examples.origin (snd r)
               < (Distance r + 1) ^ 2)
    [(0, Examples.near); (5, Examples.mid); (10, Examples.far)].
Proof.
  apply (proj1 (proj2 (proj2 (C5_distance_index Examples.origin
                                (assign_zero (Plain Examples.three)))))).
  repeat (apply Forall_cons; [vm_compute; reflexivity|]). apply Forall_nil.
Defined.

(** C5 fails as stated: after the point [origin], the point [halfway] is
    at distance 5 from both locations of the table [far; near]; the
    ordering the code produces for it lists [near] before [far], the order
    the sort for [origin] left, while the order of the reference dataset is
    [far] before [near]. *)
Lemma C5_ties_not_in_reference_order :
  exists rows,
    fst (geocontext [Examples.origin; Examples.halfway]
           (Plain Examples.pair_far_near)
           (PyList ["G"]) (PyList ["Pop"]) [true] (PyList [1]))
    = WithDistance rows
    /\ map Distance rows = [5; 5]
    /\ map East (map snd rows) = [0; 10]
    /\ map Distance
         (spec_ordering Examples.pair_far_near Examples.halfway) = [5; 5]
    /\ map East
         (map snd (spec_ordering Examples.pair_far_near Examples.halfway))
       = [10; 0]
    /\ rows <> spec_ordering Examples.pair_far_near Examples.halfway.
Proof.
  eexists. split; [vm_compute; reflexivity|].
  repeat split; try reflexivity.
  intros H. apply (f_equal (fun l => map East (map snd l))) in H.
  vm_compute in H. discriminate H.
Qed.

(** ** Weighted statistics *)

Lemma products_of_columns (a w : string) (selection : list row) :
  map (fun aw => fst aw * snd aw)%Q
      (combine (column a selection) (column w selection))
  = map (fun r => cells (snd r) a * cells (snd r) w)%Q selection.
Proof.
  induction selection as [|r selection IH]; simpl; [reflexivity|].
  f_equal. exact IH.
Qed.

Lemma squares_of_columns (a w : string) (m : Q) (selection : list row) :
  map (fun aw => fst aw * snd aw)%Q
      (combine (map (fun x => (x - m) ^ 2)%Q (column a selection))
               (column w selection))
  = map (fun r => (cells (snd r) a - m) ^ 2 * cells (snd r) w)%Q selection.
Proof.
  induction selection as [|r selection IH]; simpl; [reflexivity|].
  f_equal. exact IH.
Qed.

Lemma np_average_defined (a wgt : list Q) :
  ~ (Qsum wgt == 0)%Q ->
  np_average a wgt
  = Ok (Qsum (map (fun aw => fst aw * snd aw)%Q (combine a wgt)) / Qsum wgt)%Q.
Proof.
  intros H. unfold np_average.
  destruct (Qeq_bool (Qsum wgt) 0) eqn:E; [|reflexivity].
  apply Qeq_bool_iff in E. contradiction.
Qed.

Lemma weighted_squares_nonneg (a w : string) (m : Q) (selection : list row) :
  Forall (fun r => 0 <= cells (snd r) w)%Q selection ->
  (0 <= Qsum (map (fun r => (cells (snd r) a - m) ^ 2 * cells (snd r) w)
                selection))%Q.
Proof.
  intros H. apply Qsum_nonneg. rewrite Forall_map.
  eapply Forall_impl; [|exact H]. simpl. intros r Hr.
  apply Qmult_le_0_compat; [|exact Hr].
  generalize (cells (snd r) a - m)%Q. intros q.
  change (0 <= q * q)%Q. nra.
Qed.

(** C6: in weighted mode the statistics of a group over a selection with
    non-negative populations of non-zero sum are the population-weighted
    mean [sum (v * w) / sum w] and the square root of the population-weighted
    mean of the squared deviations [sum ((v - mean)^2 * w) / sum w], whose
    divisor is the sum of the weights (no Bessel correction); they are what
    is stored under [mean_<group>_k<k>] and [std_<group>_k<k>].  For a
    selection of two rows these are [(w1*v1 + w2*v2) / (w1 + w2)] and
    [(w1*(v1-mean)^2 + w2*(v2-mean)^2) / (w1 + w2)]. *)
Theorem C6_weighted_statistics (selection : list row)
  (group pop_Column : string) :
  Forall (fun r => 0 <= cells (snd r) pop_Column)%Q selection ->
  ~ (Qsum (column pop_Column selection) == 0)%Q ->
  exists average variance : Q,
    weighted selection group pop_Column = Ok (average, VSqrt variance)
    /\ average
       = (Qsum (map (fun r => cells (snd r) group * cells (snd r) pop_Column)
                  selection)
          / Qsum (column pop_Column selection))%Q
    /\ variance
       = (Qsum (map (fun r => (cells (snd r) group - average) ^ 2
                              * cells (snd r) pop_Column) selection)
          / Qsum (column pop_Column selection))%Q
    /\ (0 <= variance)%Q
    /\ (forall kValue res,
          statistic false selection group pop_Column kValue res
          = Ok (dict_set ("std_" ++ group ++ "_k" ++ str kValue)
                  (VSqrt variance)
                  (dict_set ("mean_" ++ group ++ "_k" ++ str kValue)
                     (VNum average) res)))
    /\ (forall r1 r2, selection = [r1; r2] ->
          let w1 := cells (snd r1) pop_Column in
          let w2 := cells (snd r2) pop_Column in
          let v1 := cells (snd r1) group in
          let v2 := cells (snd r2) group in
          (average == (w1 * v1 + w2 * v2) / (w1 + w2)
           /\ variance == (w1 * (v1 - average) ^ 2 + w2 * (v2 - average) ^ 2)
                          / (w1 + w2))%Q).
Proof.
  intros Hw Hsum.
  set (scl := Qsum (column pop_Column selection)) in *.
  set (average :=
         (Qsum (map (fun r => cells (snd r) group * cells (snd r) pop_Column)
                  selection) / scl)%Q).
  set (variance :=
         (Qsum (map (fun r => (cells (snd r) group - average) ^ 2
                              * cells (snd r) pop_Column) selection)
          / scl)%Q).
  assert (Hpos : (0 < scl)%Q).
  { assert (0 <= scl)%Q.
    { apply Qsum_nonneg. unfold column. rewrite Forall_map. exact Hw. }
    destruct (Qlt_le_dec 0 scl) as [Hlt|Hle]; [exact Hlt|].
    exfalso. apply Hsum. apply Qle_antisym; assumption. }
  assert (Hvar : (0 <= variance)%Q).
  { unfold variance. apply Qle_shift_div_l; [exact Hpos|].
    rewrite Qmult_0_l. apply weighted_squares_nonneg. exact Hw. }
  assert (Hweighted :
            weighted selection group pop_Column = Ok (average, VSqrt variance)).
  { unfold weighted.
    rewrite np_average_defined by exact Hsum. cbv beta iota delta [bind].
    rewrite np_average_defined by exact Hsum. cbv beta iota delta [bind].
    rewrite products_of_columns, squares_of_columns.
    fold scl. fold average. fold variance.
    unfold math_sqrt.
    destruct (Qltb variance 0) eqn:E.
    - apply Qltb_lt in E. exfalso. apply (Qlt_not_le _ _ E Hvar).
    - reflexivity. }
  exists average, variance.
  split; [exact Hweighted|]. split; [reflexivity|]. split; [reflexivity|].
  split; [exact Hvar|]. split.
  - intros kValue res. unfold statistic. rewrite Hweighted. reflexivity.
  - intros r1 r2 Hsel. cbv zeta.
    assert (Hne : ~ (cells (snd r1) pop_Column + cells (snd r2) pop_Column
                     == 0)%Q).
    { intros H. apply Hsum. unfold scl. rewrite Hsel. simpl.
      rewrite Qplus_0_r. exact H. }
    split.
    + unfold average, scl. rewrite Hsel. simpl. field. exact Hne.
    + unfold variance, scl. rewrite Hsel. simpl.
      generalize average. intros m. field. exact Hne.
Qed.

(** C6 at the first two rows of the example table, for the group ['H']. *)
Lemma C6_weighted_statistics_witness :
  exists average variance : Q,
    weighted (firstn 2 Examples.three_from_origin) "H" "Pop"
    = Ok (average, VSqrt variance)
    /\ (average == 7 # 20)%Q
    /\ (variance == 3 # 200)%Q.
Proof.
  destruct (C6_weighted_statistics (firstn 2 Examples.three_from_origin)
              "H" "Pop") as (average & variance & Hw & Ha & Hv & _).
  - repeat constructor; discriminate.
  - intros H. vm_compute in H. discriminate H.
  - exists average, variance. split; [exact Hw|].
    split; [rewrite Ha | rewrite Hv, Ha]; vm_compute; reflexivity.
Defined.

(** ** What the call leaves in the reference table *)

Lemma assign_zero_locations (f : frame) : map snd (assign_zero f) = locations f.
Proof.
  unfold assign_zero. rewrite map_map. apply map_id.
Qed.

Lemma assign_zero_ascending (f : frame) : ascending (assign_zero f).
Proof.
  unfold assign_zero, ascending.
  induction (locations f) as [|l ls IH]; simpl; constructor.
  - exact IH.
  - rewrite Forall_map. apply Forall_forall. intros x _. simpl. lia.
Qed.

Lemma for_point_table multi groups populations proportions kValues
  (points : list point) :
  forall (popLocations : list row) (results : list dict),
    Permutation
      (map snd (fst (for_point multi groups populations proportions kValues
                       points popLocations results)))
      (map snd popLocations)
    /\ (ascending popLocations ->
        ascending (fst (for_point multi groups populations proportions
                          kValues points popLocations results))).
Proof.
  induction points as [|p points IH]; intros popLocations results.
  - simpl. split; [apply Permutation_refl | tauto].
  - simpl.
    destruct (for_pop_Column multi groups proportions kValues
                (sort_values (assign_distance p popLocations))
                populations 0%nat []) as [res|e].
    + destruct (IH (sort_values (assign_distance p popLocations))
                   (results ++ [res])%list) as [Hperm Hasc].
      split.
      * eapply perm_trans; [exact Hperm | apply index_locations].
      * intros _. apply Hasc, sort_values_ascending.
    + simpl. split; [apply index_locations|].
      intros _. apply sort_values_ascending.
Qed.

Lemma geocontext_format_error points popLocations groups populations
  proportions kValues e :
  check_format groups populations kValues = Raise e ->
  geocontext points popLocations groups populations proportions kValues
  = (popLocations, Raise e).
Proof.
  intros H. unfold geocontext. rewrite H. reflexivity.
Qed.

(** C7, as the code has it: the call changes the caller's reference table.
    Unless the format check fails, which leaves the table as it was, the
    table comes back with a ['Distance'] column and with its rows in
    ascending order of that column; what is kept is the locations
    themselves: the rows of the table after the call are a permutation of
    its rows before, each with its own coordinates and cells. *)
Theorem C7_reference_table_after_call (points : list point)
  (popLocations : frame) (groups populations : object string)
  (proportions : list bool) (kValues : object Z) :
  let after :=
    fst (geocontext points popLocations groups populations proportions
           kValues) in
  Permutation (locations after) (locations popLocations)
  /\ ((exists e, check_format groups populations kValues = Raise e) ->
      after = popLocations)
  /\ ((exists checked, check_format groups populations kValues = Ok checked) ->
      exists rows, after = WithDistance rows /\ ascending rows).
Proof.
  cbv zeta. unfold geocontext.
  destruct (check_format groups populations kValues)
    as [[[[multi gs] pops] ks]|e] eqn:Hformat.
  - pose proof (for_point_table multi gs pops proportions (sort ks) points
                  (assign_zero popLocations) []) as [Hperm Hasc].
    destruct (for_point multi gs pops proportions (sort ks) points
                (assign_zero popLocations) []) as [rows results].
    simpl in *. split; [|split].
    + rewrite <- assign_zero_locations. exact Hperm.
    + intros [e He]. discriminate He.
    + intros _. exists rows. split; [reflexivity|].
      apply Hasc, assign_zero_ascending.
  - simpl. split; [apply Permutation_refl|]. split.
    + reflexivity.
    + intros [checked Hc]. discriminate Hc.
Qed.

(** C7 fails as stated: after a call with the table [far; near], which has
    no ['Distance'] column, the table has one and its rows are in the order
    [near; far]. *)
Lemma C7_reference_table_changed :
  exists rows,
    fst (geocontext [Examples.origin] (Plain Examples.pair_far_near)
           (PyList ["G"]) (PyList ["Pop"]) [true] (PyList [1]))
    = WithDistance rows
    /\ map Distance rows = [0; 10]
    /\ map East (map snd rows) = [0; 10]
    /\ map East (locations (Plain Examples.pair_far_near)) = [10; 0]
    /\ WithDistance rows <> Plain Examples.pair_far_near.
Proof.
  eexists. split; [vm_compute; reflexivity|].
  repeat split; try reflexivity. discriminate.
Qed.

(** ** Running out of population *)

Lemma fold_left_Qsum (l : list Q) :
  forall q : Q, (fold_left Qplus l q == q + Qsum l)%Q.
Proof.
  induction l as [|x l IH]; intros q; simpl.
  - ring.
  - rewrite IH. change (q + x + Qsum l == q + (x + Qsum l))%Q. ring.
Qed.

Lemma while_population_raises (unread : list Q) (kValue : Z) :
  forall population index e,
    while_population unread kValue population index = Raise e ->
    e = out_of_bounds.
Proof.
  induction unread as [|p unread IH]; intros population index e H;
    rewrite while_population_eq in H;
    destruct (Qltb population (inject_Z kValue)); try discriminate.
  - injection H as <-. reflexivity.
  - eapply IH. exact H.
Qed.

Lemma iloc_raises {A : Type} (l : list A) (i : Z) (e : exn) :
  iloc l i = Raise e -> e = out_of_bounds.
Proof.
  unfold iloc.
  destruct ((if i <? 0 then i + Z.of_nat (List.length l) else i) <? 0).
  - intros [= <-]. reflexivity.
  - destruct (nth_error l _); [discriminate|].
    intros [= <-]. reflexivity.
Qed.

(** A k-value above everything the accumulator can still reach makes the
    [while] loop read past the end of the column. *)
Lemma while_population_insufficient (unread : list Q) (kValue : Z) :
  forall population index,
    Forall (fun x => 0 <= x)%Q unread ->
    (population + Qsum unread < inject_Z kValue)%Q ->
    while_population unread kValue population index = Raise out_of_bounds.
Proof.
  induction unread as [|p unread IH]; intros population index Hpos Hlt;
    rewrite while_population_eq.
  - simpl in Hlt.
    destruct (Qltb population (inject_Z kValue)) eqn:E; [reflexivity|].
    apply Qltb_ge in E. exfalso. lra.
  - inversion Hpos as [|? ? Hp Hrest]; subst.
    change (Qsum (p :: unread)) with (p + Qsum unread)%Q in Hlt.
    pose proof (Qsum_nonneg unread Hrest) as Hsum.
    destruct (Qltb population (inject_Z kValue)) eqn:E.
    + apply IH; [exact Hrest | lra].
    + apply Qltb_ge in E. exfalso. lra.
Qed.

(** The [while] loop moves population from the unread column to the
    accumulator. *)
Lemma while_population_conserves (unread : list Q) (kValue : Z)
  population index population' index' unread' :
  while_population unread kValue population index
  = Ok (population', index', unread') ->
  (population' + Qsum unread' == population + Qsum unread)%Q
  /\ (Forall (fun x => 0 <= x)%Q unread ->
      Forall (fun x => 0 <= x)%Q unread').
Proof.
  intros H. apply while_population_spec in H.
  destruct H as (consumed & -> & _ & -> & _ & _). split.
  - rewrite fold_left_Qsum, Qsum_app. ring.
  - intros Hpos. apply Forall_app in Hpos. tauto.
Qed.

Lemma for_kValue_insufficient multi groups popLocations pop_Column groupIndex
  (k : Z) (ks : list Z) :
  forall population index unread radius_List res,
    In k ks ->
    Forall (fun x => 0 <= x)%Q unread ->
    (population + Qsum unread < inject_Z k)%Q ->
    exists e,
      for_kValue multi groups popLocations pop_Column groupIndex ks
        population index unread radius_List res = Raise e
      /\ (multi = false -> e = out_of_bounds).
Proof.
  induction ks as [|kValue ks IH];
    intros population index unread radius_List res Hin Hpos Hlt;
    [destruct Hin|].
  simpl.
  destruct (while_population unread kValue population index)
    as [[[population' index'] unread']|e] eqn:Hw.
  - destruct Hin as [->|Hin].
    + rewrite while_population_insufficient in Hw by assumption.
      discriminate Hw.
    + apply while_population_conserves in Hw. destruct Hw as [Hsum Hpos'].
      simpl.
      destruct (iloc (map Distance popLocations) (index' - 1))
        as [radius|e] eqn:Hr; simpl.
      * unfold radius_key. destruct multi.
        -- destruct (getitem groups groupIndex) as [g|e]; simpl.
           ++ apply IH; [exact Hin | apply Hpos'; exact Hpos | lra].
           ++ exists e. split; [reflexivity | discriminate].
        -- simpl. apply IH; [exact Hin | apply Hpos'; exact Hpos | lra].
      * exists e. split; [reflexivity|]. intros _.
        eapply iloc_raises. exact Hr.
  - simpl. exists e. split; [reflexivity|]. intros _.
    eapply while_population_raises. exact Hw.
Qed.


Lemma check_format_Ok groups populations kValues multi gs ps ks :
  check_format groups populations kValues = Ok (multi, gs, ps, ks) ->
  groups = PyList gs /\ populations = PyList ps /\ kValues = PyList ks
  /\ multi = negb (List.length ps =? 1)%nat
  /\ (multi = true -> List.length gs = List.length ps).
Proof.
  unfold check_format.
  destruct groups as [gs'| |]; try discriminate.
  destruct populations as [ps'| |]; try discriminate.
  destruct (List.length ps' =? 1)%nat eqn:E1; simpl.
  - destruct kValues as [ks'| |]; try discriminate.
    intros [= <- <- <- <-]. rewrite E1. repeat split. discriminate.
  - destruct (List.length gs' =? List.length ps')%nat eqn:E2; simpl;
      [|discriminate].
    destruct kValues as [ks'| |]; try discriminate.
    intros [= <- <- <- <-]. rewrite E1. repeat split.
    intros _. apply Nat.eqb_eq. exact E2.
Qed.





(** ** The format check *)

Lemma check_format_Raise groups populations kValues e :
  check_format groups populations kValues = Raise e ->
  configuration_error e
  /\ (invalid_configuration groups populations kValues
      \/ exists s, populations = PyStr s).
Proof.
  unfold check_format, configuration_error, invalid_configuration.
  destruct groups as [gs| |].
  - destruct populations as [ps|s|].
    + destruct (List.length ps =? 1)%nat eqn:E1; simpl.
      * destruct kValues as [ks| |]; intros [= <-]; split; auto;
          left; right; right; right; reflexivity.
      * destruct (List.length gs =? List.length ps)%nat eqn:E2; simpl.
        -- destruct kValues as [ks| |]; intros [= <-]; split; auto;
             left; right; right; right; reflexivity.
        -- intros [= <-]. split; [auto|].
           left. right. right. left. exists gs, ps.
           apply Nat.eqb_neq in E1. apply Nat.eqb_neq in E2.
           repeat split; auto.
    + intros [= <-]. split; [auto|]. right. exists s. reflexivity.
    + intros [= <-]. split; [auto|]. left. right. left. reflexivity.
  - intros [= <-]. split; [auto|]. left. left. reflexivity.
  - intros [= <-]. split; [auto|]. left. left. reflexivity.
Qed.

Lemma check_format_invalid groups populations kValues :
  invalid_configuration groups populations kValues ->
  exists e, check_format groups populations kValues = Raise e.
Proof.
  unfold check_format.
  intros [H|[H|[(gs & ps & -> & -> & H1 & H2)|H]]].
  - destruct groups; try discriminate H; eexists; reflexivity.
  - subst. destruct groups; eexists; reflexivity.
  - apply Nat.eqb_neq in H1. rewrite H1.
    assert (E : (List.length gs =? List.length ps)%nat = false)
      by (apply Nat.eqb_neq; auto).
    rewrite E. simpl. eexists. reflexivity.
  - destruct groups as [gs| |]; try (eexists; reflexivity).
    destruct populations as [ps| |]; try (eexists; reflexivity).
    destruct (List.length ps =? 1)%nat; simpl.
    + destruct kValues; try discriminate H; eexists; reflexivity.
    + destruct (List.length gs =? List.length ps)%nat; simpl;
        [|eexists; reflexivity].
      destruct kValues; try discriminate H; eexists; reflexivity.
Qed.

Lemma runtime_not_configuration (e : exn) :
  runtime_error e -> ~ configuration_error e.
Proof.
  unfold runtime_error, configuration_error, out_of_bounds.
  intros [->|[->|[[m ->]|[[m ->]|[m ->]]]]] [H|[H|[H|H]]]; discriminate H.
Qed.

(** ** The exceptions after the format check *)

Lemma bind_Raise {A B : Type} (c : result A) (k : A -> result B) (e : exn) :
  bind c k = Raise e -> c = Raise e \/ exists a, c = Ok a /\ k a = Raise e.
Proof.
  destruct c as [a|e']; simpl; intros H.
  - right. exists a. split; [reflexivity | exact H].
  - left. injection H as ->. reflexivity.
Qed.

Lemma getitem_runtime {A : Type} (l : list A) (i : nat) (e : exn) :
  getitem l i = Raise e -> runtime_error e.
Proof.
  unfold getitem. destruct (nth_error l i); [discriminate|].
  intros [= <-]. right. left. reflexivity.
Qed.

Lemma iloc_runtime {A : Type} (l : list A) (i : Z) (e : exn) :
  iloc l i = Raise e -> runtime_error e.
Proof.
  intros H. left. eapply iloc_raises. exact H.
Qed.

Lemma np_average_runtime (a wgt : list Q) (e : exn) :
  np_average a wgt = Raise e -> runtime_error e.
Proof.
  unfold np_average. destruct (Qeq_bool (Qsum wgt) 0); [|discriminate].
  intros [= <-]. right. right. left. eexists. reflexivity.
Qed.

Lemma math_sqrt_runtime (x : Q) (e : exn) :
  math_sqrt x = Raise e -> runtime_error e.
Proof.
  unfold math_sqrt. destruct (Qltb x 0); [|discriminate].
  intros [= <-]. right. right. right. left. eexists. reflexivity.
Qed.

Lemma weighted_runtime selection group pop_Column (e : exn) :
  weighted selection group pop_Column = Raise e -> runtime_error e.
Proof.
  unfold weighted. intros H.
  apply bind_Raise in H. destruct H as [H|(average & _ & H)];
    [eapply np_average_runtime; exact H|].
  apply bind_Raise in H. destruct H as [H|(variance & _ & H)];
    [eapply np_average_runtime; exact H|].
  apply bind_Raise in H. destruct H as [H|(std & _ & H)];
    [eapply math_sqrt_runtime; exact H | discriminate H].
Qed.

Lemma statistic_runtime flag selection group pop_Column kValue res (e : exn) :
  statistic flag selection group pop_Column kValue res = Raise e ->
  runtime_error e.
Proof.
  unfold statistic. destruct flag; [discriminate|]. intros H.
  apply bind_Raise in H. destruct H as [H|([average std] & _ & H)];
    [eapply weighted_runtime; exact H | discriminate H].
Qed.

Lemma for_group_runtime proportions selection pop_Column groupIndex kValue
  (gs : list string) :
  forall res e,
    for_group proportions selection pop_Column groupIndex kValue gs res
    = Raise e -> runtime_error e.
Proof.
  induction gs as [|group gs IH]; intros res e H; [discriminate H|].
  simpl in H.
  apply bind_Raise in H. destruct H as [H|(flag & _ & H)];
    [eapply getitem_runtime; exact H|].
  apply bind_Raise in H. destruct H as [H|(res' & _ & H)];
    [eapply statistic_runtime; exact H|].
  eapply IH. exact H.
Qed.

Lemma radius_key_runtime multi groups groupIndex kValue (e : exn) :
  radius_key multi groups groupIndex kValue = Raise e -> runtime_error e.
Proof.
  unfold radius_key. destruct multi; [|discriminate]. intros H.
  apply bind_Raise in H. destruct H as [H|(g & _ & H)];
    [eapply getitem_runtime; exact H | discriminate H].
Qed.

Lemma for_kValue_runtime multi groups popLocations pop_Column groupIndex
  (ks : list Z) :
  forall population index unread radius_List res e,
    for_kValue multi groups popLocations pop_Column groupIndex ks population
      index unread radius_List res = Raise e -> runtime_error e.
Proof.
  induction ks as [|kValue ks IH];
    intros population index unread radius_List res e H; [discriminate H|].
  simpl in H.
  apply bind_Raise in H.
  destruct H as [H|([[population' index'] unread'] & _ & H)].
  { left. eapply while_population_raises. exact H. }
  apply bind_Raise in H. destruct H as [H|(radius & _ & H)];
    [eapply iloc_runtime; exact H|].
  apply bind_Raise in H. destruct H as [H|(key & _ & H)];
    [eapply radius_key_runtime; exact H|].
  eapply IH. exact H.
Qed.

Lemma for_k_Index_runtime multi groups proportions kValues popLocations
  pop_Column groupIndex radius_List (idxs : list nat) :
  forall res e,
    for_k_Index multi groups proportions kValues popLocations pop_Column
      groupIndex radius_List idxs res = Raise e -> runtime_error e.
Proof.
  induction idxs as [|k_Index idxs IH]; intros res e H; [discriminate H|].
  simpl in H.
  apply bind_Raise in H. destruct H as [H|(radius & _ & H)];
    [eapply getitem_runtime; exact H|].
  apply bind_Raise in H. destruct H as [H|(kValue & _ & H)];
    [eapply getitem_runtime; exact H|].
  apply bind_Raise in H. destruct H as [H|(res' & _ & H)].
  { destruct multi.
    - apply bind_Raise in H. destruct H as [H|(flag & _ & H)];
        [eapply getitem_runtime; exact H|].
      apply bind_Raise in H. destruct H as [H|(group & _ & H)];
        [eapply getitem_runtime; exact H|].
      eapply statistic_runtime. exact H.
    - eapply for_group_runtime. exact H. }
  apply bind_Raise in H. destruct H as [H|(total_key & _ & H)].
  { destruct multi; [|discriminate H].
    apply bind_Raise in H. destruct H as [H|(group & _ & H)];
      [eapply getitem_runtime; exact H | discriminate H]. }
  eapply IH. exact H.
Qed.

Lemma for_pop_Column_runtime multi groups proportions kValues popLocations
  (pops : list string) :
  forall groupIndex res e,
    for_pop_Column multi groups proportions kValues popLocations pops
      groupIndex res = Raise e -> runtime_error e.
Proof.
  induction pops as [|pop_Column pops IH]; intros groupIndex res e H;
    [discriminate H|].
  simpl in H.
  apply bind_Raise in H. destruct H as [H|([radius_List res'] & _ & H)];
    [eapply for_kValue_runtime; exact H|].
  apply bind_Raise in H. destruct H as [H|(res'' & _ & H)];
    [eapply for_k_Index_runtime; exact H|].
  eapply IH. exact H.
Qed.

Lemma for_point_runtime multi groups populations proportions kValues
  (points : list point) :
  forall popLocations results e,
    snd (for_point multi groups populations proportions kValues points
           popLocations results) = Raise e -> runtime_error e.
Proof.
  induction points as [|p points IH]; intros popLocations results e H;
    [discriminate H|].
  simpl in H.
  destruct (for_pop_Column multi groups proportions kValues
              (sort_values (assign_distance p popLocations)) populations
              0%nat []) as [res|e'] eqn:Hpoint.
  - eapply IH. exact H.
  - simpl in H. injection H as ->.
    eapply for_pop_Column_runtime. exact Hpoint.
Qed.

Lemma table_column_runtime (key : string) (t : table) (e : exn) :
  table_column key t = Raise e -> runtime_error e.
Proof.
  unfold table_column. destruct (existsb _ t); [discriminate|].
  intros [= <-]. right. right. right. right. eexists. reflexivity.
Qed.

Lemma finish_group_runtime multi proportions kValue (gs : list string) :
  forall groupIndex points e,
    finish_group multi proportions kValue gs groupIndex points = Raise e ->
    runtime_error e.
Proof.
  induction gs as [|group gs IH]; intros groupIndex points e H;
    [discriminate H|].
  simpl in H.
  apply bind_Raise in H. destruct H as [H|(flag & _ & H)];
    [eapply getitem_runtime; exact H|].
  apply bind_Raise in H. destruct H as [H|(points' & _ & H)].
  { destruct flag; [|discriminate H].
    apply bind_Raise in H. destruct H as [H|(num & _ & H)];
      [eapply table_column_runtime; exact H|].
    apply bind_Raise in H. destruct H as [H|(den & _ & H)];
      [eapply table_column_runtime; exact H | discriminate H]. }
  eapply IH. exact H.
Qed.

Lemma finish_runtime multi groups proportions (ks : list Z) :
  forall points e,
    finish multi groups proportions ks points = Raise e -> runtime_error e.
Proof.
  induction ks as [|kValue ks IH]; intros points e H; [discriminate H|].
  simpl in H.
  apply bind_Raise in H. destruct H as [H|(points' & _ & H)];
    [eapply finish_group_runtime; exact H|].
  eapply IH. exact H.
Qed.

(** After a successful format check, whatever [geocontext] raises is not one
    of the exceptions of the check. *)
Lemma geocontext_runtime points popLocations groups populations proportions
  kValues checked e :
  check_format groups populations kValues = Ok checked ->
  snd (geocontext points popLocations groups populations proportions kValues)
  = Raise e ->
  runtime_error e.
Proof.
  intros Hformat. unfold geocontext. rewrite Hformat.
  destruct checked as [[[multi gs] ps] ks].
  pose proof (for_point_runtime multi gs ps proportions (sort ks) points
                (assign_zero popLocations) []) as Hloop.
  destruct (for_point multi gs ps proportions (sort ks) points
              (assign_zero popLocations) []) as [rows results].
  simpl in *. intros H.
  destruct results as [results|e']; simpl in H.
  - destruct results as [|res results].
    + injection H as <-. right. right. right. right. eexists. reflexivity.
    + eapply finish_runtime. exact H.
  - injection H as ->. apply Hloop. reflexivity.
Qed.

(** C9, as the code has it, for a population specification that is not a
    bare string: [geocontext] raises one of the configuration errors exactly
    when the groups are not a list, or the populations are not a list, or
    the population list has a length other than one (zero included) that
    differs from the number of groups, or the k-values are not a list; and
    such an error comes from the format check, before anything is computed:
    the call returns the reference table as it received it. *)
Theorem C9_configuration_errors (points : list point) (popLocations : frame)
  (groups populations : object string) (proportions : list bool)
  (kValues : object Z) :
  (forall s, populations <> PyStr s) ->
  let outcome :=
    geocontext points popLocations groups populations proportions kValues in
  ((exists e, snd outcome = Raise e /\ configuration_error e)
   <-> invalid_configuration groups populations kValues)
  /\ (forall e, snd outcome = Raise e -> configuration_error e ->
        check_format groups populations kValues = Raise e
        /\ outcome = (popLocations, Raise e)).
Proof.
  intros Hstr. cbv zeta.
  assert (Hfrom : forall e,
             snd (geocontext points popLocations groups populations
                    proportions kValues) = Raise e ->
             configuration_error e ->
             check_format groups populations kValues = Raise e).
  { intros e He Hconf.
    destruct (check_format groups populations kValues) as [checked|e']
      eqn:Hformat.
    - exfalso.
      apply (runtime_not_configuration e); [|exact Hconf].
      eapply geocontext_runtime; eassumption.
    - rewrite (geocontext_format_error _ _ _ _ _ _ _ Hformat) in He.
      simpl in He. injection He as ->. reflexivity. }
  split; [split|].
  - intros (e & He & Hconf).
    apply Hfrom in He; [|exact Hconf].
    apply check_format_Raise in He. destruct He as [_ [Hinv|[s Hs]]].
    + exact Hinv.
    + exfalso. exact (Hstr s Hs).
  - intros Hinv. apply check_format_invalid in Hinv.
    destruct Hinv as [e He]. exists e. split.
    + rewrite (geocontext_format_error _ _ _ _ _ _ _ He). reflexivity.
    + apply check_format_Raise in He. tauto.
  - intros e He Hconf. pose proof (Hfrom e He Hconf) as Hformat.
    split; [exact Hformat|].
    apply geocontext_format_error. exact Hformat.
Qed.

(** C9 for a list of one population column: no configuration error. *)
Lemma C9_configuration_errors_witness :
  ((exists e,
       snd (geocontext [Examples.origin] (Plain Examples.three)
              (PyList ["G"; "H"]) (PyList ["Pop"]) [true; true] (PyList [4]))
       = Raise e /\ configuration_error e)
   <-> invalid_configuration (PyList ["G"; "H"]) (PyList ["Pop"])
         (PyList [4])).
Proof.
  apply (C9_configuration_errors [Examples.origin] (Plain Examples.three)
           (PyList ["G"; "H"]) (PyList ["Pop"]) [true; true] (PyList [4])).
  intros s. discriminate.
Defined.

(** C9 fails as stated: an empty population list with one group is none of
    the four cases of the specification (an empty list is a list, and its
    length is not greater than one), and [geocontext] raises the
    length-mismatch error for it. *)
Lemma C9_empty_population_list_rejected :
  snd (geocontext [Examples.origin] (Plain Examples.three)
         (PyList ["G"]) (PyList []) [true] (PyList [4]))
  = Raise (IndexError "populations need to have the same length as groups")
  /\ configuration_error
       (IndexError "populations need to have the same length as groups")
  /\ ~ spec_invalid_configuration (PyList ["G"]) (PyList []) (PyList [4]).
Proof.
  split; [reflexivity|]. split.
  - right. right. left. reflexivity.
  - intros [H|[H|[(gs & ps & _ & [= <-] & Hlen & _)|H]]];
      try discriminate H.
    simpl in Hlen. lia.
Qed.

(** A population specification that is a bare column name is rejected by
    the check of line 102, with the message that names it as accepted. *)
Lemma bare_population_name_rejected (groups : list string) (name : string)
  (kValues : object Z) :
  check_format (PyList groups) (PyStr name) kValues
  = Raise (TypeError
             "populations need to be a column name or a list with column names").
Proof.
  reflexivity.
Qed.

(** ** A k-value that is not positive *)

Lemma for_kValue_radii multi groups popLocations pop_Column groupIndex
  (ks : list Z) :
  forall population index unread radius_List res rl res',
    for_kValue multi groups popLocations pop_Column groupIndex ks population
      index unread radius_List res = Ok (rl, res') ->
    exists radii,
      rl = (radius_List ++ radii)%list
      /\ List.length radii = List.length ks
      /\ Forall (fun r => In r (map Distance popLocations)) radii.
Proof.
  induction ks as [|kValue ks IH];
    intros population index unread radius_List res rl res' H.
  - simpl in H. injection H as <- <-. exists [].
    rewrite app_nil_r. repeat split. constructor.
  - apply for_kValue_cons in H.
    destruct H as (population' & index' & unread' & radius & key
                   & _ & Hr & _ & H).
    apply IH in H. destruct H as (radii & -> & Hlen & Hin).
    exists (radius :: radii). split; [|split].
    + rewrite <- app_assoc. reflexivity.
    + simpl. rewrite Hlen. reflexivity.
    + constructor; [|exact Hin]. eapply iloc_In. exact Hr.
Qed.

Lemma ascending_last (before : list row) (d : row) :
  ascending (before ++ [d]) ->
  Forall (fun r => Distance r <= Distance d) (before ++ [d]).
Proof.
  unfold ascending. induction before as [|b before IH]; simpl; intros H.
  - constructor; [lia | constructor].
  - inversion H as [|? ? Hrest Hb]; subst. constructor.
    + rewrite Forall_forall in Hb. apply Hb.
      apply in_or_app. right. left. reflexivity.
    + apply IH. exact Hrest.
Qed.

Lemma while_population_nonpositive (unread : list Q) (kValue : Z) :
  kValue <= 0 ->
  while_population unread kValue 0%Q 0 = Ok (0%Q, 0, unread).
Proof.
  intros Hk. rewrite while_population_eq.
  destruct (Qltb 0 (inject_Z kValue)) eqn:E; [|reflexivity].
  apply Qltb_lt in E. change 0%Q with (inject_Z 0) in E.
  rewrite <- Zlt_Qlt in E. lia.
Qed.

Lemma constant_sorted (d : Z) (l : list Z) :
  Forall (fun r => r = d) l -> StronglySorted Z.le l.
Proof.
  induction 1 as [|r l Hr Hall IH]; constructor.
  - exact IH.
  - eapply Forall_impl; [|exact Hall]. simpl. intros; lia.
Qed.

(** C10, as the code has it: when the smallest k-value is not positive and
    the reference table is not empty, the [while] loop reads no row for it
    and the radius recorded for it, read at position [-1], is the distance
    of the last row of the ordering, the largest distance of the table.
    Every other radius is at most that distance, so the radii of the
    measure are ascending in k only when all of them equal it. *)
Theorem C10_radius_for_nonpositive_k (p : point) (rows : list row)
  (multi : bool) (groups : list string) (pop_Column : string)
  (groupIndex : nat) (kValue : Z) (ks : list Z) (res : dict) :
  rows <> [] -> kValue <= 0 ->
  let popLocations := sort_values (assign_distance p rows) in
  exists (before : list row) (far : row),
    popLocations = (before ++ [far])%list
    /\ while_population (column pop_Column popLocations) kValue 0%Q 0
       = Ok (0%Q, 0, column pop_Column popLocations)
    /\ iloc (map Distance popLocations) (0 - 1) = Ok (Distance far)
    /\ Forall (fun r => Distance r <= Distance far) popLocations
    /\ (forall radius_List res',
          for_kValue multi groups popLocations pop_Column groupIndex
            (kValue :: ks) 0%Q 0 (column pop_Column popLocations) [] res
          = Ok (radius_List, res') ->
          (exists radii,
              radius_List = Distance far :: radii
              /\ List.length radii = List.length ks
              /\ Forall (fun r => r <= Distance far) radii)
          /\ (StronglySorted Z.le radius_List
              <-> Forall (fun r => r = Distance far) radius_List)).
Proof.
  intros Hrows Hk. cbv zeta.
  set (popLocations := sort_values (assign_distance p rows)).
  assert (Hasc : ascending popLocations) by apply sort_values_ascending.
  assert (Hne : popLocations <> []).
  { intros Hnil.
    pose proof (Permutation_length (index_locations p rows)) as Hlen.
    fold popLocations in Hlen. rewrite Hnil in Hlen.
    rewrite length_map in Hlen. destruct rows; [congruence | discriminate]. }
  destruct (exists_last Hne) as (before & far & Hlast).
  exists before, far.
  assert (Hmax : Forall (fun r => Distance r <= Distance far) popLocations).
  { rewrite Hlast in *. apply ascending_last. exact Hasc. }
  assert (Hiloc : iloc (map Distance popLocations) (0 - 1)
                  = Ok (Distance far)).
  { rewrite Hlast, map_app. apply iloc_minus_one. }
  split; [exact Hlast|].
  split; [apply while_population_nonpositive; exact Hk|].
  split; [exact Hiloc|]. split; [exact Hmax|].
  intros radius_List res' H.
  apply for_kValue_cons in H.
  destruct H as (population' & index' & unread' & radius & key
                 & Hw & Hr & _ & H).
  rewrite while_population_nonpositive in Hw by exact Hk.
  injection Hw as <- <- <-.
  rewrite Hiloc in Hr. injection Hr as <-.
  apply for_kValue_radii in H. destruct H as (radii & -> & Hlen & Hin).
  assert (Hle : Forall (fun r => r <= Distance far) radii).
  { eapply Forall_impl; [|exact Hin]. simpl. intros r Hr.
    apply in_map_iff in Hr. destruct Hr as (x & <- & Hx).
    rewrite Forall_forall in Hmax. apply Hmax. exact Hx. }
  split.
  - exists radii. repeat split; assumption.
  - simpl. split.
    + intros Hsorted. inversion Hsorted as [|? ? _ Hlow]; subst.
      constructor; [reflexivity|].
      rewrite Forall_forall in *. intros r Hr.
      specialize (Hlow r Hr). specialize (Hle r Hr). lia.
    + intros Hall.
      apply (constant_sorted (Distance far) (Distance far :: radii)).
      exact Hall.
Qed.

(** C10 at the example table, for the k-values 0 and 1. *)
Lemma C10_radius_for_nonpositive_k_witness :
  exists (before : list row) (far : row),
    Examples.three_from_origin = (before ++ [far])%list
    /\ while_population (column "Pop" Examples.three_from_origin) 0 0%Q 0
       = Ok (0%Q, 0, column "Pop" Examples.three_from_origin)
    /\ iloc (map Distance Examples.three_from_origin) (0 - 1)
       = Ok (Distance far)
    /\ Forall (fun r => Distance r <= Distance far)
         Examples.three_from_origin
    /\ (forall radius_List res',
          for_kValue false ["G"] Examples.three_from_origin "Pop" 0
            [0; 1] 0%Q 0 (column "Pop" Examples.three_from_origin) [] []
          = Ok (radius_List, res') ->
          (exists radii,
              radius_List = Distance far :: radii
              /\ List.length radii = List.length [1]
              /\ Forall (fun r => r <= Distance far) radii)
          /\ (StronglySorted Z.le radius_List
              <-> Forall (fun r => r = Distance far) radius_List)).
Proof.
  apply (C10_radius_for_nonpositive_k Examples.origin
           (assign_zero (Plain Examples.three)) false ["G"] "Pop" 0%nat 0
           [1] []).
  - discriminate.
  - lia.
Defined.

(** C10 fails as stated: with the k-values 0 and 10 on the example table
    (populations 2, 3, 5) both radii are 10, the largest distance, and the
    radii are ascending in k. *)
Lemma C10_radii_ascending_with_k_zero :
  for_kValue false ["G"] Examples.three_from_origin "Pop" 0 [0; 10] 0%Q 0
    (column "Pop" Examples.three_from_origin) [] []
  = Ok ([10; 10], [("radius_k0", VInt 10); ("radius_k10", VInt 10)])
  /\ StronglySorted Z.le [10; 10]
  /\ exists added,
      snd (geocontext [Examples.origin] (Plain Examples.three)
             (PyList ["G"]) (PyList ["Pop"]) [true] (PyList [0; 10]))
      = Ok [(Examples.origin, added)]
      /\ dict_get "radius_k0" added = Some (VInt 10)
      /\ dict_get "radius_k10" added = Some (VInt 10).
Proof.
  split; [vm_compute; reflexivity|]. split.
  - repeat constructor; lia.
  - eexists. split; [vm_compute; reflexivity|]. split; reflexivity.
Qed.

(** ** The proportion flags *)

Lemma for_group_reads_one_flag proportions proportions' selection pop_Column
  groupIndex kValue (gs : list string) :
  nth_error proportions groupIndex = nth_error proportions' groupIndex ->
  forall res,
    for_group proportions selection pop_Column groupIndex kValue gs res
    = for_group proportions' selection pop_Column groupIndex kValue gs res.
Proof.
  intros Hflag. induction gs as [|group gs IH]; intros res; [reflexivity|].
  simpl. unfold getitem. rewrite Hflag.
  destruct (nth_error proportions' groupIndex) as [flag|]; [|reflexivity].
  simpl. destruct (statistic flag selection group pop_Column kValue res);
    simpl; [apply IH | reflexivity].
Qed.

(** C1: with one population column for all groups the statistic of every
    group is decided by the flag at [groupIndex], which stays 0: the loop
    over the groups reads no other flag.  With the groups ['G'], ['H'] and
    the flags [True, False] the row of a point holds the sum [group_H_k4]
    and neither [mean_H_k4] nor [std_H_k4], where the same call with one
    population column per group stores the weighted mean and standard
    deviation of ['H']; with the flags [False, True] the finishing pass
    looks for the column [group_H_k4], which was never stored, and the call
    raises [KeyError]. *)
Theorem C1_single_population_reads_first_flag :
  (forall proportions proportions' selection pop_Column groupIndex kValue gs
          res,
      nth_error proportions groupIndex = nth_error proportions' groupIndex ->
      for_group proportions selection pop_Column groupIndex kValue gs res
      = for_group proportions' selection pop_Column groupIndex kValue gs res)
  /\ (exists added,
        snd (geocontext [Examples.origin] (Plain Examples.three)
               (PyList ["G"; "H"]) (PyList ["Pop"]) [true; false]
               (PyList [4]))
        = Ok [(Examples.origin, added)]
        /\ dict_get "group_H_k4" added = Some (VNum (6 # 8))
        /\ dict_get "mean_H_k4" added = None
        /\ dict_get "std_H_k4" added = None)
  /\ (exists added,
        snd (geocontext [Examples.origin] (Plain Examples.three)
               (PyList ["G"; "H"]) (PyList ["Pop"; "Pop"]) [true; false]
               (PyList [4]))
        = Ok [(Examples.origin, added)]
        /\ dict_get "group_H_k4" added = None
        /\ dict_get "mean_H_k4" added = Some (VNum (14 # 40))
        /\ dict_get "std_H_k4" added
           = Some (VSqrt (12288000 # 819200000)))
  /\ snd (geocontext [Examples.origin] (Plain Examples.three)
            (PyList ["G"; "H"]) (PyList ["Pop"]) [false; true] (PyList [4]))
     = Raise (KeyError "group_H_k4").
Proof.
  split; [|split; [|split]].
  - intros. apply for_group_reads_one_flag. assumption.
  - eexists. split; [vm_compute; reflexivity|]. repeat split; reflexivity.
  - eexists. split; [vm_compute; reflexivity|]. repeat split; reflexivity.
  - vm_compute. reflexivity.
Qed.

(** * Further properties of the radius search *)

Lemma ascending_app (l1 l2 : list row) :
  ascending (l1 ++ l2) ->
  ascending l1 /\ ascending l2
  /\ forall x y, In x l1 -> In y l2 -> Distance x <= Distance y.
Proof.
  unfold ascending. induction l1 as [|a l1 IH]; simpl; intros H.
  - split; [constructor|]. split; [exact H|]. intros x y [].
  - inversion H as [|? ? Hrest Ha]; subst.
    destruct (IH Hrest) as (H1 & H2 & H12).
    rewrite Forall_app in Ha. destruct Ha as [Ha1 Ha2].
    split; [constructor; assumption|]. split; [exact H2|].
    intros x y [<-|Hx] Hy.
    + rewrite Forall_forall in Ha2. apply Ha2. exact Hy.
    + apply H12; assumption.
Qed.

Lemma filter_all {A : Type} (f : A -> bool) (l : list A) :
  (forall x, In x l -> f x = true) -> filter f l = l.
Proof.
  induction l as [|a l IH]; simpl; intros H; [reflexivity|].
  rewrite (H a) by (left; reflexivity). f_equal.
  apply IH. intros x Hx. apply H. right. exact Hx.
Qed.

Lemma filter_none {A : Type} (f : A -> bool) (l : list A) :
  (forall x, In x l -> f x = false) -> filter f l = [].
Proof.
  induction l as [|a l IH]; simpl; intros H; [reflexivity|].
  rewrite (H a) by (left; reflexivity).
  apply IH. intros x Hx. apply H. right. exact Hx.
Qed.

Lemma counts_app (c : string) (l1 l2 : list row) :
  counts c (l1 ++ l2) <-> counts c l1 /\ counts c l2.
Proof.
  apply Forall_app.
Qed.

Lemma counts_sum (c : string) (l : list row) :
  counts c l -> (0 <= Qsum (column c l))%Q.
Proof.
  intros H. apply Qsum_nonneg. unfold column. rewrite Forall_map. exact H.
Qed.

Lemma Qsum_column_app (c : string) (l1 l2 : list row) :
  (Qsum (column c (l1 ++ l2)) == Qsum (column c l1) + Qsum (column c l2))%Q.
Proof.
  unfold column. rewrite map_app. apply Qsum_app.
Qed.

(** Leaving rows out of a table of counts cannot raise its sum. *)
Lemma counts_filter (c : string) (f : row -> bool) (l : list row) :
  counts c l ->
  counts c (filter f l)
  /\ (Qsum (column c (filter f l)) <= Qsum (column c l))%Q.
Proof.
  induction 1 as [|r l Hr Hl [IH1 IH2]]; simpl.
  - split; [constructor | apply Qle_refl].
  - destruct (f r); simpl.
    + split; [constructor; assumption|].
      change (cells (snd r) c + Qsum (column c (filter f l))
              <= cells (snd r) c + Qsum (column c l))%Q. lra.
    + split; [exact IH1|].
      change (Qsum (column c (filter f l))
              <= cells (snd r) c + Qsum (column c l))%Q.
      cbv beta in Hr. lra.
Qed.

(** The population within the distance of the last of the rows read is at
    least the population of the rows read. *)
Lemma within_covers (c : string) (before todo : list row) (d : row) :
  ascending (before ++ d :: todo) -> counts c (before ++ d :: todo) ->
  (Qsum (column c (before ++ [d]))
   <= within (before ++ d :: todo) c (Distance d))%Q.
Proof.
  intros Hasc Hcounts. unfold within, select.
  replace (before ++ d :: todo)%list with ((before ++ [d]) ++ todo)%list
    in * by (rewrite <- app_assoc; reflexivity).
  rewrite filter_app.
  apply ascending_app in Hasc. destruct Hasc as (Hread & _ & _).
  apply ascending_last in Hread.
  rewrite filter_all.
  - rewrite (Qsum_column_app c (before ++ [d])).
    apply counts_app in Hcounts. destruct Hcounts as [_ Htodo].
    pose proof (counts_sum c _
                  (proj1 (counts_filter c
                            (fun r => Distance r <=? Distance d) todo Htodo))).
    lra.
  - intros x Hx. apply Z.leb_le.
    rewrite Forall_forall in Hread. apply Hread. exact Hx.
Qed.

(** The population within a smaller distance than that of the row [d] is
    at most the population of the rows before [d]. *)
Lemma within_below (c : string) (before todo : list row) (d : row) (x : Z) :
  ascending (before ++ d :: todo) -> counts c (before ++ d :: todo) ->
  x < Distance d ->
  (within (before ++ d :: todo) c x <= Qsum (column c before))%Q.
Proof.
  intros Hasc Hcounts Hx. unfold within, select.
  rewrite filter_app.
  rewrite (filter_none _ (d :: todo)).
  - rewrite app_nil_r. apply counts_app in Hcounts.
    apply counts_filter. tauto.
  - intros y Hy. apply Z.leb_gt.
    apply ascending_app in Hasc. destruct Hasc as (_ & Hrest & _).
    destruct Hy as [<-|Hy]; [exact Hx|].
    inversion Hrest as [|? ? _ Hd]; subst.
    rewrite Forall_forall in Hd. specialize (Hd y Hy). lia.
Qed.

Lemma nil_or_snoc {A : Type} (l : list A) :
  l = [] \/ exists l' x, l = (l' ++ [x])%list.
Proof.
  destruct l as [|a l]; [left; reflexivity | right].
  destruct (exists_last (l := a :: l)) as (l' & x & H); [discriminate|].
  exists l', x. exact H.
Qed.

Lemma firstn_column_snoc (c : string) (l : list row) (d : row) :
  firstn (List.length l) (column c (l ++ [d])) = column c l.
Proof.
  unfold column. rewrite map_app.
  rewrite <- (length_map (fun r => cells (snd r) c) l) at 1.
  rewrite firstn_app, Nat.sub_diag, firstn_all. simpl.
  apply app_nil_r.
Qed.

(** The invariant of the loop over the k-values: the accumulator is the
    population of the rows read, and it was below the last k-value before
    the last of them was read. *)
Lemma for_kValue_smallest multi groups pop_Column groupIndex
  (popLocations : list row) :
  ascending popLocations -> counts pop_Column popLocations ->
  forall (ks : list Z) (done todo : list row) population (kprev : Z)
         radius_List res rl res',
    popLocations = (done ++ todo)%list ->
    StronglySorted Z.le ks ->
    Forall (fun k => kprev <= k /\ 0 < k) ks ->
    (population == Qsum (column pop_Column done))%Q ->
    (done = []
     \/ exists before d,
         done = (before ++ [d])%list
         /\ (Qsum (column pop_Column before) < inject_Z kprev)%Q) ->
    for_kValue multi groups popLocations pop_Column groupIndex ks population
      (Z.of_nat (List.length done)) (column pop_Column todo) radius_List res
    = Ok (rl, res') ->
    exists radii,
      rl = (radius_List ++ radii)%list
      /\ Forall2 (smallest_radius popLocations pop_Column) ks radii.
Proof.
  intros Hasc Hcounts.
  induction ks as [|k ks IH];
    intros done todo population kprev radius_List res rl res'
      Htable Hsorted Hks Hpop Hread H.
  - simpl in H. injection H as <- <-. exists [].
    rewrite app_nil_r. split; [reflexivity | constructor].
  - apply for_kValue_cons in H.
    destruct H as (population' & index' & unread' & radius & key
                   & Hw & Hr & _ & H).
    apply while_population_rows in Hw.
    destruct Hw as (consumed & todo' & -> & -> & -> & Hacc & Hk & Hlt & Hlast).
    rewrite <- Htable in Hlast.
    pose proof (Forall_inv Hks) as [Hprev Hpositive].
    pose proof (Forall_inv_tail Hks) as Hks'.
    apply StronglySorted_inv in Hsorted. destruct Hsorted as [Hsorted' Hleast].
    assert (Hk0 : (0 < inject_Z k)%Q)
      by (change 0%Q with (inject_Z 0); rewrite <- Zlt_Qlt; exact Hpositive).
    assert (Hprevk : (inject_Z kprev <= inject_Z k)%Q)
      by (rewrite <- Zle_Qle; exact Hprev).
    assert (Hpop' : (population'
                     == Qsum (column pop_Column (done ++ consumed)))%Q).
    { rewrite Hacc, fold_left_Qsum, Qsum_column_app, Hpop. reflexivity. }
    assert (Hread' : exists before' d',
               (done ++ consumed = before' ++ [d'])%list
               /\ (Qsum (column pop_Column before') < inject_Z k)%Q).
    { destruct (nil_or_snoc consumed) as [->|(c & d' & ->)].
      - rewrite app_nil_r in *. simpl in Hacc. subst population'.
        destruct Hread as [->|(before & d & -> & Hbefore)].
        + simpl in Hpop. exfalso. lra.
        + exists before, d. split; [reflexivity | lra].
      - exists (done ++ c)%list, d'. split; [apply app_assoc|].
        specialize (Hlt (List.length c)).
        rewrite length_app in Hlt. simpl in Hlt.
        rewrite firstn_column_snoc, fold_left_Qsum in Hlt.
        rewrite Qsum_column_app. rewrite <- Hpop.
        apply Hlt. lia. }
    destruct Hread' as (before' & d' & Hsplit & Hbelow).
    rewrite (Hlast before' d' Hsplit) in Hr. injection Hr as <-.
    assert (Htable' : popLocations = (before' ++ d' :: todo')%list).
    { rewrite Htable, app_assoc, Hsplit, <- app_assoc. reflexivity. }
    assert (Hsmallest :
              smallest_radius popLocations pop_Column k (Distance d')).
    { split.
      - pose proof (within_covers pop_Column before' todo' d') as Hcov.
        rewrite <- Htable' in Hcov. specialize (Hcov Hasc Hcounts).
        rewrite <- Hsplit in Hcov. lra.
      - intros x Hx.
        pose proof (within_below pop_Column before' todo' d' x) as Hbel.
        rewrite <- Htable' in Hbel. specialize (Hbel Hasc Hcounts Hx).
        lra. }
    apply (IH (done ++ consumed)%list todo' population' k) in H.
    + destruct H as (radii & -> & Hall).
      exists (Distance d' :: radii). split.
      * rewrite <- app_assoc. reflexivity.
      * constructor; assumption.
    + rewrite Htable, app_assoc. reflexivity.
    + exact Hsorted'.
    + rewrite Forall_forall in *. intros k' Hk'.
      split; [apply Hleast; exact Hk' | apply Hks'; exact Hk'].
    + exact Hpop'.
    + right. exists before', d'. split; assumption.
Qed.

Lemma sort_Forall (P : Z -> Prop) (l : list Z) :
  Forall P l -> Forall P (sort l).
Proof.
  intros H. eapply Permutation_Forall; [|exact H].
  apply Permutation_sym, sort_perm.
Qed.

Lemma whole_counts (c : string) (rows : list row) :
  whole c rows -> counts c rows.
Proof.
  intros [H _]. unfold counts. eapply Forall_impl; [|exact H].
  intros r (n & Hn & Heq). simpl. rewrite Heq.
  change 0%Q with (inject_Z 0). rewrite <- Zle_Qle. exact Hn.
Qed.

Lemma radius_smallest_sorted (popLocations : list row) (multi : bool)
  (groups : list string) (pop_Column : string) (groupIndex : nat)
  (kValues : list Z) (res : dict) (radius_List : list Z) (res' : dict) :
  ascending popLocations ->
  counts pop_Column popLocations ->
  Forall (fun k => 0 < k) kValues ->
  for_kValue multi groups popLocations pop_Column groupIndex (sort kValues)
    0%Q 0 (column pop_Column popLocations) [] res = Ok (radius_List, res') ->
  Forall2 (smallest_radius popLocations pop_Column) (sort kValues)
    radius_List.
Proof.
  intros Hasc Hcounts Hpositive H.
  destruct (for_kValue_smallest multi groups pop_Column groupIndex
              popLocations Hasc Hcounts
              (sort kValues) [] popLocations 0%Q 0 [] res radius_List res')
    as (radii & -> & Hall).
  - reflexivity.
  - apply sort_sorted.
  - apply sort_Forall. eapply Forall_impl; [|exact Hpositive].
    simpl. intros; lia.
  - reflexivity.
  - left. reflexivity.
  - exact H.
  - exact Hall.
Qed.

(** Solves [whole c rows] on a table given in full. *)
Ltac whole_column :=
  split;
  [ repeat (first
      [ apply Forall_nil
      | apply Forall_cons;
        [ match goal with
          | |- exists n : Z, _ /\ (?q == _)%Q =>
              let z := eval vm_compute in (Qnum q) in
              exists z; split; [lia | reflexivity]
          end
        | ] ])
  | reflexivity ].

(** X1: the radius recorded for a k-value is the radius of the notebook's
    introduction.  On a table in ascending order of distance whose
    population column holds whole numbers (none negative, total below
    2^53, so that the running sum of the code is exact), and for positive
    k-values, the population within the radius recorded for k is at least
    k, and the population within any smaller distance is below k. *)
Theorem radius_is_smallest (popLocations : list row) (multi : bool)
  (groups : list string) (pop_Column : string) (groupIndex : nat)
  (kValues : list Z) (res : dict) (radius_List : list Z) (res' : dict) :
  ascending popLocations ->
  whole pop_Column popLocations ->
  Forall (fun k => 0 < k) kValues ->
  for_kValue multi groups popLocations pop_Column groupIndex (sort kValues)
    0%Q 0 (column pop_Column popLocations) [] res = Ok (radius_List, res') ->
  Forall2 (smallest_radius popLocations pop_Column) (sort kValues) radius_List.
Proof.
  intros Hasc Hwhole Hpositive H.
  eapply radius_smallest_sorted; try eassumption.
  apply whole_counts. exact Hwhole.
Qed.

(** X1 at the example table, for the k-values 7 and 4: the radii are 5
    and 10. *)
Lemma radius_is_smallest_witness :
  Forall2 (smallest_radius Examples.three_from_origin "Pop") [4; 7] [5; 10].
Proof.
  apply (radius_is_smallest Examples.three_from_origin false ["G"] "Pop"
           0%nat [7; 4] [] [5; 10]
           [("radius_k4", VInt 5); ("radius_k7", VInt 10)]).
  - apply sort_values_ascending.
  - whole_column.
  - repeat constructor.
  - reflexivity.
Defined.

Lemma filter_perm {A : Type} (f : A -> bool) (l1 l2 : list A) :
  Permutation l1 l2 -> Permutation (filter f l1) (filter f l2).
Proof.
  induction 1 as [|x l1 l2 _ IH|x y l|l1 l2 l3 _ IH1 _ IH2]; simpl.
  - apply perm_nil.
  - destruct (f x); [apply perm_skip|]; exact IH.
  - destruct (f x), (f y); try apply Permutation_refl. apply perm_swap.
  - eapply perm_trans; eassumption.
Qed.

Lemma within_perm (c : string) (t1 t2 : list row) (d : Z) :
  Permutation t1 t2 -> (within t1 c d == within t2 c d)%Q.
Proof.
  intros H. unfold within, select, column.
  apply Qsum_perm, Permutation_map, filter_perm. exact H.
Qed.

Lemma smallest_radius_unique (c : string) (t1 t2 : list row) (k r1 r2 : Z) :
  Permutation t1 t2 ->
  smallest_radius t1 c k r1 -> smallest_radius t2 c k r2 -> r1 = r2.
Proof.
  intros Hperm [Hreach1 Hmin1] [Hreach2 Hmin2].
  destruct (Z.lt_trichotomy r1 r2) as [Hlt|[Heq|Hgt]]; [|exact Heq|].
  - specialize (Hmin2 r1 Hlt).
    rewrite <- (within_perm c t1 t2 r1 Hperm) in Hmin2. exfalso. lra.
  - specialize (Hmin1 r2 Hgt).
    rewrite (within_perm c t1 t2 r2 Hperm) in Hmin1. exfalso. lra.
Qed.

(** X2: the radii do not depend on the order of the rows.  Two tables
    that hold the same rows, both in ascending order of distance (they can
    differ in the order of rows of equal distance, whatever order the
    reference table had before the call and however the sort breaks ties),
    give the same radii, for a population column of whole numbers and
    positive k-values. *)
Theorem radius_independent_of_row_order (popLocations1 popLocations2 : list row)
  (multi1 multi2 : bool) (groups1 groups2 : list string) (pop_Column : string)
  (groupIndex1 groupIndex2 : nat) (kValues : list Z) (res1 res2 : dict)
  (radius_List1 radius_List2 : list Z) (res1' res2' : dict) :
  Permutation popLocations1 popLocations2 ->
  ascending popLocations1 ->
  ascending popLocations2 ->
  whole pop_Column popLocations1 ->
  Forall (fun k => 0 < k) kValues ->
  for_kValue multi1 groups1 popLocations1 pop_Column groupIndex1
    (sort kValues) 0%Q 0 (column pop_Column popLocations1) [] res1
  = Ok (radius_List1, res1') ->
  for_kValue multi2 groups2 popLocations2 pop_Column groupIndex2
    (sort kValues) 0%Q 0 (column pop_Column popLocations2) [] res2
  = Ok (radius_List2, res2') ->
  radius_List1 = radius_List2.
Proof.
  intros Hperm Hasc1 Hasc2 Hwhole Hpositive H1 H2.
  pose proof (whole_counts _ _ Hwhole) as Hcounts1.
  assert (Hcounts2 : counts pop_Column popLocations2)
    by (eapply Permutation_Forall; [exact Hperm | exact Hcounts1]).
  apply radius_smallest_sorted in H1; try assumption.
  apply radius_smallest_sorted in H2; try assumption.
  revert radius_List2 H2.
  induction H1 as [|k r1 ks radii1 Hr1 _ IH]; intros radius_List2 H2;
    inversion H2 as [|? r2 ? radii2 Hr2 Hrest]; subst.
  - reflexivity.
  - f_equal.
    + eapply smallest_radius_unique; eassumption.
    + apply IH. exact Hrest.
Qed.

(** X3 at the example table, for the k-values 4 and 7. *)
Lemma radius_List_ascending_witness :
  StronglySorted Z.le [5; 10].
Proof.
  apply (radius_List_ascending false ["G"] Examples.three_from_origin "Pop"
           0%nat 4 [7] [] [5; 10]
           [("radius_k4", VInt 5); ("radius_k7", VInt 10)]).
  - apply sort_values_ascending.
  - lia.
  - reflexivity.
Defined.

(** ** The walk on an int64 column *)

Lemma Qltb_Zltb (q : Q) (z k : Z) :
  (q == inject_Z z)%Q -> Qltb q (inject_Z k) = (z <? k).
Proof.
  intros Hq. destruct (z <? k) eqn:E.
  - apply Qltb_lt. rewrite Hq, <- Zlt_Qlt. apply Z.ltb_lt. exact E.
  - apply Qltb_ge. rewrite Hq, <- Zle_Qle. apply Z.ltb_ge. exact E.
Qed.

(** On a column of non-negative integers whose total stays below 2^63 the
    walk of the model is the walk of the code on int64: the same rows are
    read, the accumulators are equal, and both raise or neither. *)
Lemma while_population_int64_exact (unread : list Z) (kValue : Z) :
  forall (population index : Z) (q : Q),
    Forall (fun p => 0 <= p) unread ->
    0 <= population ->
    population + fold_right Z.add 0 unread < 2 ^ 63 ->
    (q == inject_Z population)%Q ->
    match while_population (map inject_Z unread) kValue q index,
          while_population_int64 unread kValue population index with
    | Ok (q', i, rest), Ok (z', i', rest') =>
        (q' == inject_Z z')%Q /\ i = i' /\ rest = map inject_Z rest'
    | Raise e, Raise e' => e = e'
    | _, _ => False
    end.
Proof.
  induction unread as [|p unread IH]; intros population index q Hall Hpop Hsum Hq;
    rewrite while_population_eq; simpl while_population_int64;
    rewrite (Qltb_Zltb q population kValue Hq);
    destruct (population <? kValue).
  - reflexivity.
  - split; [exact Hq|]. split; reflexivity.
  - simpl map. simpl in Hsum.
    pose proof (Forall_inv Hall) as Hp. apply Forall_inv_tail in Hall.
    simpl in Hp.
    assert (Hfold : 0 <= fold_right Z.add 0 unread).
    { clear -Hall. induction Hall as [|x l Hx _ IH]; simpl; lia. }
    rewrite (int64_small (population + p))
      by (change (2 ^ 63) with 9223372036854775808 in *; lia).
    apply IH; [exact Hall | lia | lia|].
    rewrite Hq, inject_Z_plus. reflexivity.
  - split; [exact Hq|]. split; reflexivity.
Qed.

(** ** When the radius search succeeds *)

Lemma while_population_sufficient (unread : list Q) (kValue : Z) :
  forall population index,
    (inject_Z kValue <= population + Qsum unread)%Q ->
    exists out, while_population unread kValue population index = Ok out.
Proof.
  induction unread as [|p unread IH]; intros population index H;
    rewrite while_population_eq;
    destruct (Qltb population (inject_Z kValue)) eqn:E;
    try (eexists; reflexivity).
  - apply Qltb_lt in E. simpl in H. exfalso. lra.
  - apply IH. change (Qsum (p :: unread)) with (p + Qsum unread)%Q in H. lra.
Qed.

Lemma for_kValue_sufficient multi groups pop_Column groupIndex
  (popLocations : list row) :
  (multi = true -> (groupIndex < List.length groups)%nat) ->
  forall (ks : list Z) (done todo : list row) population radius_List res,
    popLocations = (done ++ todo)%list ->
    (population == Qsum (column pop_Column done))%Q ->
    Forall (fun k => 0 < k
                     /\ (inject_Z k <= Qsum (column pop_Column popLocations))%Q)
           ks ->
    exists out,
      for_kValue multi groups popLocations pop_Column groupIndex ks population
        (Z.of_nat (List.length done)) (column pop_Column todo) radius_List res
      = Ok out.
Proof.
  intros Hgroup.
  induction ks as [|k ks IH];
    intros done todo population radius_List res Htable Hpop Hks.
  - eexists. reflexivity.
  - pose proof (Forall_inv Hks) as [Hpositive Hk].
    pose proof (Forall_inv_tail Hks) as Hks'.
    assert (Hk0 : (0 < inject_Z k)%Q)
      by (change 0%Q with (inject_Z 0); rewrite <- Zlt_Qlt; exact Hpositive).
    destruct (while_population_sufficient (column pop_Column todo) k
                population (Z.of_nat (List.length done)))
      as ([[population' index'] unread'] & Hw).
    { rewrite Htable, Qsum_column_app in Hk. lra. }
    simpl. rewrite Hw. simpl.
    apply while_population_rows in Hw.
    destruct Hw as (consumed & todo' & -> & -> & -> & Hacc & Hreach & _
                    & Hlast).
    rewrite <- Htable in Hlast.
    assert (Hpop' : (population'
                     == Qsum (column pop_Column (done ++ consumed)))%Q).
    { rewrite Hacc, fold_left_Qsum, Qsum_column_app, Hpop. reflexivity. }
    destruct (nil_or_snoc (done ++ consumed)) as [Hnil|(before & d & Hsplit)].
    { rewrite Hnil in Hpop'. simpl in Hpop'. exfalso. lra. }
    rewrite (Hlast before d Hsplit). simpl.
    assert (Hkey : exists key,
               radius_key multi groups groupIndex k = Ok key).
    { unfold radius_key, getitem. destruct multi; [|eexists; reflexivity].
      destruct (nth_error groups groupIndex) as [g|] eqn:Hg.
      - eexists. reflexivity.
      - apply nth_error_None in Hg. specialize (Hgroup eq_refl). lia. }
    destruct Hkey as [key ->]. simpl.
    apply IH; [|exact Hpop' | exact Hks'].
    rewrite Htable, app_assoc. reflexivity.
Qed.

(** X4: the radius search of a population column succeeds exactly when no
    k-value exceeds the total of the column, for a population column of
    whole numbers (none negative, total below 2^53) and positive k-values;
    with one population column per group, for a group index within the
    group list. *)
Theorem radius_search_succeeds_iff (popLocations : list row)
  (multi : bool) (groups : list string) (pop_Column : string)
  (groupIndex : nat) (kValues : list Z) (res : dict) :
  whole pop_Column popLocations ->
  Forall (fun k => 0 < k) kValues ->
  (multi = true -> (groupIndex < List.length groups)%nat) ->
  (exists out,
      for_kValue multi groups popLocations pop_Column groupIndex
        (sort kValues) 0%Q 0 (column pop_Column popLocations) [] res = Ok out)
  <-> Forall (fun k => inject_Z k <= Qsum (column pop_Column popLocations))%Q
        kValues.
Proof.
  intros Hwhole Hpositive Hgroup.
  pose proof (whole_counts _ _ Hwhole) as Hcounts. split.
  - intros [out Hout]. apply Forall_forall. intros k Hk.
    destruct (Qlt_le_dec (Qsum (column pop_Column popLocations)) (inject_Z k))
      as [Hlt|Hle]; [|exact Hle].
    exfalso.
    destruct (for_kValue_insufficient multi groups popLocations pop_Column
                groupIndex k (sort kValues) 0%Q 0
                (column pop_Column popLocations) [] res) as (e & He & _).
    + eapply Permutation_in; [apply Permutation_sym, sort_perm | exact Hk].
    + unfold column. rewrite Forall_map. exact Hcounts.
    + lra.
    + rewrite He in Hout. discriminate Hout.
  - intros Hall.
    apply (for_kValue_sufficient multi groups pop_Column groupIndex
             popLocations Hgroup (sort kValues) [] popLocations 0%Q [] res).
    + reflexivity.
    + reflexivity.
    + apply sort_Forall. rewrite Forall_forall in *. intros k Hk.
      split; [apply Hpositive; exact Hk|].
      apply Hall. exact Hk.
Qed.

(** X4 at the example table, whose populations sum to 10. *)
Lemma radius_search_succeeds_iff_witness :
  (exists out,
      for_kValue false ["G"] Examples.three_from_origin "Pop" 0
        (sort [10; 4]) 0%Q 0 (column "Pop" Examples.three_from_origin) [] []
      = Ok out)
  <-> Forall (fun k => inject_Z k
                       <= Qsum (column "Pop" Examples.three_from_origin))%Q
        [10; 4].
Proof.
  apply (radius_search_succeeds_iff Examples.three_from_origin false ["G"]
           "Pop" 0%nat [10; 4] []).
  - whole_column.
  - repeat constructor.
  - discriminate.
Defined.

(** * The output table *)

(** ** Dictionaries *)

Lemma dict_get_set_same (key : string) (v : value) (d : dict) :
  dict_get key (dict_set key v d) = Some v.
Proof.
  induction d as [|[k w] d IH]; simpl.
  - rewrite String.eqb_refl. reflexivity.
  - destruct (String.eqb k key) eqn:E; simpl; rewrite E; [reflexivity|].
    exact IH.
Qed.

Lemma dict_get_set_other (key k : string) (v : value) (d : dict) :
  key <> k -> dict_get key (dict_set k v d) = dict_get key d.
Proof.
  intros Hne. induction d as [|[k' w] d IH]; simpl.
  - destruct (String.eqb k key) eqn:E; [|reflexivity].
    apply String.eqb_eq in E. congruence.
  - destruct (String.eqb k' k) eqn:E; simpl.
    + apply String.eqb_eq in E. subst k'.
      destruct (String.eqb k key) eqn:E'; [|reflexivity].
      apply String.eqb_eq in E'. congruence.
    + destruct (String.eqb k' key); [reflexivity | exact IH].
Qed.

(** Assignment never removes a key. *)
Lemma dict_set_keeps (key k : string) (v : value) (d : dict) :
  dict_get key d <> None -> dict_get key (dict_set k v d) <> None.
Proof.
  intros H. destruct (string_dec key k) as [->|Hne].
  - rewrite dict_get_set_same. discriminate.
  - rewrite dict_get_set_other by exact Hne. exact H.
Qed.

(** ** Column names *)

Lemma length_append (s1 s2 : string) :
  String.length (s1 ++ s2) = (String.length s1 + String.length s2)%nat.
Proof.
  induction s1 as [|c s1 IH]; simpl; [reflexivity|].
  rewrite IH. reflexivity.
Qed.

Lemma append_cancel_r (s : string) :
  forall g g' : string, g ++ s = g' ++ s -> g = g'.
Proof.
  induction g as [|c g IH]; intros [|c' g'] H; simpl in H.
  - reflexivity.
  - apply (f_equal String.length) in H. simpl in H.
    rewrite length_append in H. lia.
  - apply (f_equal String.length) in H. simpl in H.
    rewrite length_append in H. lia.
  - injection H as <- H. f_equal. apply IH. exact H.
Qed.

(** For one k-value, different groups have different [mean_] columns. *)
Lemma mean_name_inj (kValue : Z) (g g' : string) :
  mean_name g kValue = mean_name g' kValue -> g = g'.
Proof.
  unfold mean_name. intros H.
  injection H as H. eapply append_cancel_r. exact H.
Qed.

Lemma mean_name_prefix (group : string) (kValue : Z) :
  prefix "mean_" (mean_name group kValue) = true.
Proof.
  unfold mean_name.
  change ("mean_" ++ group ++ "_k" ++ str kValue)
    with (String "m"%char (String "e"%char (String "a"%char
            (String "n"%char (String "_"%char
               (group ++ "_k" ++ str kValue)))))).
  cbn.
  match goal with
  | |- prefix "" ?rest = true => destruct rest; reflexivity
  end.
Qed.

Lemma group_name_not_mean (group g : string) (kValue k : Z) :
  group_name group kValue <> mean_name g k.
Proof.
  unfold group_name, mean_name. intros H. discriminate H.
Qed.

Lemma total_name_not_mean (multi : bool) (group g : string) (kValue k : Z) :
  total_name multi group kValue <> mean_name g k.
Proof.
  unfold total_name, mean_name. destruct multi; intros H; discriminate H.
Qed.

Lemma not_mean_prefix (key group : string) (kValue : Z) :
  prefix "mean_" key = false -> key <> mean_name group kValue.
Proof.
  intros H ->. rewrite mean_name_prefix in H. discriminate H.
Qed.

(** ** The finishing pass *)

Lemma table_column_Ok (key : string) (t : table) (col : list value) :
  table_column key t = Ok col -> col = map (cell key) t.
Proof.
  unfold table_column. destruct (existsb _ t); [|discriminate].
  intros [= <-]. reflexivity.
Qed.

Lemma combine_map_map {A B C : Type} (f : A -> B) (g : A -> C) (l : list A) :
  combine (map f l) (map g l) = map (fun x => (f x, g x)) l.
Proof.
  induction l as [|a l IH]; simpl; [reflexivity|]. f_equal. exact IH.
Qed.

Lemma table_assign_map (key : string) (f : point * dict -> value) (t : table) :
  table_assign key (map f t) t
  = map (fun r => (fst r, dict_set key (f r) (snd r))) t.
Proof.
  unfold table_assign.
  rewrite <- (map_id t) at 1. rewrite combine_map_map, map_map. reflexivity.
Qed.

(** What the finishing pass writes into a row for one group and k-value. *)
Lemma finish_group_cons multi proportions kValue group gs groupIndex
  (t t' : table) :
  finish_group multi proportions kValue (group :: gs) groupIndex t = Ok t' ->
  exists (flag : bool) (t1 : table),
    getitem proportions groupIndex = Ok flag
    /\ t1 = (if flag then
               map (fun r =>
                      (fst r,
                       dict_set (mean_name group kValue)
                         (divide (cell (group_name group kValue) r)
                                 (cell (total_name multi group kValue) r))
                         (snd r))) t
             else t)
    /\ finish_group multi proportions kValue gs (S groupIndex) t1 = Ok t'.
Proof.
  simpl. intros H.
  apply bind_Ok in H. destruct H as (flag & Hflag & H).
  apply bind_Ok in H. destruct H as (t1 & Ht1 & H).
  exists flag, t1. split; [exact Hflag|]. split; [|exact H].
  destruct flag; [|injection Ht1 as <-; reflexivity].
  apply bind_Ok in Ht1. destruct Ht1 as (num & Hnum & Ht1).
  apply bind_Ok in Ht1. destruct Ht1 as (den & Hden & Ht1).
  injection Ht1 as <-.
  apply table_column_Ok in Hnum. apply table_column_Ok in Hden.
  fold (total_name multi group kValue) in Hden.
  subst num den. rewrite combine_map_map, map_map. simpl.
  apply (table_assign_map (mean_name group kValue)
           (fun r => divide (cell (group_name group kValue) r)
                            (cell (total_name multi group kValue) r))).
Qed.

(** The pass over the groups works row by row. *)
Lemma finish_group_rows multi proportions kValue (gs : list string) :
  forall groupIndex (t t' : table),
    finish_group multi proportions kValue gs groupIndex t = Ok t' ->
    exists F : point * dict -> point * dict,
      t' = map F t
      /\ forall r,
          fst (F r) = fst r
          /\ (forall key,
                 (forall g, In g gs -> key <> mean_name g kValue) ->
                 dict_get key (snd (F r)) = dict_get key (snd r))
          /\ (NoDup gs ->
              forall i group,
                nth_error gs i = Some group ->
                nth_error proportions (groupIndex + i) = Some true ->
                dict_get (mean_name group kValue) (snd (F r))
                = Some (divide (cell (group_name group kValue) r)
                               (cell (total_name multi group kValue) r))).
Proof.
  induction gs as [|group gs IH]; intros groupIndex t t' H.
  - simpl in H. injection H as <-. exists (fun r => r).
    split; [symmetry; apply map_id|]. intros r.
    split; [reflexivity|]. split; [reflexivity|].
    intros _ [|i] g Hg; discriminate Hg.
  - apply finish_group_cons in H.
    destruct H as (flag & t1 & Hflag & Ht1 & H).
    apply IH in H. destruct H as (F & -> & HF).
    set (f1 := fun r : point * dict =>
                 if flag then
                   (fst r,
                    dict_set (mean_name group kValue)
                      (divide (cell (group_name group kValue) r)
                              (cell (total_name multi group kValue) r))
                      (snd r))
                 else r).
    assert (Hmap : t1 = map f1 t).
    { subst t1 f1. destruct flag; [reflexivity|]. symmetry. apply map_id. }
    assert (Hframe1 : forall r key,
               key <> mean_name group kValue ->
               dict_get key (snd (f1 r)) = dict_get key (snd r)).
    { intros r key Hne. unfold f1. destruct flag; [|reflexivity].
      simpl. apply dict_get_set_other. exact Hne. }
    assert (Hcell1 : forall r key,
               key <> mean_name group kValue -> cell key (f1 r) = cell key r).
    { intros r key Hne. unfold cell. rewrite Hframe1 by exact Hne.
      reflexivity. }
    exists (fun r => F (f1 r)). split; [rewrite Hmap, map_map; reflexivity|].
    intros r. destruct (HF (f1 r)) as (Hfst & Hframe & Hmeans).
    split; [|split].
    + rewrite Hfst. unfold f1. destruct flag; reflexivity.
    + intros key Hkey. rewrite Hframe.
      * apply Hframe1. apply Hkey. left. reflexivity.
      * intros g Hg. apply Hkey. right. exact Hg.
    + intros Hnodup i g Hg Htrue.
      apply NoDup_cons_iff in Hnodup. destruct Hnodup as [Hnotin Hnodup].
      destruct i as [|i]; simpl in Hg.
      * injection Hg as <-. rewrite Nat.add_0_r in Htrue.
        unfold getitem in Hflag. rewrite Htrue in Hflag.
        injection Hflag as <-.
        rewrite Hframe.
        -- unfold f1. simpl. apply dict_get_set_same.
        -- intros g Hg Heq. apply mean_name_inj in Heq. subst g.
           exact (Hnotin Hg).
      * rewrite (Hmeans Hnodup i g Hg).
        -- rewrite !Hcell1; [reflexivity | apply total_name_not_mean
                                         | apply group_name_not_mean].
        -- rewrite <- Htrue. f_equal. lia.
Qed.

Lemma finish_rows multi groups proportions (ks : list Z) :
  forall t t' : table,
    finish multi groups proportions ks t = Ok t' ->
    exists F : point * dict -> point * dict,
      t' = map F t
      /\ forall r,
          fst (F r) = fst r
          /\ forall key,
              prefix "mean_" key = false ->
              dict_get key (snd (F r)) = dict_get key (snd r).
Proof.
  induction ks as [|kValue ks IH]; intros t t' H.
  - simpl in H. injection H as <-. exists (fun r => r).
    split; [symmetry; apply map_id|]. intros r. split; reflexivity.
  - simpl in H. apply bind_Ok in H. destruct H as (t1 & H1 & H).
    apply finish_group_rows in H1. destruct H1 as (F1 & -> & HF1).
    apply IH in H. destruct H as (F & -> & HF).
    exists (fun r => F (F1 r)). split; [rewrite map_map; reflexivity|].
    intros r. destruct (HF (F1 r)) as [Hfst Hframe].
    destruct (HF1 r) as (Hfst1 & Hframe1 & _).
    split; [rewrite Hfst; exact Hfst1|].
    intros key Hkey. rewrite Hframe by exact Hkey.
    apply Hframe1. intros g _. apply not_mean_prefix. exact Hkey.
Qed.

Lemma finish_writes_rows multi groups proportions ks (t t' : table) :
  finish multi groups proportions ks t = Ok t' -> map fst t' = map fst t.
Proof.
  intros H. apply finish_rows in H. destruct H as (F & -> & HF).
  rewrite map_map. apply map_ext. intros r. apply HF.
Qed.

(** X5: the finishing pass writes [mean_] columns only.  It keeps the rows
    and their points, and in every row every column whose name does not
    start with [mean_] (the radii, the sums, the standard deviations and
    the totals) keeps the value the pass over the points gave it. *)
Theorem finish_writes_means_only (multi : bool) (groups : list string)
  (proportions : list bool) (ks : list Z) (t t' : table) :
  finish multi groups proportions ks t = Ok t' ->
  map fst t' = map fst t
  /\ forall key,
      prefix "mean_" key = false ->
      map (fun r => dict_get key (snd r)) t'
      = map (fun r => dict_get key (snd r)) t.
Proof.
  intros H. apply finish_rows in H. destruct H as (F & -> & HF).
  split.
  - rewrite map_map. apply map_ext. intros r. apply HF.
  - intros key Hkey. rewrite map_map. apply map_ext. intros r.
    apply HF. exact Hkey.
Qed.

(** For one k-value and a list of distinct groups, after the finishing
    pass every row holds, for each group whose flag is true, the column
    [mean_<group>_k<k>] equal to the row's [group_<group>_k<k>] divided by
    its total ([total_<group>_k<k>] with one population column per group,
    [total_k<k>] with one for all). *)
Lemma finish_group_means (multi : bool) (proportions : list bool)
  (kValue : Z) (gs : list string) (groupIndex : nat) (t t' : table) :
  NoDup gs ->
  finish_group multi proportions kValue gs groupIndex t = Ok t' ->
  List.length t' = List.length t
  /\ forall n r i group,
      nth_error t n = Some r ->
      nth_error gs i = Some group ->
      nth_error proportions (groupIndex + i) = Some true ->
      exists r',
        nth_error t' n = Some r'
        /\ fst r' = fst r
        /\ dict_get (mean_name group kValue) (snd r')
           = Some (divide (cell (group_name group kValue) r)
                          (cell (total_name multi group kValue) r)).
Proof.
  intros Hnodup H. apply finish_group_rows in H.
  destruct H as (F & -> & HF). split; [apply length_map|].
  intros n r i group Hr Hg Htrue. exists (F r).
  split; [rewrite nth_error_map, Hr; reflexivity|].
  destruct (HF r) as (Hfst & _ & Hmeans).
  split; [exact Hfst|]. apply (Hmeans Hnodup i group Hg Htrue).
Qed.

(** ** One row per point *)

Lemma for_point_results multi groups populations proportions kValues
  (points : list point) :
  forall popLocations results results',
    snd (for_point multi groups populations proportions kValues points
           popLocations results) = Ok results' ->
    List.length results' = (List.length results + List.length points)%nat.
Proof.
  induction points as [|p points IH]; intros popLocations results results' H.
  - simpl in H. injection H as <-. simpl. lia.
  - simpl in H.
    destruct (for_pop_Column multi groups proportions kValues
                (sort_values (assign_distance p popLocations)) populations
                0%nat []) as [res|e]; [|discriminate H].
    apply IH in H. rewrite length_app in H. simpl in *. lia.
Qed.

Lemma map_fst_combine {A B : Type} (l : list A) (l' : list B) :
  List.length l = List.length l' -> map fst (combine l l') = l.
Proof.
  revert l'. induction l as [|a l IH]; intros [|b l'] H; simpl in *;
    try discriminate; [reflexivity|].
  f_equal. apply IH. lia.
Qed.

(** X7: when [geocontext] returns a table, the table has one row per
    point, in the order of the points, and there was at least one point. *)
Theorem geocontext_one_row_per_point (points : list point)
  (popLocations : frame) (groups populations : object string)
  (proportions : list bool) (kValues : object Z) (t : table) :
  snd (geocontext points popLocations groups populations proportions kValues)
  = Ok t ->
  map fst t = points /\ points <> [].
Proof.
  unfold geocontext.
  destruct (check_format groups populations kValues)
    as [[[[multi gs] ps] ks]|e]; [|discriminate].
  pose proof (for_point_results multi gs ps proportions (sort ks) points
                (assign_zero popLocations) []) as Hlen.
  destruct (for_point multi gs ps proportions (sort ks) points
              (assign_zero popLocations) []) as [rows [results|e]];
    simpl in *; [|discriminate].
  specialize (Hlen results eq_refl). simpl in Hlen.
  destruct results as [|res results]; [discriminate|].
  intros H. apply finish_writes_rows in H.
  rewrite H, map_fst_combine by (symmetry; exact Hlen).
  split; [reflexivity|]. intros ->. discriminate Hlen.
Qed.

(** * When the call succeeds *)

(** ** The statistics of a selection *)

Lemma weighted_defined (selection : list row) (group pop_Column : string) :
  counts pop_Column selection ->
  (0 < Qsum (column pop_Column selection))%Q ->
  exists average variance,
    weighted selection group pop_Column = Ok (average, VSqrt variance).
Proof.
  intros Hcounts Hpos.
  assert (Hsum : ~ (Qsum (column pop_Column selection) == 0)%Q)
    by (intros H; rewrite H in Hpos; apply (Qlt_irrefl 0); exact Hpos).
  unfold weighted.
  rewrite np_average_defined by exact Hsum. cbv beta iota delta [bind].
  rewrite np_average_defined by exact Hsum. cbv beta iota delta [bind].
  rewrite squares_of_columns. unfold math_sqrt.
  match goal with
  | |- context [Qltb ?v 0] => destruct (Qltb v 0) eqn:E
  end.
  - exfalso. apply Qltb_lt in E.
    apply (Qlt_not_le _ _ E).
    apply Qle_shift_div_l; [exact Hpos|].
    rewrite Qmult_0_l. apply weighted_squares_nonneg. exact Hcounts.
  - eexists. eexists. reflexivity.
Qed.

(** With populations that sum to zero the weighted statistics are not
    defined: [np.average] raises. *)
Lemma weighted_undefined (selection : list row) (group pop_Column : string) :
  (Qsum (column pop_Column selection) == 0)%Q ->
  weighted selection group pop_Column
  = Raise (ZeroDivisionError "Weights sum to zero, can't be normalized").
Proof.
  intros H. unfold weighted, np_average.
  apply Qeq_bool_iff in H. rewrite H. reflexivity.
Qed.

(** X8: for a selection of non-negative populations, the weighted mean and
    standard deviation are defined exactly when the populations do not sum
    to zero; when they do, the statistic raises [ZeroDivisionError]. *)
Theorem weighted_defined_iff (selection : list row)
  (group pop_Column : string) :
  counts pop_Column selection ->
  ((exists average variance,
       weighted selection group pop_Column = Ok (average, VSqrt variance))
   <-> ~ (Qsum (column pop_Column selection) == 0)%Q)
  /\ ((Qsum (column pop_Column selection) == 0)%Q ->
      forall kValue res,
        statistic false selection group pop_Column kValue res
        = Raise (ZeroDivisionError
                   "Weights sum to zero, can't be normalized")).
Proof.
  intros Hcounts. split; [split|].
  - intros (average & variance & H) Hzero.
    rewrite (weighted_undefined _ _ _ Hzero) in H. discriminate H.
  - intros Hne. apply weighted_defined; [exact Hcounts|].
    pose proof (counts_sum pop_Column selection Hcounts) as Hsum.
    destruct (Qlt_le_dec 0 (Qsum (column pop_Column selection)))
      as [Hlt|Hle]; [exact Hlt|].
    exfalso. apply Hne. apply Qle_antisym; assumption.
  - intros Hzero kValue res. unfold statistic.
    rewrite (weighted_undefined _ _ _ Hzero). reflexivity.
Qed.

(** ** The columns the pass over a point stores *)

Lemma has_set_same (key : string) (v : value) (d : dict) :
  has key (dict_set key v d).
Proof.
  unfold has. rewrite dict_get_set_same. discriminate.
Qed.

Lemma has_set (key k : string) (v : value) (d : dict) :
  has key d -> has key (dict_set k v d).
Proof.
  apply dict_set_keeps.
Qed.

Lemma statistic_keeps flag selection group pop_Column kValue res res'
  (key : string) :
  statistic flag selection group pop_Column kValue res = Ok res' ->
  has key res -> has key res'.
Proof.
  unfold statistic. destruct flag.
  - intros [= <-] H. apply has_set. exact H.
  - intros H Hkey. apply bind_Ok in H.
    destruct H as ([average std] & _ & H). injection H as <-.
    apply has_set, has_set. exact Hkey.
Qed.

Lemma statistic_true_has selection group pop_Column kValue res res' :
  statistic true selection group pop_Column kValue res = Ok res' ->
  has (group_name group kValue) res'.
Proof.
  unfold statistic. intros [= <-]. apply has_set_same.
Qed.

Lemma for_kValue_keeps multi groups popLocations pop_Column groupIndex
  (key : string) (ks : list Z) :
  forall population index unread radius_List res rl res',
    for_kValue multi groups popLocations pop_Column groupIndex ks population
      index unread radius_List res = Ok (rl, res') ->
    has key res -> has key res'.
Proof.
  induction ks as [|k ks IH];
    intros population index unread radius_List res rl res' H Hkey.
  - simpl in H. injection H as <- <-. exact Hkey.
  - apply for_kValue_cons in H.
    destruct H as (population' & index' & unread' & radius & key'
                   & _ & _ & _ & H).
    eapply IH; [exact H|]. apply has_set. exact Hkey.
Qed.

Lemma for_group_keeps proportions selection pop_Column groupIndex kValue
  (key : string) (gs : list string) :
  forall res res',
    for_group proportions selection pop_Column groupIndex kValue gs res
    = Ok res' ->
    has key res -> has key res'.
Proof.
  induction gs as [|group gs IH]; intros res res' H Hkey.
  - simpl in H. injection H as <-. exact Hkey.
  - simpl in H. apply bind_Ok in H. destruct H as (flag & _ & H).
    apply bind_Ok in H. destruct H as (res1 & Hstat & H).
    eapply IH; [exact H|]. eapply statistic_keeps; eassumption.
Qed.

Lemma for_group_has proportions selection pop_Column groupIndex kValue
  (gs : list string) :
  nth_error proportions groupIndex = Some true ->
  forall res res',
    for_group proportions selection pop_Column groupIndex kValue gs res
    = Ok res' ->
    forall g, In g gs -> has (group_name g kValue) res'.
Proof.
  intros Htrue. induction gs as [|group gs IH]; intros res res' H g Hg;
    [destruct Hg|].
  simpl in H. apply bind_Ok in H. destruct H as (flag & Hflag & H).
  unfold getitem in Hflag. rewrite Htrue in Hflag. injection Hflag as <-.
  apply bind_Ok in H. destruct H as (res1 & Hstat & H).
  destruct Hg as [<-|Hg].
  - eapply for_group_keeps; [exact H|].
    eapply statistic_true_has. exact Hstat.
  - eapply IH; eassumption.
Qed.

Lemma measure_stored_keeps multi groups proportions groupIndex k
  (d d' : dict) :
  (forall key, has key d -> has key d') ->
  measure_stored multi groups proportions groupIndex k d ->
  measure_stored multi groups proportions groupIndex k d'.
Proof.
  intros Hkeeps. unfold measure_stored. destruct multi.
  - intros H g Hg. destruct (H g Hg) as [Htotal Hgroup].
    split; [apply Hkeeps; exact Htotal|].
    intros Htrue. apply Hkeeps, Hgroup. exact Htrue.
  - intros [Htotal Hgroup]. split; [apply Hkeeps; exact Htotal|].
    intros Htrue g Hg. apply Hkeeps, Hgroup; assumption.
Qed.

(** One iteration of the loop of line 169, with the name of the total. *)
Lemma for_k_Index_step multi groups proportions kValues popLocations
  pop_Column groupIndex radius_List k_Index idxs res out :
  for_k_Index multi groups proportions kValues popLocations pop_Column
    groupIndex radius_List (k_Index :: idxs) res = Ok out ->
  exists radius kValue res1 total_key,
    getitem radius_List k_Index = Ok radius
    /\ getitem kValues k_Index = Ok kValue
    /\ (if multi then
          flag <- getitem proportions groupIndex ;;
          group <- getitem groups groupIndex ;;
          statistic flag (select popLocations radius) group pop_Column
            kValue res
        else for_group proportions (select popLocations radius) pop_Column
               groupIndex kValue groups res) = Ok res1
    /\ (if multi then
          group <- getitem groups groupIndex ;;
          Ok ("total_" ++ group ++ "_k" ++ str kValue)
        else Ok ("total_k" ++ str kValue)) = Ok total_key
    /\ for_k_Index multi groups proportions kValues popLocations pop_Column
         groupIndex radius_List idxs
         (dict_set total_key
            (VNum (Qsum (column pop_Column (select popLocations radius))))
            res1) = Ok out.
Proof.
  simpl. intros H.
  apply bind_Ok in H. destruct H as (radius & Hr & H).
  apply bind_Ok in H. destruct H as (kValue & Hk & H).
  apply bind_Ok in H. destruct H as (res1 & Hs & H).
  apply bind_Ok in H. destruct H as (total_key & Ht & H).
  exists radius, kValue, res1, total_key. tauto.
Qed.

Lemma getitem_Ok {A : Type} (l : list A) (i : nat) (x : A) :
  getitem l i = Ok x <-> nth_error l i = Some x.
Proof.
  unfold getitem. destruct (nth_error l i); split; intros H;
    try discriminate H; injection H as ->; reflexivity.
Qed.

Lemma for_k_Index_keeps multi groups proportions kValues popLocations
  pop_Column groupIndex radius_List (key : string) (idxs : list nat) :
  forall res out,
    for_k_Index multi groups proportions kValues popLocations pop_Column
      groupIndex radius_List idxs res = Ok out ->
    has key res -> has key out.
Proof.
  induction idxs as [|k_Index idxs IH]; intros res out H Hkey.
  - simpl in H. injection H as <-. exact Hkey.
  - apply for_k_Index_step in H.
    destruct H as (radius & kValue & res1 & total_key & _ & _ & Hs & _ & H).
    eapply IH; [exact H|]. apply has_set.
    destruct multi.
    + apply bind_Ok in Hs. destruct Hs as (flag & _ & Hs).
      apply bind_Ok in Hs. destruct Hs as (group & _ & Hs).
      eapply statistic_keeps; eassumption.
    + eapply for_group_keeps; eassumption.
Qed.

Lemma for_k_Index_stored multi groups proportions kValues popLocations
  pop_Column groupIndex radius_List (idxs : list nat) :
  forall res out,
    for_k_Index multi groups proportions kValues popLocations pop_Column
      groupIndex radius_List idxs res = Ok out ->
    forall i k,
      In i idxs -> nth_error kValues i = Some k ->
      measure_stored multi groups proportions groupIndex k out.
Proof.
  induction idxs as [|k_Index idxs IH]; intros res out H i k Hi Hk;
    [destruct Hi|].
  apply for_k_Index_step in H.
  destruct H as (radius & kValue & res1 & total_key & _ & HkValue & Hs & Ht
                 & H).
  destruct Hi as [->|Hi]; [|eapply IH; eassumption].
  apply getitem_Ok in HkValue. rewrite Hk in HkValue. injection HkValue as <-.
  apply (measure_stored_keeps _ _ _ _ _
           (dict_set total_key
              (VNum (Qsum (column pop_Column (select popLocations radius))))
              res1)).
  { intros key. eapply for_k_Index_keeps. exact H. }
  unfold measure_stored. destruct multi.
  - intros g Hg. apply getitem_Ok in Hg. rewrite Hg in Ht, Hs.
    simpl in Ht. injection Ht as <-.
    split; [apply has_set_same|].
    intros Htrue. apply getitem_Ok in Htrue. rewrite Htrue in Hs.
    cbv beta iota delta [bind] in Hs.
    apply has_set. eapply statistic_true_has. exact Hs.
  - injection Ht as <-. split; [apply has_set_same|].
    intros Htrue g Hg. apply has_set.
    eapply for_group_has; eassumption.
Qed.

(** ** The pass over one point *)

Lemma for_pop_Column_cons multi groups proportions kValues popLocations
  pop_Column pops groupIndex res out :
  for_pop_Column multi groups proportions kValues popLocations
    (pop_Column :: pops) groupIndex res = Ok out ->
  exists radius_List res1 res2,
    for_kValue multi groups popLocations pop_Column groupIndex kValues 0%Q 0
      (column pop_Column popLocations) [] res = Ok (radius_List, res1)
    /\ for_k_Index multi groups proportions kValues popLocations pop_Column
         groupIndex radius_List (seq 0 (List.length kValues)) res1 = Ok res2
    /\ for_pop_Column multi groups proportions kValues popLocations pops
         (S groupIndex) res2 = Ok out.
Proof.
  simpl. intros H.
  apply bind_Ok in H. destruct H as ([radius_List res1] & Hr & H).
  apply bind_Ok in H. destruct H as (res2 & Hs & H).
  exists radius_List, res1, res2. tauto.
Qed.

Lemma for_pop_Column_keeps multi groups proportions kValues popLocations
  (key : string) (pops : list string) :
  forall groupIndex res out,
    for_pop_Column multi groups proportions kValues popLocations pops
      groupIndex res = Ok out ->
    has key res -> has key out.
Proof.
  induction pops as [|pop_Column pops IH]; intros groupIndex res out H Hkey.
  - simpl in H. injection H as <-. exact Hkey.
  - apply for_pop_Column_cons in H.
    destruct H as (radius_List & res1 & res2 & Hr & Hs & H).
    eapply IH; [exact H|].
    eapply for_k_Index_keeps; [exact Hs|].
    eapply for_kValue_keeps; eassumption.
Qed.

Lemma for_pop_Column_stored multi groups proportions kValues popLocations
  (pops : list string) :
  forall groupIndex res out,
    for_pop_Column multi groups proportions kValues popLocations pops
      groupIndex res = Ok out ->
    forall j k,
      (j < List.length pops)%nat -> In k kValues ->
      measure_stored multi groups proportions (groupIndex + j) k out.
Proof.
  induction pops as [|pop_Column pops IH]; intros groupIndex res out H j k Hj Hk;
    [simpl in Hj; lia|].
  apply for_pop_Column_cons in H.
  destruct H as (radius_List & res1 & res2 & Hr & Hs & H).
  destruct j as [|j].
  - rewrite Nat.add_0_r.
    apply (measure_stored_keeps _ _ _ _ _ res2).
    { intros key. eapply for_pop_Column_keeps. exact H. }
    apply In_nth_error in Hk. destruct Hk as [i Hi].
    eapply for_k_Index_stored; [exact Hs | | exact Hi].
    apply in_seq. split; [lia|]. simpl.
    apply nth_error_Some. rewrite Hi. discriminate.
  - replace (groupIndex + S j)%nat with (S groupIndex + j)%nat by lia.
    eapply IH; [exact H | simpl in Hj; lia | exact Hk].
Qed.

Lemma Forall2_nth_error {A B : Type} (R : A -> B -> Prop) (l : list A)
  (l' : list B) :
  Forall2 R l l' ->
  forall i a, nth_error l i = Some a ->
    exists b, nth_error l' i = Some b /\ R a b.
Proof.
  induction 1 as [|x y l l' Hxy _ IH]; intros [|i] a Ha; simpl in *;
    try discriminate.
  - injection Ha as <-. exists y. split; [reflexivity | exact Hxy].
  - apply IH. exact Ha.
Qed.

(** The pass over a point stores every column the finishing pass reads,
    provided that, with one population column for all groups, a true flag
    of any group comes with a true first flag. *)
Lemma for_pop_Column_stores multi groups proportions kValues popLocations
  (pops : list string) (out : dict) :
  for_pop_Column multi groups proportions kValues popLocations pops 0%nat []
  = Ok out ->
  (multi = true -> List.length pops = List.length groups) ->
  (multi = false ->
   (0 < List.length pops)%nat
   /\ forall i, (i < List.length groups)%nat ->
        nth_error proportions i = Some true ->
        nth_error proportions 0 = Some true) ->
  stored multi groups proportions kValues out.
Proof.
  intros H Hmulti Hsingle i group k Hgroup Htrue Hk.
  assert (Hi : (i < List.length groups)%nat)
    by (apply nth_error_Some; rewrite Hgroup; discriminate).
  destruct multi.
  - pose proof (for_pop_Column_stored _ _ _ _ _ _ _ _ _ H i k) as Hstored.
    simpl in Hstored. rewrite (Hmulti eq_refl) in Hstored.
    destruct (Hstored Hi Hk group Hgroup) as [Htotal Hsum].
    split; [apply Hsum; exact Htrue | exact Htotal].
  - destruct (Hsingle eq_refl) as [Hone Hfirst].
    pose proof (for_pop_Column_stored _ _ _ _ _ _ _ _ _ H 0%nat k Hone Hk)
      as [Htotal Hsum].
    simpl in Hsum. split; [|exact Htotal].
    apply Hsum; [eapply Hfirst; eassumption|].
    eapply nth_error_In. exact Hgroup.
Qed.

(** ** The finishing pass *)

Lemma table_column_present (key : string) (t : table) :
  t <> [] -> (forall r, In r t -> has key (snd r)) ->
  table_column key t = Ok (map (cell key) t).
Proof.
  intros Hne Hhas. unfold table_column.
  destruct t as [|r t]; [congruence|].
  specialize (Hhas r (or_introl eq_refl)). unfold has in Hhas.
  simpl. unfold cell.
  destruct (dict_get key (snd r)); [reflexivity | congruence].
Qed.

Lemma finish_group_eq multi proportions kValue group gs groupIndex
  (points : table) :
  finish_group multi proportions kValue (group :: gs) groupIndex points
  = (flag <- getitem proportions groupIndex ;;
     points <-
       (if flag : bool then
          num <- table_column (group_name group kValue) points ;;
          den <- table_column (total_name multi group kValue) points ;;
          Ok (table_assign (mean_name group kValue)
                (map (fun nd => divide (fst nd) (snd nd)) (combine num den))
                points)
        else Ok points) ;;
     finish_group multi proportions kValue gs (S groupIndex) points).
Proof.
  reflexivity.
Qed.

Lemma finish_group_succeeds multi proportions kValue (gs : list string) :
  forall groupIndex (t : table),
    t <> [] ->
    (forall i, (i < List.length gs)%nat ->
       exists flag, nth_error proportions (groupIndex + i) = Some flag) ->
    (forall r i g,
       In r t -> nth_error gs i = Some g ->
       nth_error proportions (groupIndex + i) = Some true ->
       has (group_name g kValue) (snd r)
       /\ has (total_name multi g kValue) (snd r)) ->
    exists t', finish_group multi proportions kValue gs groupIndex t = Ok t'.
Proof.
  induction gs as [|group gs IH]; intros groupIndex t Hne Hflags Hhas;
    [eexists; reflexivity|].
  destruct (Hflags 0%nat) as [flag Hflag]; [simpl; lia|].
  rewrite Nat.add_0_r in Hflag.
  assert (Hshift : forall i, (S groupIndex + i = groupIndex + S i)%nat)
    by (intros; lia).
  rewrite finish_group_eq.
  apply getitem_Ok in Hflag. rewrite Hflag. cbv beta iota delta [bind].
  apply getitem_Ok in Hflag.
  destruct flag.
  - assert (Hkeys : forall r, In r t ->
               has (group_name group kValue) (snd r)
               /\ has (total_name multi group kValue) (snd r)).
    { intros r Hr. apply (Hhas r 0%nat group Hr eq_refl).
      rewrite Nat.add_0_r. exact Hflag. }
    rewrite (table_column_present (group_name group kValue) t Hne)
      by (intros r Hr; apply Hkeys; exact Hr).
    rewrite (table_column_present (total_name multi group kValue) t Hne)
      by (intros r Hr; apply Hkeys; exact Hr).
    rewrite combine_map_map, map_map.
    rewrite (table_assign_map (mean_name group kValue)
               (fun r => divide (cell (group_name group kValue) r)
                                (cell (total_name multi group kValue) r))).
    apply IH.
    + destruct t; [congruence | discriminate].
    + intros i Hi. rewrite Hshift. apply Hflags. simpl. lia.
    + intros r i g Hr Hg Htrue. apply in_map_iff in Hr.
      destruct Hr as (r0 & <- & Hr0). simpl.
      rewrite Hshift in Htrue.
      destruct (Hhas r0 (S i) g Hr0 Hg Htrue) as [H1 H2].
      split; apply has_set; assumption.
  - apply IH.
    + exact Hne.
    + intros i Hi. rewrite Hshift. apply Hflags. simpl. lia.
    + intros r i g Hr Hg Htrue. rewrite Hshift in Htrue.
      apply (Hhas r (S i) g Hr Hg Htrue).
Qed.

Lemma finish_succeeds multi groups proportions (all : list Z) (ks : list Z) :
  (List.length groups <= List.length proportions)%nat ->
  (forall k, In k ks -> In k all) ->
  forall t : table,
    t <> [] ->
    (forall r, In r t -> stored multi groups proportions all (snd r)) ->
    exists t', finish multi groups proportions ks t = Ok t'.
Proof.
  intros Hlen. induction ks as [|kValue ks IH]; intros Hall t Hne Hstored;
    [eexists; reflexivity|].
  destruct (finish_group_succeeds multi proportions kValue groups 0%nat t Hne)
    as [t1 H1].
  { intros i Hi. simpl.
    destruct (nth_error proportions i) as [flag|] eqn:E;
      [exists flag; reflexivity|].
    apply nth_error_None in E. lia. }
  { intros r i g Hr Hg Htrue. simpl in Htrue.
    apply (Hstored r Hr i g kValue Hg Htrue).
    apply Hall. left. reflexivity. }
  simpl. rewrite H1. simpl.
  apply finish_group_rows in H1. destruct H1 as (F & -> & HF).
  apply IH.
  - intros k Hk. apply Hall. right. exact Hk.
  - destruct t; [congruence | discriminate].
  - intros r Hr i g k Hg Htrue Hk. apply in_map_iff in Hr.
    destruct Hr as (r0 & <- & Hr0).
    destruct (HF r0) as (_ & Hframe & _).
    destruct (Hstored r0 Hr0 i g k Hg Htrue Hk) as [H1 H2].
    unfold has in *. rewrite !Hframe.
    + split; assumption.
    + intros g' _. apply total_name_not_mean.
    + intros g' _. apply group_name_not_mean.
Qed.

(** ** All points *)

Lemma check_format_valid (gs ps : list string) (ks : list Z) :
  List.length ps = 1%nat \/ List.length ps = List.length gs ->
  check_format (PyList gs) (PyList ps) (PyList ks)
  = Ok (negb (List.length ps =? 1)%nat, gs, ps, ks).
Proof.
  intros H. unfold check_format.
  destruct (List.length ps =? 1)%nat eqn:E1; [reflexivity|].
  destruct H as [H|H]; [apply Nat.eqb_neq in E1; contradiction|].
  rewrite H, Nat.eqb_refl. reflexivity.
Qed.

(** What the pass over the points stores for every point it has passed. *)
Lemma for_point_Forall multi groups populations proportions kValues
  (P : dict -> Prop) :
  (forall rows res,
      for_pop_Column multi groups proportions kValues rows populations
        0%nat [] = Ok res -> P res) ->
  forall (points : list point) (rows : list row) (results results' : list dict),
    snd (for_point multi groups populations proportions kValues points rows
           results) = Ok results' ->
    Forall P results -> Forall P results'.
Proof.
  intros Hpoint. induction points as [|p points IH];
    intros rows results results' H Hresults.
  - simpl in H. injection H as <-. exact Hresults.
  - simpl in H.
    destruct (for_pop_Column multi groups proportions kValues
                (sort_values (assign_distance p rows)) populations 0%nat [])
      as [res|e] eqn:E; [|discriminate H].
    eapply IH; [exact H|].
    apply Forall_app. split; [exact Hresults|].
    constructor; [|constructor]. eapply Hpoint. exact E.
Qed.

(** X9: once the pass over the points has returned, the finishing pass
    cannot fail, and the call returns a table, when every group has a flag
    and, with one population column for all groups, a true flag of any
    group comes with a true first flag.  (There is at least one point; the
    populations given are one column, or as many columns as there are
    groups.) *)
Theorem geocontext_succeeds (points : list point) (popLocations : frame)
  (gs ps : list string) (proportions : list bool) (ks : list Z)
  (results : list dict) :
  points <> [] ->
  List.length ps = 1%nat \/ List.length ps = List.length gs ->
  (List.length gs <= List.length proportions)%nat ->
  (List.length ps = 1%nat ->
   forall i, (i < List.length gs)%nat ->
     nth_error proportions i = Some true ->
     nth_error proportions 0 = Some true) ->
  snd (for_point (negb (List.length ps =? 1)%nat) gs ps proportions (sort ks)
         points (assign_zero popLocations) []) = Ok results ->
  exists t,
    snd (geocontext points popLocations (PyList gs) (PyList ps) proportions
           (PyList ks)) = Ok t.
Proof.
  intros Hpoints Hformat Hflags Hfirst Hpass.
  unfold geocontext. rewrite (check_format_valid gs ps ks Hformat).
  set (multi := negb (List.length ps =? 1)%nat) in *.
  assert (Hmulti : multi = true -> List.length ps = List.length gs).
  { unfold multi. intros Hm. apply negb_true_iff, Nat.eqb_neq in Hm.
    destruct Hformat; [contradiction | assumption]. }
  assert (Hsingle : multi = false -> List.length ps = 1%nat).
  { unfold multi. intros Hm. apply negb_false_iff, Nat.eqb_eq in Hm.
    exact Hm. }
  assert (Hstored : Forall (stored multi gs proportions (sort ks)) results).
  { apply (for_point_Forall multi gs ps proportions (sort ks)
             (stored multi gs proportions (sort ks)))
      with (points := points) (rows := assign_zero popLocations)
           (results := []);
      [|exact Hpass | constructor].
    intros rows res Hres.
    apply (for_pop_Column_stores _ _ _ _ _ _ _ Hres Hmulti).
    intros Hm. split; [rewrite (Hsingle Hm); lia|].
    apply Hfirst, Hsingle, Hm. }
  pose proof (for_point_results _ _ _ _ _ _ _ _ _ Hpass) as Hlen.
  simpl in Hlen.
  destruct (for_point multi gs ps proportions (sort ks) points
              (assign_zero popLocations) []) as [rows outcome].
  simpl in Hpass. subst outcome. simpl.
  destruct results as [|res results];
    [destruct points; [congruence | discriminate Hlen]|].
  apply (finish_succeeds multi gs proportions (sort ks) (sort ks) Hflags).
  - intros k Hk. exact Hk.
  - destruct points; [congruence | discriminate].
  - intros r Hr. destruct r as [p d]. apply in_combine_r in Hr.
    rewrite Forall_forall in Hstored. apply Hstored. exact Hr.
Qed.

(** * Further edge behaviour *)

Lemma sorted_perm_eq (l1 : list Z) :
  forall l2 : list Z,
    StronglySorted Z.le l1 -> StronglySorted Z.le l2 -> Permutation l1 l2 ->
    l1 = l2.
Proof.
  induction l1 as [|a l1 IH]; intros l2 H1 H2 Hperm.
  - apply Permutation_nil in Hperm. symmetry. exact Hperm.
  - destruct l2 as [|b l2];
      [apply Permutation_sym, Permutation_nil in Hperm; discriminate Hperm|].
    apply StronglySorted_inv in H1. destruct H1 as [H1 Ha].
    apply StronglySorted_inv in H2. destruct H2 as [H2 Hb].
    assert (Hab : a = b).
    { assert (Hin_b : In b (a :: l1))
        by (eapply Permutation_in;
            [apply Permutation_sym; exact Hperm | left; reflexivity]).
      assert (Hin_a : In a (b :: l2))
        by (eapply Permutation_in; [exact Hperm | left; reflexivity]).
      rewrite Forall_forall in Ha, Hb.
      destruct Hin_b as [->|Hin_b]; [reflexivity|].
      destruct Hin_a as [->|Hin_a]; [reflexivity|].
      specialize (Ha b Hin_b). specialize (Hb a Hin_a). lia. }
    subst b. f_equal. apply IH; [assumption | assumption|].
    eapply Permutation_cons_inv. exact Hperm.
Qed.

(** X10: the order in which the k-values are listed does not matter: two
    lists with the same k-values give the same outcome and leave the same
    reference table. *)
Theorem kValues_order_irrelevant (points : list point) (popLocations : frame)
  (groups populations : object string) (proportions : list bool)
  (ks1 ks2 : list Z) :
  Permutation ks1 ks2 ->
  geocontext points popLocations groups populations proportions (PyList ks1)
  = geocontext points popLocations groups populations proportions
      (PyList ks2).
Proof.
  intros Hperm.
  assert (Hsort : sort ks1 = sort ks2).
  { apply sorted_perm_eq; [apply sort_sorted | apply sort_sorted|].
    eapply perm_trans; [apply sort_perm|].
    eapply perm_trans; [exact Hperm | apply Permutation_sym, sort_perm]. }
  unfold geocontext, check_format.
  destruct groups as [gs| |]; try reflexivity.
  destruct populations as [ps| |]; try reflexivity.
  destruct (List.length ps =? 1)%nat; simpl.
  - rewrite Hsort. reflexivity.
  - destruct (List.length gs =? List.length ps)%nat; simpl;
      [rewrite Hsort|]; reflexivity.
Qed.

(** X12: when the locations at distance 0 hold at least k people, the
    radius recorded for k is 0: on a table in ascending order of distance
    with no negative distance, for a population column of whole numbers
    (none negative, total below 2^53) and positive k-values. *)
Theorem radius_zero (popLocations : list row) (multi : bool)
  (groups : list string) (pop_Column : string) (groupIndex : nat)
  (kValues : list Z) (res : dict) (radius_List : list Z) (res' : dict)
  (i : nat) (k : Z) :
  ascending popLocations ->
  Forall (fun r => 0 <= Distance r) popLocations ->
  whole pop_Column popLocations ->
  Forall (fun k => 0 < k) kValues ->
  for_kValue multi groups popLocations pop_Column groupIndex (sort kValues)
    0%Q 0 (column pop_Column popLocations) [] res = Ok (radius_List, res') ->
  nth_error (sort kValues) i = Some k ->
  (inject_Z k <= within popLocations pop_Column 0)%Q ->
  nth_error radius_List i = Some 0.
Proof.
  intros Hasc Hnonneg Hwhole Hpositive H Hk Hzero.
  pose proof (radius_smallest_sorted popLocations multi groups pop_Column
                groupIndex kValues res radius_List res' Hasc
                (whole_counts _ _ Hwhole) Hpositive H)
    as Hsmallest.
  destruct (Forall2_nth_error _ _ _ Hsmallest i k Hk) as (r & Hr & _ & Hmin).
  rewrite Hr. f_equal.
  apply for_kValue_radii in H. destruct H as (radii & Hradii & _ & Hin).
  simpl in Hradii. subst radii.
  rewrite Forall_forall in Hin.
  specialize (Hin r (nth_error_In _ _ Hr)).
  apply in_map_iff in Hin. destruct Hin as (x & Hx & Hxin).
  rewrite Forall_forall in Hnonneg. specialize (Hnonneg x Hxin).
  destruct (Z_lt_le_dec 0 r) as [Hlt|Hle]; [|lia].
  specialize (Hmin 0 Hlt). exfalso. lra.
Qed.

(** ** Mixed flags with one population column *)

Lemma no_sums_set (key : string) (v : value) (d : dict) :
  (forall g k, group_name g k <> key) ->
  no_sums d -> no_sums (dict_set key v d).
Proof.
  intros Hkey Hd g k. rewrite dict_get_set_other by apply Hkey. apply Hd.
Qed.

Lemma radius_key_not_group multi groups groupIndex kValue (key : string) :
  radius_key multi groups groupIndex kValue = Ok key ->
  forall g k, group_name g k <> key.
Proof.
  unfold radius_key, group_name. destruct multi.
  - intros H. apply bind_Ok in H. destruct H as (g0 & _ & H).
    injection H as <-. intros g k Heq. discriminate Heq.
  - intros [= <-] g k Heq. discriminate Heq.
Qed.

Lemma for_kValue_no_sums multi groups popLocations pop_Column groupIndex
  (ks : list Z) :
  forall population index unread radius_List res rl res',
    for_kValue multi groups popLocations pop_Column groupIndex ks population
      index unread radius_List res = Ok (rl, res') ->
    no_sums res -> no_sums res'.
Proof.
  induction ks as [|k ks IH];
    intros population index unread radius_List res rl res' H Hres.
  - simpl in H. injection H as <- <-. exact Hres.
  - apply for_kValue_cons in H.
    destruct H as (population' & index' & unread' & radius & key
                   & _ & _ & Hkey & H).
    eapply IH; [exact H|]. apply no_sums_set; [|exact Hres].
    eapply radius_key_not_group. exact Hkey.
Qed.

Lemma statistic_false_no_sums selection group pop_Column kValue res res' :
  statistic false selection group pop_Column kValue res = Ok res' ->
  no_sums res -> no_sums res'.
Proof.
  unfold statistic. intros H Hres. apply bind_Ok in H.
  destruct H as ([average std] & _ & H). injection H as <-.
  apply no_sums_set; [intros g k Heq; discriminate Heq|].
  apply no_sums_set; [intros g k Heq; discriminate Heq | exact Hres].
Qed.

Lemma for_group_no_sums proportions selection pop_Column groupIndex kValue
  (gs : list string) :
  nth_error proportions groupIndex = Some false ->
  forall res res',
    for_group proportions selection pop_Column groupIndex kValue gs res
    = Ok res' ->
    no_sums res -> no_sums res'.
Proof.
  intros Hfalse. induction gs as [|group gs IH]; intros res res' H Hres.
  - simpl in H. injection H as <-. exact Hres.
  - simpl in H. apply bind_Ok in H. destruct H as (flag & Hflag & H).
    apply getitem_Ok in Hflag. rewrite Hfalse in Hflag. injection Hflag as <-.
    apply bind_Ok in H. destruct H as (res1 & Hstat & H).
    eapply IH; [exact H|]. eapply statistic_false_no_sums; eassumption.
Qed.

Lemma for_k_Index_no_sums groups proportions kValues popLocations pop_Column
  groupIndex radius_List (idxs : list nat) :
  nth_error proportions groupIndex = Some false ->
  forall res out,
    for_k_Index false groups proportions kValues popLocations pop_Column
      groupIndex radius_List idxs res = Ok out ->
    no_sums res -> no_sums out.
Proof.
  intros Hfalse. induction idxs as [|k_Index idxs IH]; intros res out H Hres.
  - simpl in H. injection H as <-. exact Hres.
  - apply for_k_Index_step in H.
    destruct H as (radius & kValue & res1 & total_key & _ & _ & Hs & Ht & H).
    injection Ht as <-.
    eapply IH; [exact H|].
    apply no_sums_set; [intros g k Heq; discriminate Heq|].
    eapply for_group_no_sums; eassumption.
Qed.

Lemma table_column_absent (key : string) (t : table) :
  (forall r, In r t -> dict_get key (snd r) = None) ->
  table_column key t = Raise (KeyError key).
Proof.
  intros H. unfold table_column.
  replace (existsb _ t) with false; [reflexivity|].
  symmetry. apply not_true_iff_false. intros Hex.
  apply existsb_exists in Hex. destruct Hex as (r & Hr & Hget).
  rewrite (H r Hr) in Hget. discriminate Hget.
Qed.

(** The finishing pass fails at the first group whose flag is true when no
    row holds the sum of that group. *)
Lemma finish_group_raises multi proportions kValue (gs : list string) :
  forall groupIndex (t : table) i g,
    nth_error gs i = Some g ->
    nth_error proportions (groupIndex + i) = Some true ->
    (forall j, (j < i)%nat ->
       nth_error proportions (groupIndex + j) = Some false) ->
    (forall r, In r t -> dict_get (group_name g kValue) (snd r) = None) ->
    finish_group multi proportions kValue gs groupIndex t
    = Raise (KeyError (group_name g kValue)).
Proof.
  induction gs as [|group gs IH]; intros groupIndex t i g Hg Htrue Hfalse Hrows;
    [destruct i; discriminate Hg|].
  rewrite finish_group_eq. destruct i as [|i].
  - injection Hg as ->. rewrite Nat.add_0_r in Htrue.
    apply getitem_Ok in Htrue. rewrite Htrue. cbv beta iota delta [bind].
    rewrite (table_column_absent _ _ Hrows). reflexivity.
  - pose proof (Hfalse 0%nat (Nat.lt_0_succ i)) as H0.
    rewrite Nat.add_0_r in H0. apply getitem_Ok in H0. rewrite H0.
    cbv beta iota delta [bind].
    apply (IH (S groupIndex) t i g Hg).
    + rewrite <- Htrue. f_equal. lia.
    + intros j Hj. rewrite <- (Hfalse (S j)) by lia. f_equal. lia.
    + exact Hrows.
Qed.

(** X13: with one population column for all groups, a false first flag and
    a true flag for a later group make the call fail in the finishing pass.
    Once the pass over the points has returned, it has stored no sum (every
    group is aggregated by the first flag), and the finishing pass raises
    [KeyError] for the sum column of the first group whose flag is true. *)
Theorem mixed_flags_with_one_population_column (points : list point)
  (popLocations : frame) (gs : list string) (c : string)
  (proportions : list bool) (ks : list Z) (i : nat) (g : string)
  (results : list dict) :
  points <> [] -> ks <> [] ->
  snd (for_point false gs [c] proportions (sort ks) points
         (assign_zero popLocations) []) = Ok results ->
  nth_error gs i = Some g ->
  nth_error proportions i = Some true ->
  (0 < i)%nat ->
  (forall j, (j < i)%nat -> nth_error proportions j = Some false) ->
  exists k,
    In k ks
    /\ snd (geocontext points popLocations (PyList gs) (PyList [c])
              proportions (PyList ks))
       = Raise (KeyError (group_name g k)).
Proof.
  intros Hpoints Hks Hpass Hg Htrue Hi Hfalse.
  unfold geocontext. rewrite (check_format_valid gs [c] ks (or_introl eq_refl)).
  simpl negb.
  pose proof (Hfalse 0%nat Hi) as Hfirst.
  assert (Hnone : Forall no_sums results).
  { apply (for_point_Forall false gs [c] proportions (sort ks) no_sums)
      with (points := points) (rows := assign_zero popLocations)
           (results := []);
      [|exact Hpass | constructor].
    intros rows res Hres.
    apply for_pop_Column_cons in Hres.
    destruct Hres as (radius_List & res1 & res2 & Hr & Hs & Hend).
    simpl in Hend. injection Hend as <-.
    eapply for_k_Index_no_sums; [exact Hfirst | exact Hs|].
    eapply for_kValue_no_sums; [exact Hr|].
    intros g' k'. reflexivity. }
  pose proof (for_point_results _ _ _ _ _ _ _ _ _ Hpass) as Hlen.
  simpl in Hlen.
  destruct (for_point false gs [c] proportions (sort ks) points
              (assign_zero popLocations) []) as [rows outcome].
  simpl in Hpass. subst outcome. simpl.
  destruct results as [|res results];
    [destruct points; [congruence | discriminate Hlen]|].
  pose proof (sort_perm ks) as Hsort.
  destruct (sort ks) as [|k ks'].
  { exfalso. apply Hks. apply Permutation_nil. exact Hsort. }
  exists k. split.
  - eapply Permutation_in; [exact Hsort|]. left. reflexivity.
  - simpl finish.
    rewrite (finish_group_raises false proportions k gs 0%nat
               (combine points (res :: results)) i g Hg Htrue Hfalse).
    + reflexivity.
    + intros [p d] Hr. apply in_combine_r in Hr.
      rewrite Forall_forall in Hnone. apply (Hnone d Hr).
Qed.

(** * The proportions of the returned table *)

(** ** The k-value in a column name *)

Lemma uint_no_underscore (u : Decimal.uint) :
  no_underscore (NilEmpty.string_of_uint u).
Proof.
  unfold no_underscore.
  induction u as [|u IH|u IH|u IH|u IH|u IH|u IH|u IH|u IH|u IH|u IH];
    intros [|c x] y H; simpl in H; try discriminate H;
    injection H as _ H; exact (IH x y H).
Qed.

Lemma str_no_underscore (k : Z) : no_underscore (str k).
Proof.
  unfold str, NilZero.string_of_int.
  assert (Hu : forall u, no_underscore (NilZero.string_of_uint u)).
  { intros u. unfold NilZero.string_of_uint.
    destruct u; try apply uint_no_underscore.
    intros [|c x] y H; simpl in H; try discriminate H.
    injection H as _ H. destruct x; discriminate H. }
  destruct (Z.to_int k) as [u|u]; [apply Hu|].
  intros [|c x] y H; simpl in H; [discriminate H|].
  injection H as _ H. exact (Hu u x y H).
Qed.

(** A column name ends in one k-value only. *)
Lemma suffix_inj (d d' : string) :
  no_underscore d -> no_underscore d' ->
  forall g g' : string,
    g ++ "_k" ++ d = g' ++ "_k" ++ d' -> g = g' /\ d = d'.
Proof.
  intros Hd Hd'. induction g as [|c g IH]; intros [|c' g'] H; simpl in H.
  - injection H as H. split; [reflexivity | exact H].
  - exfalso. injection H as Hc H. destruct g' as [|c2 g']; simpl in H.
    + discriminate H.
    + injection H as _ H. exact (Hd g' (String "k" d') H).
  - exfalso. injection H as Hc H. destruct g as [|c2 g]; simpl in H.
    + discriminate H.
    + injection H as _ H. symmetry in H. exact (Hd' g (String "k" d) H).
  - injection H as <- H. destruct (IH g' H) as [-> ->].
    split; reflexivity.
Qed.

(** Two proportions under the same [mean_] name are the same proportion. *)
Lemma quotient_of_name (multi : bool) (g g' : string) (k k' : Z)
  (r : point * dict) :
  mean_name g' k' = mean_name g k ->
  quotient multi g' k' r = quotient multi g k r.
Proof.
  unfold mean_name. intros H. injection H as H.
  apply suffix_inj in H; try apply str_no_underscore.
  destruct H as [-> Hk].
  unfold quotient, group_name, total_name. rewrite Hk. reflexivity.
Qed.

(** ** What the finishing pass writes *)

Lemma writes_means_frame multi F (key : string) (r : point * dict) :
  writes_means multi F ->
  (forall g k, key <> mean_name g k) ->
  dict_get key (snd (F r)) = dict_get key (snd r).
Proof.
  intros HF Hkey. destruct (HF r) as [_ H].
  destruct (H key) as [Hsame|(g & k & Heq & _)]; [exact Hsame|].
  exfalso. exact (Hkey g k Heq).
Qed.

Lemma writes_means_quotient multi F (g : string) (k : Z) (r : point * dict) :
  writes_means multi F -> quotient multi g k (F r) = quotient multi g k r.
Proof.
  intros HF. unfold quotient, cell.
  rewrite !(writes_means_frame multi F _ r HF); [reflexivity| |].
  - intros g' k'. apply total_name_not_mean.
  - intros g' k'. apply group_name_not_mean.
Qed.

Lemma writes_means_id (multi : bool) : writes_means multi (fun r => r).
Proof.
  intros r. split; [reflexivity|]. intros key. left. reflexivity.
Qed.

Lemma writes_means_compose multi F1 F2 :
  writes_means multi F1 -> writes_means multi F2 ->
  writes_means multi (fun r => F2 (F1 r)).
Proof.
  intros H1 H2 r. destruct (H2 (F1 r)) as [Hfst2 Hkeys2].
  destruct (H1 r) as [Hfst1 Hkeys1].
  split; [rewrite Hfst2; exact Hfst1|].
  intros key. destruct (Hkeys2 key) as [Hsame|(g & k & Heq & Hset)].
  - rewrite Hsame. apply Hkeys1.
  - right. exists g, k. split; [exact Heq|].
    rewrite Hset, (writes_means_quotient multi F1 g k r H1). reflexivity.
Qed.

Lemma writes_means_assign multi (group : string) (kValue : Z) :
  writes_means multi
    (fun r => (fst r,
               dict_set (mean_name group kValue)
                 (quotient multi group kValue r) (snd r))).
Proof.
  intros r. split; [reflexivity|]. intros key. simpl.
  destruct (string_dec key (mean_name group kValue)) as [->|Hne].
  - right. exists group, kValue. split; [reflexivity|].
    apply dict_get_set_same.
  - left. apply dict_get_set_other. exact Hne.
Qed.

Lemma holds_mean_compose multi F1 F2 (key : string) :
  writes_means multi F1 -> holds_mean multi F1 key -> writes_means multi F2 ->
  holds_mean multi (fun r => F2 (F1 r)) key.
Proof.
  intros H1 Hheld H2 r. destruct (H2 (F1 r)) as [_ Hkeys2].
  destruct (Hkeys2 key) as [Hsame|(g & k & Heq & Hset)].
  - rewrite Hsame. apply Hheld.
  - exists g, k. split; [exact Heq|].
    rewrite Hset, (writes_means_quotient multi F1 g k r H1). reflexivity.
Qed.

Lemma holds_mean_after multi F1 F2 (key : string) :
  writes_means multi F1 -> holds_mean multi F2 key ->
  holds_mean multi (fun r => F2 (F1 r)) key.
Proof.
  intros H1 Hheld r. destruct (Hheld (F1 r)) as (g & k & Heq & Hget).
  exists g, k. split; [exact Heq|].
  rewrite Hget, (writes_means_quotient multi F1 g k r H1). reflexivity.
Qed.

Lemma finish_group_written multi proportions kValue (gs : list string) :
  forall groupIndex (t t' : table),
    finish_group multi proportions kValue gs groupIndex t = Ok t' ->
    exists F,
      t' = map F t
      /\ writes_means multi F
      /\ forall i g,
          nth_error gs i = Some g ->
          nth_error proportions (groupIndex + i) = Some true ->
          holds_mean multi F (mean_name g kValue).
Proof.
  induction gs as [|group gs IH]; intros groupIndex t t' H.
  - simpl in H. injection H as <-. exists (fun r => r).
    split; [symmetry; apply map_id|]. split; [apply writes_means_id|].
    intros [|i] g Hg; discriminate Hg.
  - apply finish_group_cons in H.
    destruct H as (flag & t1 & Hflag & Ht1 & H).
    apply IH in H. destruct H as (F & -> & HF & Hheld).
    set (f1 := fun r : point * dict =>
                 if flag then
                   (fst r,
                    dict_set (mean_name group kValue)
                      (quotient multi group kValue r) (snd r))
                 else r).
    assert (Hmap : t1 = map f1 t).
    { subst t1 f1. destruct flag; [reflexivity|]. symmetry. apply map_id. }
    assert (Hf1 : writes_means multi f1).
    { unfold f1. destruct flag;
        [apply writes_means_assign | apply writes_means_id]. }
    exists (fun r => F (f1 r)).
    split; [rewrite Hmap, map_map; reflexivity|].
    split; [apply writes_means_compose; assumption|].
    intros [|i] g Hg Htrue; simpl in Hg.
    + injection Hg as <-. rewrite Nat.add_0_r in Htrue.
      apply getitem_Ok in Hflag. rewrite Htrue in Hflag.
      injection Hflag as Hflag.
      apply holds_mean_compose; [exact Hf1 | | exact HF].
      intros r. exists group, kValue. split; [reflexivity|].
      unfold f1. rewrite <- Hflag. simpl. apply dict_get_set_same.
    + apply holds_mean_after; [exact Hf1|].
      apply (Hheld i g Hg). rewrite <- Htrue. f_equal. lia.
Qed.

Lemma finish_written multi groups proportions (ks : list Z) :
  forall t t' : table,
    finish multi groups proportions ks t = Ok t' ->
    exists F,
      t' = map F t
      /\ writes_means multi F
      /\ forall i g k,
          nth_error groups i = Some g ->
          nth_error proportions i = Some true ->
          In k ks ->
          holds_mean multi F (mean_name g k).
Proof.
  induction ks as [|kValue ks IH]; intros t t' H.
  - simpl in H. injection H as <-. exists (fun r => r).
    split; [symmetry; apply map_id|]. split; [apply writes_means_id|].
    intros i g k _ _ [].
  - simpl in H. apply bind_Ok in H. destruct H as (t1 & H1 & H).
    apply finish_group_written in H1. destruct H1 as (F1 & -> & HF1 & Hheld1).
    apply IH in H. destruct H as (F & -> & HF & Hheld).
    exists (fun r => F (F1 r)).
    split; [rewrite map_map; reflexivity|].
    split; [apply writes_means_compose; assumption|].
    intros i g k Hg Htrue [<-|Hk].
    + apply holds_mean_compose; [exact HF1 | | exact HF].
      apply (Hheld1 i g Hg). exact Htrue.
    + apply holds_mean_after; [exact HF1|].
      apply (Hheld i g k Hg Htrue Hk).
Qed.

(** X6: in the table [geocontext] returns, for every group whose flag is
    true and every k-value, every row holds under [mean_<group>_k<k>] the
    row's sum [group_<group>_k<k>] divided by its total ([total_k<k>] with
    one population column, [total_<group>_k<k>] with one per group); a zero
    total gives NaN or an infinity, not an exception. *)
Theorem geocontext_proportions (points : list point) (popLocations : frame)
  (gs ps : list string) (proportions : list bool) (ks : list Z) (t : table) :
  snd (geocontext points popLocations (PyList gs) (PyList ps) proportions
         (PyList ks)) = Ok t ->
  forall r i g k,
    In r t ->
    nth_error gs i = Some g ->
    nth_error proportions i = Some true ->
    In k ks ->
    dict_get (mean_name g k) (snd r)
    = Some (divide (cell (group_name g k) r)
                   (cell (total_name (negb (List.length ps =? 1)%nat) g k) r)).
Proof.
  unfold geocontext.
  destruct (check_format (PyList gs) (PyList ps) (PyList ks))
    as [[[[multi gs'] ps'] ks']|e] eqn:Hformat; [|discriminate].
  apply check_format_Ok in Hformat.
  destruct Hformat as ([= <-] & [= <-] & [= <-] & -> & _).
  destruct (for_point (negb (List.length ps =? 1)%nat) gs ps proportions
              (sort ks) points (assign_zero popLocations) [])
    as [rows [results|e]]; simpl; [|discriminate].
  destruct results as [|res results]; [discriminate|].
  intros H r i g k Hr Hg Htrue Hk.
  apply finish_written in H. destruct H as (F & -> & HF & Hheld).
  apply in_map_iff in Hr. destruct Hr as (r0 & <- & _).
  destruct (Hheld i g k Hg Htrue) with (r := r0) as (g' & k' & Heq & Hget).
  { eapply Permutation_in; [apply Permutation_sym, sort_perm | exact Hk]. }
  rewrite Hget. f_equal.
  rewrite (quotient_of_name _ g g' k k' r0) by (symmetry; exact Heq).
  rewrite <- (writes_means_quotient _ F g k r0 HF). reflexivity.
Qed.

(** * Instances on the example data *)

(** X2 for the example table with two locations at distance 5, in the
    two orders of the two. *)
Lemma radius_independent_of_row_order_witness :
  [5; 5] = [5; 5].
Proof.
  apply (radius_independent_of_row_order
           [(0, Examples.near); (5, Examples.mid);
            (5, Examples.place 5 0 5 2 (3 # 4))]
           [(0, Examples.near); (5, Examples.place 5 0 5 2 (3 # 4));
            (5, Examples.mid)]
           false false ["G"] ["G"] "Pop" 0%nat 0%nat [7; 4] [] []
           [5; 5] [5; 5]
           [("radius_k4", VInt 5); ("radius_k7", VInt 5)]
           [("radius_k4", VInt 5); ("radius_k7", VInt 5)]).
  - apply perm_skip. apply perm_swap.
  - repeat constructor; simpl; lia.
  - repeat constructor; simpl; lia.
  - whole_column.
  - repeat constructor.
  - vm_compute. reflexivity.
  - vm_compute. reflexivity.
Defined.

(** X5 for a table of one row with a sum and a total. *)
Lemma finish_writes_means_only_witness :
  map fst [(Examples.origin,
            [("group_G_k4", VNum 2); ("total_k4", VNum 5);
             ("mean_G_k4", VNum (2 # 5))])]
  = map fst [(Examples.origin,
              [("group_G_k4", VNum 2); ("total_k4", VNum 5)])]
  /\ forall key,
      prefix "mean_" key = false ->
      map (fun r : point * dict => dict_get key (snd r))
        [(Examples.origin,
          [("group_G_k4", VNum 2); ("total_k4", VNum 5);
           ("mean_G_k4", VNum (2 # 5))])]
      = map (fun r : point * dict => dict_get key (snd r))
          [(Examples.origin,
            [("group_G_k4", VNum 2); ("total_k4", VNum 5)])].
Proof.
  apply (finish_writes_means_only false ["G"] [true] [4]).
  reflexivity.
Defined.

(** X6 for the example table, the group ['G'] and k = 4. *)
Lemma geocontext_proportions_witness :
  dict_get (mean_name "G" 4)
    [("radius_k4", VInt 5); ("group_G_k4", VNum 2); ("total_k4", VNum 5);
     ("mean_G_k4", VNum (2 # 5))]
  = Some (divide (VNum 2) (VNum 5)).
Proof.
  apply (geocontext_proportions [Examples.origin] (Plain Examples.three)
           ["G"] ["Pop"] [true] [4]
           [(Examples.origin,
             [("radius_k4", VInt 5); ("group_G_k4", VNum 2);
              ("total_k4", VNum 5); ("mean_G_k4", VNum (2 # 5))])]
           (eq_refl _)
           (Examples.origin,
            [("radius_k4", VInt 5); ("group_G_k4", VNum 2);
             ("total_k4", VNum 5); ("mean_G_k4", VNum (2 # 5))])
           0%nat "G" 4).
  - left. reflexivity.
  - reflexivity.
  - reflexivity.
  - left. reflexivity.
Defined.

(** X7 for the example table. *)
Lemma geocontext_one_row_per_point_witness :
  map fst [(Examples.origin,
            [("radius_k4", VInt 5); ("group_G_k4", VNum 2);
             ("total_k4", VNum 5); ("mean_G_k4", VNum (2 # 5))])]
  = [Examples.origin]
  /\ [Examples.origin] <> [].
Proof.
  apply (geocontext_one_row_per_point [Examples.origin]
           (Plain Examples.three) (PyList ["G"]) (PyList ["Pop"]) [true]
           (PyList [4])).
  reflexivity.
Defined.

(** X8 for the first two rows of the example table and the group ['H']. *)
Lemma weighted_defined_iff_witness :
  ((exists average variance,
       weighted (firstn 2 Examples.three_from_origin) "H" "Pop"
       = Ok (average, VSqrt variance))
   <-> ~ (Qsum (column "Pop" (firstn 2 Examples.three_from_origin)) == 0)%Q)
  /\ ((Qsum (column "Pop" (firstn 2 Examples.three_from_origin)) == 0)%Q ->
      forall kValue res,
        statistic false (firstn 2 Examples.three_from_origin) "H" "Pop"
          kValue res
        = Raise (ZeroDivisionError
                   "Weights sum to zero, can't be normalized")).
Proof.
  apply (weighted_defined_iff (firstn 2 Examples.three_from_origin) "H" "Pop").
  repeat constructor; discriminate.
Defined.

(** X9 for the example table, two groups and the flags [True, False]. *)
Lemma geocontext_succeeds_witness :
  exists t,
    snd (geocontext [Examples.origin] (Plain Examples.three)
           (PyList ["G"; "H"]) (PyList ["Pop"]) [true; false] (PyList [4]))
    = Ok t.
Proof.
  eapply (geocontext_succeeds [Examples.origin] (Plain Examples.three)
            ["G"; "H"] ["Pop"] [true; false] [4]).
  - discriminate.
  - left. reflexivity.
  - simpl. lia.
  - intros _ i _ _. reflexivity.
  - vm_compute. reflexivity.
Defined.

(** X10 for the k-values 7, 4 and 4, 7. *)
Lemma kValues_order_irrelevant_witness :
  geocontext [Examples.origin] (Plain Examples.three) (PyList ["G"])
    (PyList ["Pop"]) [true] (PyList [7; 4])
  = geocontext [Examples.origin] (Plain Examples.three) (PyList ["G"])
      (PyList ["Pop"]) [true] (PyList [4; 7]).
Proof.
  apply (kValues_order_irrelevant [Examples.origin] (Plain Examples.three)
           (PyList ["G"]) (PyList ["Pop"]) [true] [7; 4] [4; 7]).
  apply perm_swap.
Defined.

(** X12 for the example table and k = 2: the location at the point holds
    two people. *)
Lemma radius_zero_witness :
  nth_error [0; 5] 0 = Some 0.
Proof.
  apply (radius_zero Examples.three_from_origin false ["G"] "Pop" 0%nat
           [4; 2] [] [0; 5]
           [("radius_k2", VInt 0); ("radius_k4", VInt 5)] 0%nat 2).
  - apply sort_values_ascending.
  - repeat (apply Forall_cons; [vm_compute; discriminate|]).
    apply Forall_nil.
  - whole_column.
  - repeat constructor.
  - vm_compute. reflexivity.
  - reflexivity.
  - vm_compute. discriminate.
Defined.

(** X13 for the example table, the groups ['G'], ['H'] and the flags
    [False, True]. *)
Lemma mixed_flags_with_one_population_column_witness :
  exists k,
    In k [4]
    /\ snd (geocontext [Examples.origin] (Plain Examples.three)
              (PyList ["G"; "H"]) (PyList ["Pop"]) [false; true]
              (PyList [4]))
       = Raise (KeyError (group_name "H" k)).
Proof.
  eapply (mixed_flags_with_one_population_column [Examples.origin]
            (Plain Examples.three) ["G"; "H"] "Pop" [false; true] [4]
            1%nat "H").
  - discriminate.
  - discriminate.
  - vm_compute. reflexivity.
  - reflexivity.
  - reflexivity.
  - lia.
  - intros j Hj. assert (j = 0%nat) by lia. subst j. reflexivity.
Defined.

(** * The reference table after a call, and nested selections *)

Lemma indexed_distances (p : point) (rows : list row) :
  Forall (fun r => Distance r = euclid p (snd r))
    (sort_values (assign_distance p rows)).
Proof.
  apply sort_values_Forall. unfold assign_distance. rewrite Forall_map.
  apply Forall_forall. intros y _. reflexivity.
Qed.

Lemma for_point_last multi groups populations proportions kValues
  (points : list point) :
  forall (popLocations : list row) (results results' : list dict) (d : point),
    points <> [] ->
    snd (for_point multi groups populations proportions kValues points
           popLocations results) = Ok results' ->
    Forall (fun r => Distance r = euclid (last points d) (snd r))
      (fst (for_point multi groups populations proportions kValues points
              popLocations results)).
Proof.
  induction points as [|p points IH];
    intros popLocations results results' d Hne H; [congruence|].
  simpl in H. simpl for_point.
  destruct (for_pop_Column multi groups proportions kValues
              (sort_values (assign_distance p popLocations)) populations
              0%nat []) as [res|e]; [|discriminate H].
  destruct points as [|p2 points].
  - simpl. apply indexed_distances.
  - change (last (p :: p2 :: points) d) with (last (p2 :: points) d).
    eapply IH; [discriminate | exact H].
Qed.

(** X14: after a call that returns a table, the caller's reference table
    is sorted by its ['Distance'] column and holds the same locations as
    before; when the squared distance of every location to the last point
    is below 2^52, the column holds the value that lines 133-135 compute
    for the last point, the Euclidean distance truncated to an integer. *)
Theorem reference_table_after_success (points : list point)
  (popLocations : frame) (groups populations : object string)
  (proportions : list bool) (kValues : object Z) (t : table) (d : point) :
  snd (geocontext points popLocations groups populations proportions kValues)
  = Ok t ->
  Forall (fun l => squared_distance (last points d) l < 2 ^ 52)
    (locations popLocations) ->
  exists rows,
    fst (geocontext points popLocations groups populations proportions kValues)
    = WithDistance rows
    /\ ascending rows
    /\ Forall (fun r =>
                 np_distance (last points d) (snd r) = Ok (Distance r)
                 /\ Distance r ^ 2
                    <= squared_distance (last points d) (snd r)
                    < (Distance r + 1) ^ 2) rows
    /\ Permutation (map snd rows) (locations popLocations).
Proof.
  unfold geocontext.
  destruct (check_format groups populations kValues)
    as [[[[multi gs] ps] ks]|e]; [|discriminate].
  pose proof (for_point_last multi gs ps proportions (sort ks) points
                (assign_zero popLocations) []) as Hlast.
  pose proof (for_point_table multi gs ps proportions (sort ks) points
                (assign_zero popLocations) []) as [Hperm Hasc].
  pose proof (for_point_results multi gs ps proportions (sort ks) points
                (assign_zero popLocations) []) as Hlen.
  destruct (for_point multi gs ps proportions (sort ks) points
              (assign_zero popLocations) []) as [rows [results|e]];
    simpl in *; [|discriminate].
  intros H Hrange. exists rows. split; [reflexivity|].
  rewrite assign_zero_locations in Hperm.
  split; [apply Hasc, assign_zero_ascending|].
  split; [|exact Hperm].
  assert (Hne : points <> []).
  { intros ->. specialize (Hlen results eq_refl). simpl in Hlen.
    destruct results; [discriminate H | discriminate Hlen]. }
  specialize (Hlast results d Hne eq_refl).
  apply Forall_forall. intros r Hr.
  rewrite Forall_forall in Hlast, Hrange.
  rewrite (Hlast r Hr).
  assert (Hin : In (snd r) (locations popLocations)).
  { eapply Permutation_in; [exact Hperm|]. apply in_map. exact Hr. }
  split; [apply np_distance_exact, Hrange, Hin|].
  apply euclid_truncates.
Qed.

(** X14 for the example table [far; near] and the point [origin]. *)
Lemma reference_table_after_success_witness :
  exists rows,
    fst (geocontext [Examples.origin] (Plain Examples.pair_far_near)
           (PyList ["G"]) (PyList ["Pop"]) [true] (PyList [1]))
    = WithDistance rows
    /\ ascending rows
    /\ Forall (fun r =>
                 np_distance (last [Examples.origin] Examples.origin) (snd r)
                 = Ok (Distance r)
                 /\ Distance r ^ 2
                    <= squared_distance
                         (last [Examples.origin] Examples.origin) (snd r)
                    < (Distance r + 1) ^ 2) rows
    /\ Permutation (map snd rows) (locations (Plain Examples.pair_far_near)).
Proof.
  apply (reference_table_after_success [Examples.origin]
           (Plain Examples.pair_far_near) (PyList ["G"]) (PyList ["Pop"])
           [true] (PyList [1])
           [(Examples.origin,
             [("radius_k1", VInt 0); ("group_G_k1", VNum 1);
              ("total_k1", VNum 2); ("mean_G_k1", VNum (1 # 2))])]).
  - vm_compute. reflexivity.
  - repeat (apply Forall_cons; [vm_compute; reflexivity|]). apply Forall_nil.
Defined.

Lemma select_select (popLocations : list row) (r1 r2 : Z) :
  r1 <= r2 ->
  select popLocations r1
  = filter (fun r => Distance r <=? r1) (select popLocations r2).
Proof.
  intros Hle. unfold select.
  induction popLocations as [|x l IH]; simpl; [reflexivity|].
  destruct (Distance x <=? r1) eqn:E1, (Distance x <=? r2) eqn:E2; simpl;
    rewrite ?E1, IH; try reflexivity.
  apply Z.leb_le in E1. apply Z.leb_gt in E2. lia.
Qed.

(** X15: selections are nested: every row selected for a radius is
    selected for any larger radius, and for non-negative populations the
    total within a radius does not decrease when the radius grows. *)
Theorem selections_nest (popLocations : list row) (pop_Column : string)
  (r1 r2 : Z) :
  r1 <= r2 ->
  (forall x, In x (select popLocations r1) -> In x (select popLocations r2))
  /\ (counts pop_Column popLocations ->
      (within popLocations pop_Column r1
       <= within popLocations pop_Column r2)%Q).
Proof.
  intros Hle. split.
  - intros x Hx. apply select_In in Hx. apply select_In.
    split; [tauto | lia].
  - intros Hcounts. unfold within.
    rewrite (select_select popLocations r1 r2 Hle).
    apply counts_filter. apply counts_filter. exact Hcounts.
Qed.

(** X15 for the example table and the radii 0 and 5. *)
Lemma selections_nest_witness :
  (forall x, In x (select Examples.three_from_origin 0) ->
             In x (select Examples.three_from_origin 5))
  /\ (counts "Pop" Examples.three_from_origin ->
      (within Examples.three_from_origin "Pop" 0
       <= within Examples.three_from_origin "Pop" 5)%Q).
Proof.
  apply (selections_nest Examples.three_from_origin "Pop" 0 5). lia.
Defined.
